(** * Kendo bracket recorder: progression, ranking and round layout

    A shallow embedding of the bracket engine of the application
    (the handlers of [App] and the [levels] computation of
    [BracketTree]) together with the properties the specification
    states about them. *)

From Stdlib Require Import ZArith String List Permutation Sorted.
From stdpp Require Import base option list gmap strings pretty.
Import ListNotations.

Local Open Scope string_scope.
Local Open Scope Z_scope.

(** ** Entity model ([types.ts]) *)

Record Player := { player_id : string; player_name : string }.

Record MatchResult := {
  winnerId : string;
  redScore : Z;
  whiteScore : Z;
  details : string
}.

(** The literal type ['red' | 'white']; [null] (rendered as "Auto" in the
    setup form) is [None] at the use sites. *)
Inductive Slot := red | white.

Record Match := {
  match_id : Z;
  redPlayerId : option string;
  whitePlayerId : option string;
  winnerToMatchId : option Z;
  winnerToSlot : option Slot;
  loserToMatchId : option Z;
  loserToSlot : option Slot;
  result : option MatchResult
}.

Inductive Status := SETUP | ACTIVE | FINISHED.

Record TournamentData := {
  tournament_id : string;
  lastUpdated : Z;
  title : string;
  players : list Player;
  matches : list Match;
  totalMatches : Z;
  status : Status
}.

(** Object spread with one overridden field. *)
Definition set_redPlayerId (m : Match) (p : option string) : Match :=
  {| match_id := match_id m; redPlayerId := p;
     whitePlayerId := whitePlayerId m;
     winnerToMatchId := winnerToMatchId m; winnerToSlot := winnerToSlot m;
     loserToMatchId := loserToMatchId m; loserToSlot := loserToSlot m;
     result := result m |}.

Definition set_whitePlayerId (m : Match) (p : option string) : Match :=
  {| match_id := match_id m; redPlayerId := redPlayerId m;
     whitePlayerId := p;
     winnerToMatchId := winnerToMatchId m; winnerToSlot := winnerToSlot m;
     loserToMatchId := loserToMatchId m; loserToSlot := loserToSlot m;
     result := result m |}.

Definition set_result (m : Match) (r : option MatchResult) : Match :=
  {| match_id := match_id m; redPlayerId := redPlayerId m;
     whitePlayerId := whitePlayerId m;
     winnerToMatchId := winnerToMatchId m; winnerToSlot := winnerToSlot m;
     loserToMatchId := loserToMatchId m; loserToSlot := loserToSlot m;
     result := r |}.

Definition set_matches (t : TournamentData) (ms : list Match) : TournamentData :=
  {| tournament_id := tournament_id t; lastUpdated := lastUpdated t;
     title := title t; players := players t; matches := ms;
     totalMatches := totalMatches t; status := status t |}.

Definition set_lastUpdated (t : TournamentData) (now : Z) : TournamentData :=
  {| tournament_id := tournament_id t; lastUpdated := now;
     title := title t; players := players t; matches := matches t;
     totalMatches := totalMatches t; status := status t |}.

(** ** JavaScript conventions used by the handlers *)

Module JS.

(** Truthiness of a [string | null]: [null] and the empty string are
    falsy. *)
Definition truthyStr (o : option string) : bool :=
  match o with
  | Some s => negb (String.eqb s "")
  | None => false
  end.

(** Truthiness of a [number | null]: [null] and [0] are falsy. *)
Definition truthyNum (o : option Z) : bool :=
  match o with
  | Some n => negb (n =? 0)
  | None => false
  end.

(** [o === n] for [o : number | null]. *)
Definition eqNum (o : option Z) (n : Z) : bool :=
  match o with
  | Some k => k =? n
  | None => false
  end.

(** [o === s] for [o : string | null]. *)
Definition eqStr (s : string) (o : option string) : bool :=
  match o with
  | Some t => String.eqb s t
  | None => false
  end.

(** [arr.includes(x)] *)
Definition includes (arr : list string) (x : string) : bool :=
  existsb (String.eqb x) arr.

(** [arr.includes(o)] for [arr : string[]] and [o : string | null]. *)
Definition includesOpt (arr : list string) (o : option string) : bool :=
  match o with
  | Some x => includes arr x
  | None => false
  end.

Definition includesNum (arr : list Z) (x : Z) : bool :=
  existsb (Z.eqb x) arr.

(** [arr.find(p)] is [List.find]; [arr.filter(Boolean)] on an array of
    [string | null] keeps the truthy entries. *)
Definition filterBoolean (arr : list (option string)) : list string :=
  flat_map (fun o => if truthyStr o then
                       match o with Some x => [x] | None => [] end
                     else []) arr.

(** [arr.findIndex(p)], [None] standing for [-1]. *)
Fixpoint findIndex {A} (p : A -> bool) (arr : list A) : option nat :=
  match arr with
  | [] => None
  | x :: rest => if p x then Some O else option_map S (findIndex p rest)
  end.

(** [arr.slice(0, n)]: a negative [n] counts from the end. *)
Definition slice0 {A} (arr : list A) (n : Z) : list A :=
  if n <? 0 then firstn (Z.to_nat (Z.of_nat (length arr) + n)) arr
  else firstn (Z.to_nat n) arr.

(** [arr.sort(cmp)]: the sort is stable, [cmp a b <= 0] keeps [a]
    before [b]. *)
Fixpoint insertBy {A} (cmp : A -> A -> Z) (x : A) (l : list A) : list A :=
  match l with
  | [] => [x]
  | y :: rest => if cmp x y <=? 0 then x :: y :: rest
                 else y :: insertBy cmp x rest
  end.

Definition sort {A} (cmp : A -> A -> Z) (l : list A) : list A :=
  fold_right (insertBy cmp) [] l.

End JS.

(** A slot is occupied when the handlers see a truthy player id in it. *)
Definition occupied (slot : option string) : Prop := JS.truthyStr slot = true.
Definition vacant (slot : option string) : Prop := JS.truthyStr slot = false.

(** ** Placement ([placePlayerInMatch]) *)

Definition placeInTarget (targetMatch : Match) (playerId : string)
    (targetSlot : option Slot) (sourceParticipants : list string) : Match :=
  match targetSlot with
  | Some red => set_redPlayerId targetMatch (Some playerId)
  | Some white => set_whitePlayerId targetMatch (Some playerId)
  | None =>
      if JS.truthyStr (redPlayerId targetMatch)
         && JS.includesOpt sourceParticipants (redPlayerId targetMatch)
      then set_redPlayerId targetMatch (Some playerId)
      else if JS.truthyStr (whitePlayerId targetMatch)
         && JS.includesOpt sourceParticipants (whitePlayerId targetMatch)
      then set_whitePlayerId targetMatch (Some playerId)
      else if negb (JS.truthyStr (redPlayerId targetMatch))
      then set_redPlayerId targetMatch (Some playerId)
      else if negb (JS.truthyStr (whitePlayerId targetMatch))
      then set_whitePlayerId targetMatch (Some playerId)
      else targetMatch
  end.

Definition placePlayerInMatch (ms : list Match) (targetMatchId : Z)
    (playerId : string) (targetSlot : option Slot)
    (sourceParticipants : list string) : list Match :=
  map (fun targetMatch =>
         if match_id targetMatch =? targetMatchId
         then placeInTarget targetMatch playerId targetSlot sourceParticipants
         else targetMatch) ms.

(** The guarded call
    [if (match.xToMatchId) ms = placePlayerInMatch(ms, match.xToMatchId, ...)]
    shared by both handlers and both edges. *)
Definition routeTo (ms : list Match) (toMatchId : option Z)
    (playerId : string) (toSlot : option Slot)
    (sourceParticipants : list string) : list Match :=
  if JS.truthyNum toMatchId then
    match toMatchId with
    | Some target =>
        placePlayerInMatch ms target playerId toSlot sourceParticipants
    | None => ms
    end
  else ms.

(** ** Application state and persistence *)

Record ScoreForm := { form_red : Z; form_white : Z; form_details : string }.

(** The part of the component state the handlers read and write. *)
Record AppState := {
  tournaments : list TournamentData;
  editorData : option TournamentData;
  activeMatchId : option Z;
  scoreForm : ScoreForm
}.

(** What a handler leaves behind: the next state and the [alert]s shown. *)
Record Outcome := { next : AppState; alerts : list string }.

Definition silent (st : AppState) : Outcome := {| next := st; alerts := [] |}.

(** [persistTournament]; [now] is the value of [Date.now()]. *)
Definition persistTournament (now : Z) (data : TournamentData)
    (st : AppState) : AppState :=
  let updated := set_lastUpdated data now in
  let existingIdx :=
    JS.findIndex (fun t => String.eqb (tournament_id t) (tournament_id updated))
                 (tournaments st) in
  let newStats :=
    match existingIdx with
    | Some i => <[i := updated]> (tournaments st)
    | None => (tournaments st ++ [updated])%list
    end in
  {| tournaments := newStats; editorData := Some updated;
     activeMatchId := activeMatchId st; scoreForm := scoreForm st |}.

Definition findMatch (ms : list Match) (matchId : Z) : option Match :=
  List.find (fun m => match_id m =? matchId) ms.

Definition setResult (ms : list Match) (matchId : Z) (r : MatchResult)
    : list Match :=
  map (fun m => if match_id m =? matchId then set_result m (Some r) else m) ms.

(** ** Walkover ([handleWalkover]) *)

Definition walkoverAlert : string := "選手尚未就位，無法輪空晉級。".
Definition walkoverDetails : string := "輪空晉級 (Walkover)".

(** [confirmed] is the answer to the [confirm] dialog. *)
Definition handleWalkover (confirmed : bool) (now : Z) (matchId : Z)
    (st : AppState) : Outcome :=
  match editorData st with
  | None => silent st
  | Some ed =>
      if negb confirmed then silent st else
      match findMatch (matches ed) matchId with
      | None => silent st
      | Some m =>
          let winner :=
            if JS.truthyStr (redPlayerId m) then redPlayerId m
            else whitePlayerId m in
          if negb (JS.truthyStr winner) then
            {| next := st; alerts := [walkoverAlert] |}
          else
            match winner with
            | None => {| next := st; alerts := [walkoverAlert] |}
            | Some winnerId =>
                let result := {| winnerId := winnerId; redScore := 0;
                                 whiteScore := 0; details := walkoverDetails |} in
                let sourceParticipants :=
                  JS.filterBoolean [redPlayerId m; whitePlayerId m] in
                let updatedMatches := setResult (matches ed) matchId result in
                let updatedMatches :=
                  routeTo updatedMatches (winnerToMatchId m) winnerId
                    (winnerToSlot m) sourceParticipants in
                (* the [if (match.loserToMatchId)] branch is empty *)
                {| next := persistTournament now (set_matches ed updatedMatches) st;
                   alerts := [] |}
            end
      end
  end.

(** ** Score submission ([submitScore]) *)

Definition tiedAlert : string := "劍道比賽必須分出勝負".

Definition clearActive (st : AppState) : AppState :=
  {| tournaments := tournaments st; editorData := editorData st;
     activeMatchId := None; scoreForm := scoreForm st |}.

Definition submitScore (now : Z) (st : AppState) : Outcome :=
  match activeMatchId st, editorData st with
  | Some active, Some ed =>
      match findMatch (matches ed) active with
      | None => silent st
      | Some m =>
          if negb (JS.truthyStr (redPlayerId m))
             || negb (JS.truthyStr (whitePlayerId m))
          then silent st
          else
          match redPlayerId m, whitePlayerId m with
          | Some redP, Some whiteP =>
                let form := scoreForm st in
                let decided :=
                  if form_red form >? form_white form then Some (redP, whiteP)
                  else if form_white form >? form_red form then Some (whiteP, redP)
                  else None in
                match decided with
                | None => {| next := st; alerts := [tiedAlert] |}
                | Some (winnerId, loserId) =>
                    let result := {| winnerId := winnerId;
                                     redScore := form_red form;
                                     whiteScore := form_white form;
                                     details := form_details form |} in
                    let sourceParticipants := [redP; whiteP] in
                    let updatedMatches := setResult (matches ed) active result in
                    let updatedMatches :=
                      routeTo updatedMatches (winnerToMatchId m) winnerId
                        (winnerToSlot m) sourceParticipants in
                    let updatedMatches :=
                      routeTo updatedMatches (loserToMatchId m) loserId
                        (loserToSlot m) sourceParticipants in
                    {| next := clearActive
                                 (persistTournament now
                                    (set_matches ed updatedMatches) st);
                       alerts := [] |}
                end
          | _, _ => silent st
          end
      end
  | _, _ => silent st
  end.

(** The score dialog: [onScore] opens it on a match with a blank form,
    the inputs then overwrite the form. *)
Definition onScore (matchId : Z) (st : AppState) : AppState :=
  {| tournaments := tournaments st; editorData := editorData st;
     activeMatchId := Some matchId;
     scoreForm := {| form_red := 0; form_white := 0; form_details := "" |} |}.

Definition setScoreForm (f : ScoreForm) (st : AppState) : AppState :=
  {| tournaments := tournaments st; editorData := editorData st;
     activeMatchId := activeMatchId st; scoreForm := f |}.

(** ** Ranking derivation ([getRankings]) *)

Record Ranking := { rank_title : string; rank_name : string; rankOrder : Z }.

(** The two locals of [getRankings]: the [rankings] array and the
    [processedPlayers] set, the latter in insertion order. *)
Record RankAcc := { rankings : list Ranking; processedPlayers : list string }.

Definition findPlayer (ps : list Player) (pid : string) : option Player :=
  List.find (fun pl => String.eqb (player_id pl) pid) ps.

Definition addRanking (ps : list Player) (pid : option string)
    (title : string) (order : Z) (acc : RankAcc) : RankAcc :=
  if negb (JS.truthyStr pid) then acc else
  match pid with
  | None => acc
  | Some pid =>
      if negb (JS.includes (processedPlayers acc) pid) then
        match findPlayer ps pid with
        | Some p =>
            {| rankings := (rankings acc ++
                  [{| rank_title := title; rank_name := player_name p;
                      rankOrder := order |}])%list;
               processedPlayers := (processedPlayers acc ++ [pid])%list |}
        | None => acc
        end
      else acc
  end.

(** [m.result.winnerId === m.redPlayerId ? m.whitePlayerId : m.redPlayerId] *)
Definition otherOccupant (m : Match) (r : MatchResult) : option string :=
  if JS.eqStr (winnerId r) (redPlayerId m) then whitePlayerId m
  else redPlayerId m.

Definition championTitle : string := "冠軍 (Champion)".
Definition secondTitle : string := "亞軍 (2nd Place)".
Definition thirdTitle : string := "季軍 (3rd Place)".
Definition fourthTitle : string := "殿軍 (4th Place)".
Definition jointThirdTitle : string := "季軍 (3rd Place - Joint)".
Definition fifthTitle : string := "第五名 (5th Place)".
Definition ninthTitle : string := "第九名 (9th Place)".

(** Body of the [forEach] over a family of root matches. *)
Definition rankRoot (ps : list Player) (winTitle : string) (winOrder : Z)
    (loseTitle : string) (loseOrder : Z) (acc : RankAcc) (root : Match)
    : RankAcc :=
  match result root with
  | Some r =>
      addRanking ps (otherOccupant root r) loseTitle loseOrder
        (addRanking ps (Some (winnerId r)) winTitle winOrder acc)
  | None => acc
  end.

(** Body of the [forEach] over a round of feeder matches. *)
Definition rankLoser (ps : list Player) (title : string) (order : Z)
    (acc : RankAcc) (m : Match) : RankAcc :=
  match result m with
  | Some r => addRanking ps (otherOccupant m r) title order acc
  | None => acc
  end.

Definition isFedByLoser (ms : list Match) (root : Match) : bool :=
  existsb (fun m => JS.eqNum (loserToMatchId m) (match_id root)) ms.

Definition getLosersOfFeeders (ms : list Match) (targetMatchIds : list Z)
    : list Match :=
  List.filter (fun m => JS.truthyNum (winnerToMatchId m)
                   && match winnerToMatchId m with
                      | Some t => JS.includesNum targetMatchIds t
                      | None => false
                      end) ms.

Definition byIdDesc (a b : Match) : Z := match_id b - match_id a.
Definition byIdAsc (a b : Match) : Z := match_id a - match_id b.
Definition byRankOrder (a b : Ranking) : Z := rankOrder a - rankOrder b.

Definition mainRootsOf (ms : list Match) : list Match :=
  JS.sort byIdDesc
    (List.filter (fun root => negb (isFedByLoser ms root))
       (List.filter (fun m => negb (JS.truthyNum (winnerToMatchId m))) ms)).

Definition consolationRootsOf (ms : list Match) : list Match :=
  JS.sort byIdDesc
    (List.filter (fun root => isFedByLoser ms root)
       (List.filter (fun m => negb (JS.truthyNum (winnerToMatchId m))) ms)).

(** Everything [getRankings] does before the final sort and slice. *)
Definition collectRankings (ed : TournamentData) (limit : Z) : RankAcc :=
  let ps := players ed in
  let ms := matches ed in
  let mainRoots := mainRootsOf ms in
  let consolationRoots := consolationRootsOf ms in
  let acc := {| rankings := []; processedPlayers := [] |} in
  let acc := fold_left (rankRoot ps championTitle 1 secondTitle 2) mainRoots acc in
  let acc := fold_left (rankRoot ps thirdTitle 3 fourthTitle 4) consolationRoots acc in
  let acc :=
    if (length consolationRoots =? 0)%nat then
      let mainRootIds := map match_id mainRoots in
      let semiFinalMatches := getLosersOfFeeders ms mainRootIds in
      fold_left (rankLoser ps jointThirdTitle 3) semiFinalMatches acc
    else acc in
  if limit >? 4 then
    let mainRootIds := map match_id mainRoots in
    let semiMatches := getLosersOfFeeders ms mainRootIds in
    let semiIds := map match_id semiMatches in
    let qfMatches := getLosersOfFeeders ms semiIds in
    let acc := fold_left (rankLoser ps fifthTitle 5) qfMatches acc in
    if limit >? 8 then
      let qfIds := map match_id qfMatches in
      let r16Matches := getLosersOfFeeders ms qfIds in
      fold_left (rankLoser ps ninthTitle 9) r16Matches acc
    else acc
  else acc.

Definition getRankings (st : AppState) (limit : Z) : list Ranking :=
  match editorData st with
  | None => []
  | Some ed =>
      JS.slice0 (JS.sort byRankOrder (rankings (collectRankings ed limit))) limit
  end.

(** ** Round layout ([levels] of [BracketTree]) *)

Module BracketTree.

Definition maxDepth : Z := 10.

(** [forEach] whose body may fail to return: the state is threaded
    through, [None] is propagated. *)
Fixpoint forEachM {A S : Type} (body : S -> A -> option S) (l : list A)
    (s : S) : option S :=
  match l with
  | [] => Some s
  | x :: rest =>
      match body s x with
      | Some s' => forEachM body rest s'
      | None => None
      end
  end.

Definition feedersOf (ms : list Match) (matchId : Z) : list Match :=
  List.filter (fun m => JS.eqNum (winnerToMatchId m) matchId
                        || JS.eqNum (loserToMatchId m) matchId) ms.

(** [matchDepthMap.get(matchId) || -1] *)
Definition existingDepth (mp : gmap Z Z) (matchId : Z) : Z :=
  match mp !! matchId with
  | Some v => if v =? 0 then -1 else v
  | None => -1
  end.

(** The update at the head of [calculateDepth]: the depth is recorded
    when this path is longer than the one already known. *)
Definition recordDepth (matchId currentDepth : Z) (mp : gmap Z Z)
    : gmap Z Z :=
  if currentDepth >? existingDepth mp matchId
  then <[matchId := currentDepth]> mp else mp.

(** [calculateDepth] mutates [matchDepthMap]; here the map is passed
    in and returned. The recursion of the source is not structural, so
    every call spends one unit of [fuel] and [None] means the fuel ran
    out before the call returned. *)
Fixpoint calculateDepth (fuel : nat) (ms : list Match) (matchId : Z)
    (currentDepth : Z) (mp : gmap Z Z) : option (gmap Z Z) :=
  match fuel with
  | O => None
  | S fuel' =>
      if currentDepth >? maxDepth then Some mp else
      forEachM (fun acc f =>
                  calculateDepth fuel' ms (match_id f) (currentDepth + 1) acc)
               (feedersOf ms matchId)
               (recordDepth matchId currentDepth mp)
  end.

(** Body of the [forEach] that handles matches the root traversal did
    not reach. *)
Definition placeOrphan (fuel : nat) (ms : list Match) (mp : gmap Z Z)
    (m : Match) : option (gmap Z Z) :=
  match mp !! match_id m with
  | Some _ => Some mp
  | None =>
      let parent :=
        List.find (fun p => JS.eqNum (winnerToMatchId m) (match_id p)
                            || JS.eqNum (loserToMatchId m) (match_id p)) ms in
      match parent with
      | Some p =>
          match mp !! match_id p with
          | Some parentDepth =>
              calculateDepth fuel ms (match_id m) (parentDepth + 1) mp
          | None => Some (<[match_id m := 0]> mp)
          end
      | None => Some (<[match_id m := 0]> mp)
      end
  end.

(** The map after the traversal from the root. *)
Definition rootDepths (fuel : nat) (ms : list Match) (rootMatchId : Z)
    : option (gmap Z Z) :=
  calculateDepth fuel ms rootMatchId 0 ∅.

(** The final [matchDepthMap]. *)
Definition depthMap (fuel : nat) (ms : list Match) (rootMatchId : Z)
    : option (gmap Z Z) :=
  match rootDepths fuel ms rootMatchId with
  | Some mp => forEachM (placeOrphan fuel ms) ms mp
  | None => None
  end.

(** [Math.max(...Array.from(matchDepthMap.values()), 0)] *)
Definition maxFoundDepth (mp : gmap Z Z) : Z :=
  map_fold (fun _ v acc => Z.max v acc) 0 mp.

Definition levelAt (ms : list Match) (mp : gmap Z Z) (d : Z) : list Match :=
  JS.sort byIdAsc
    (List.filter (fun m => JS.eqNum (mp !! match_id m) d) ms).

(** The loop [for (d = maxFoundDepth; d >= 0; d--)], counting on [d]. *)
Fixpoint levelsFrom (ms : list Match) (mp : gmap Z Z) (d : nat)
    : list (list Match) :=
  levelAt ms mp (Z.of_nat d) ::
  match d with
  | O => []
  | S d' => levelsFrom ms mp d'
  end.

Definition levels (fuel : nat) (ms : list Match) (rootMatchId : Z)
    : option (list (list Match)) :=
  match depthMap fuel ms rootMatchId with
  | Some mp => Some (levelsFrom ms mp (Z.to_nat (maxFoundDepth mp)))
  | None => None
  end.

(** Ids at reverse-walk distance exactly [k] from [rootMatchId]: the
    matches from which [k] winner or loser edges lead to the root. *)
Fixpoint walkLevel (ms : list Match) (rootMatchId : Z) (k : nat) : list Z :=
  match k with
  | O => [rootMatchId]
  | S k' => flat_map (fun b => map match_id (feedersOf ms b))
                     (walkLevel ms rootMatchId k')
  end.

End BracketTree.

(** [a]'s winner edge or loser edge targets the match with id [b]. *)
Definition feeds (a : Match) (b : Z) : Prop :=
  winnerToMatchId a = Some b \/ loserToMatchId a = Some b.

(** ** Slot sources ([getSlotSource], [getIncomingSources]) *)

(** The literal type ['winner' | 'loser']. *)
Inductive SourceType := winner | loser.

Record SlotSource := { source_match : Match; source_type : SourceType }.

(** [toSlot === slot] for [toSlot : 'red' | 'white' | null]. *)
Definition eqSlot (toSlot : option Slot) (slot : Slot) : bool :=
  match toSlot, slot with
  | Some red, red => true
  | Some white, white => true
  | _, _ => false
  end.

(** [toSlot === null] *)
Definition isNull {A} (o : option A) : bool :=
  match o with
  | None => true
  | Some _ => false
  end.

(** What one match pushes onto [sources] in [getSlotSource]. *)
Definition slotSourcesOf (matchId : Z) (slot : Slot) (m : Match)
    : list SlotSource :=
  ((if JS.eqNum (winnerToMatchId m) matchId then
      if eqSlot (winnerToSlot m) slot
      then [{| source_match := m; source_type := winner |}]
      else if isNull (winnerToSlot m)
      then [{| source_match := m; source_type := winner |}]
      else []
    else [])
   ++
   (if JS.eqNum (loserToMatchId m) matchId then
      if eqSlot (loserToSlot m) slot
      then [{| source_match := m; source_type := loser |}]
      else if isNull (loserToSlot m)
      then [{| source_match := m; source_type := loser |}]
      else []
    else []))%list.

Definition getSlotSource (st : AppState) (matchId : Z) (slot : Slot)
    : list SlotSource :=
  match editorData st with
  | None => []
  | Some ed => flat_map (slotSourcesOf matchId slot) (matches ed)
  end.

(** The counter object [{ red, white }] of [getIncomingSources]. *)
Record Incoming := { incoming_red : Z; incoming_white : Z }.

(** [sources.red++], [sources.white++], or both for an Auto edge. *)
Definition countEdge (toSlot : option Slot) (sources : Incoming) : Incoming :=
  match toSlot with
  | Some red => {| incoming_red := incoming_red sources + 1;
                   incoming_white := incoming_white sources |}
  | Some white => {| incoming_red := incoming_red sources;
                     incoming_white := incoming_white sources + 1 |}
  | None => {| incoming_red := incoming_red sources + 1;
               incoming_white := incoming_white sources + 1 |}
  end.

(** Body of the [forEach] of [getIncomingSources]. *)
Definition countMatch (matchId : Z) (sources : Incoming) (m : Match)
    : Incoming :=
  let sources :=
    if JS.eqNum (winnerToMatchId m) matchId
    then countEdge (winnerToSlot m) sources else sources in
  if JS.eqNum (loserToMatchId m) matchId
  then countEdge (loserToSlot m) sources else sources.

Definition getIncomingSources (st : AppState) (matchId : Z) : Incoming :=
  match editorData st with
  | None => {| incoming_red := 0; incoming_white := 0 |}
  | Some ed =>
      fold_left (countMatch matchId) (matches ed)
                {| incoming_red := 0; incoming_white := 0 |}
  end.

(** ** Match cards ([MatchCard]) *)

Definition hasResult (m : Match) : bool :=
  match result m with
  | Some _ => true
  | None => false
  end.

(** [isReady]: both players present, no result. *)
Definition isReady (m : Match) : bool :=
  JS.truthyStr (redPlayerId m) && JS.truthyStr (whitePlayerId m)
  && negb (hasResult m).

(** [isBye], from the match and the two props [redSourceExist] and
    [whiteSourceExist]. *)
Definition isBye (m : Match) (redSourceExist whiteSourceExist : bool) : bool :=
  let isRedEmpty := negb (JS.truthyStr (redPlayerId m)) && negb redSourceExist in
  let isWhiteEmpty :=
    negb (JS.truthyStr (whitePlayerId m)) && negb whiteSourceExist in
  let hasRed := JS.truthyStr (redPlayerId m) || redSourceExist in
  let hasWhite := JS.truthyStr (whitePlayerId m) || whiteSourceExist in
  negb (hasResult m) && ((hasRed && isWhiteEmpty) || (hasWhite && isRedEmpty)).

(** The card as the match list renders it: the two props are
    [getIncomingSources(match.id).red > 0] and [... .white > 0]. *)
Definition cardShowsWalkover (st : AppState) (m : Match) : bool :=
  isBye m (incoming_red (getIncomingSources st (match_id m)) >? 0)
          (incoming_white (getIncomingSources st (match_id m)) >? 0).

Definition unknownPlayer : string := "未知選手".

(** [getPlayerName] of the card. *)
Definition getPlayerName (ps : list Player) (pid : option string)
    : option string :=
  if negb (JS.truthyStr pid) then None else
  match pid with
  | None => None
  | Some pid =>
      match findPlayer ps pid with
      | Some p => Some (player_name p)
      | None => Some unknownPlayer
      end
  end.

(** ** The match list of the active tournament ([renderActiveTournament]) *)

Definition finishedCount (st : AppState) : nat :=
  match editorData st with
  | Some ed => length (List.filter hasResult (matches ed))
  | None => O
  end.

Definition totalCount (st : AppState) : nat :=
  match editorData st with
  | Some ed => length (matches ed)
  | None => O
  end.

Definition isComplete (st : AppState) : bool :=
  (finishedCount st =? totalCount st)%nat && (0 <? totalCount st)%nat.

(** The comparator of [sortedMatches]: unfinished first, then by id. *)
Definition byProgress (a b : Match) : Z :=
  if Bool.eqb (hasResult a) (hasResult b) then match_id a - match_id b
  else if hasResult a then 1 else -1.

Definition sortedMatches (st : AppState) : list Match :=
  match editorData st with
  | Some ed => JS.sort byProgress (matches ed)
  | None => []
  end.

(** ** Setup and the tournament list *)

Definition blankMatch (i : Z) : Match :=
  {| match_id := i; redPlayerId := None; whitePlayerId := None;
     winnerToMatchId := None; winnerToSlot := None;
     loserToMatchId := None; loserToSlot := None; result := None |}.

(** The loop [for (i = 1; i <= totalMatches; i++)] of
    [initializeMatches]. *)
Definition newMatches (totalMatches : Z) : list Match :=
  map blankMatch (seqZ 1 totalMatches).

Definition set_editorData (st : AppState) (ed : option TournamentData)
    : AppState :=
  {| tournaments := tournaments st; editorData := ed;
     activeMatchId := activeMatchId st; scoreForm := scoreForm st |}.

(** [initializeMatches]; the second component is the wizard step it
    moves to ([setSetupStep(2)]), [step] being the current one. *)
Definition initializeMatches (st : AppState) (step : Z) : AppState * Z :=
  match editorData st with
  | None => (st, step)
  | Some ed =>
      (set_editorData st (Some (set_matches ed (newMatches (totalMatches ed)))),
       2)
  end.

(** [deleteTournament]; [confirmed] is the answer to the [confirm]
    dialog. *)
Definition deleteTournament (confirmed : bool) (tid : string)
    (st : AppState) : AppState :=
  if negb confirmed then st else
  {| tournaments :=
       List.filter (fun t => negb (String.eqb (tournament_id t) tid))
                   (tournaments st);
     editorData := editorData st; activeMatchId := activeMatchId st;
     scoreForm := scoreForm st |}.

(** ** Waiting labels of the tree ([getWaitingLabel]) *)

Definition feedsSlotAsWinner (matchId : Z) (slot : Slot) (sourceMatch : Match)
    : bool :=
  (JS.eqNum (winnerToMatchId sourceMatch) matchId
   && eqSlot (winnerToSlot sourceMatch) slot)
  || (JS.eqNum (winnerToMatchId sourceMatch) matchId
      && isNull (winnerToSlot sourceMatch)).

Definition feedsSlotAsLoser (matchId : Z) (slot : Slot) (sourceMatch : Match)
    : bool :=
  (JS.eqNum (loserToMatchId sourceMatch) matchId
   && eqSlot (loserToSlot sourceMatch) slot)
  || (JS.eqNum (loserToMatchId sourceMatch) matchId
      && isNull (loserToSlot sourceMatch)).

Definition waitingText : string := "Waiting...".

(** [getWaitingLabel]; match ids are whole numbers, so the template
    literal prints them in decimal. *)
Definition getWaitingLabel (allMatches : list Match) (matchId : Z)
    (slot : Slot) : string :=
  match List.find (feedsSlotAsWinner matchId slot) allMatches with
  | Some winnerSource => "Wait W-#" +:+ pretty (match_id winnerSource)
  | None =>
      match List.find (feedsSlotAsLoser matchId slot) allMatches with
      | Some loserSource => "Wait L-#" +:+ pretty (match_id loserSource)
      | None => waitingText
      end
  end.

(** ** Specification-side vocabulary *)

(** The slot holds one of the players of the source match. *)
Definition holdsParticipant (sourceParticipants : list string)
    (slot : option string) : Prop :=
  occupied slot /\ exists p, slot = Some p /\ In p sourceParticipants.

(** The Auto placement policy as the specification words it: correction
    priority (Red, then White), fill-first-empty (Red, then White), and
    the no-op fallback. *)
Inductive AutoPolicy (sourceParticipants : list string) (playerId : string)
    (m : Match) : Match -> Prop :=
| auto_correct_red :
    holdsParticipant sourceParticipants (redPlayerId m) ->
    AutoPolicy sourceParticipants playerId m (set_redPlayerId m (Some playerId))
| auto_correct_white :
    ~ holdsParticipant sourceParticipants (redPlayerId m) ->
    holdsParticipant sourceParticipants (whitePlayerId m) ->
    AutoPolicy sourceParticipants playerId m (set_whitePlayerId m (Some playerId))
| auto_fill_red :
    ~ holdsParticipant sourceParticipants (redPlayerId m) ->
    ~ holdsParticipant sourceParticipants (whitePlayerId m) ->
    vacant (redPlayerId m) ->
    AutoPolicy sourceParticipants playerId m (set_redPlayerId m (Some playerId))
| auto_fill_white :
    ~ holdsParticipant sourceParticipants (redPlayerId m) ->
    ~ holdsParticipant sourceParticipants (whitePlayerId m) ->
    occupied (redPlayerId m) ->
    vacant (whitePlayerId m) ->
    AutoPolicy sourceParticipants playerId m (set_whitePlayerId m (Some playerId))
| auto_noop :
    ~ holdsParticipant sourceParticipants (redPlayerId m) ->
    ~ holdsParticipant sourceParticipants (whitePlayerId m) ->
    occupied (redPlayerId m) ->
    occupied (whitePlayerId m) ->
    AutoPolicy sourceParticipants playerId m m.

Definition slotOf (s : Slot) (m : Match) : option string :=
  match s with
  | red => redPlayerId m
  | white => whitePlayerId m
  end.

(** All matches of a collection that carry a given id. *)
Definition matchesWithId (ms : list Match) (matchId : Z) : list Match :=
  List.filter (fun m => match_id m =? matchId) ms.

Definition walkoverResult (winner : string) : MatchResult :=
  {| winnerId := winner; redScore := 0; whiteScore := 0;
     details := walkoverDetails |}.

(** ** Concrete brackets used as test inputs *)

Definition blankForm : ScoreForm :=
  {| form_red := 0; form_white := 0; form_details := "" |}.

Definition demoPlayers : list Player :=
  [ {| player_id := "p1"; player_name := "Sato" |};
    {| player_id := "p2"; player_name := "Suzuki" |};
    {| player_id := "p3"; player_name := "Takahashi" |};
    {| player_id := "p4"; player_name := "Tanaka" |} ].

Definition demoTournament (ms : list Match) : TournamentData :=
  {| tournament_id := "t1"; lastUpdated := 0; title := "demo";
     players := demoPlayers; matches := ms;
     totalMatches := Z.of_nat (length ms); status := ACTIVE |}.

Definition demoState (ms : list Match) : AppState :=
  {| tournaments := [demoTournament ms];
     editorData := Some (demoTournament ms);
     activeMatchId := None; scoreForm := blankForm |}.

(** A bye in match 1 whose winner and loser edges both lead to match 2. *)
Definition sharedTargetBye : Match :=
  Build_Match 1 (Some "p1") None (Some 2) None (Some 2) None None.

Definition sharedTargetBracket : list Match :=
  [ sharedTargetBye;
    Build_Match 2 None None None None None None None ].

(** A bye in match 1: the winner goes to match 3, a loser would go to
    match 2. *)
Definition byeBracket : list Match :=
  [ Build_Match 1 (Some "p1") None (Some 3) None (Some 2) None None;
    Build_Match 2 (Some "p2") None None None None None None;
    Build_Match 3 None (Some "p3") None None None None None ].

(** Match 1 is ready (both slots filled) and feeds match 2. *)
Definition readyBracket : list Match :=
  [ Build_Match 1 (Some "p1") (Some "p2") (Some 2) None None None None;
    Build_Match 2 None None None None None None None ].

(** Match 1 has nobody in it. *)
Definition emptyBracket : list Match :=
  [ Build_Match 1 None None (Some 2) None None None None;
    Build_Match 2 None None None None None None None ].

(** The three-match bracket of the scenario: the winner of match 1 goes
    to the red slot of match 3, the winner of match 2 to its white slot,
    and match 3 is a root. *)
Definition scenarioMatches (a b c d : string) : list Match :=
  [ Build_Match 1 (Some a) (Some b) (Some 3) (Some red) None None None;
    Build_Match 2 (Some c) (Some d) (Some 3) (Some white) None None None;
    Build_Match 3 None None None None None None None ].

(** Recording a score through the dialog: open it on the match, type
    the form, confirm. *)
Definition submitWith (now matchId redPoints whitePoints : Z)
    (details : string) (st : AppState) : AppState :=
  next (submitScore now
          (setScoreForm {| form_red := redPoints; form_white := whitePoints;
                           form_details := details |}
             (onScore matchId st))).

(** The ranking list with every entry paired with the player it was
    created for: [addRanking] appends to [rankings] and to
    [processedPlayers] together, so the two run in lockstep, and the final
    sort and slice are carried out on the pairs. *)
Definition rankedWithPlayer (st : AppState) (limit : Z)
    : list (string * Ranking) :=
  match editorData st with
  | None => []
  | Some ed =>
      let acc := collectRankings ed limit in
      JS.slice0
        (JS.sort (fun x y => byRankOrder (snd x) (snd y))
                 (combine (processedPlayers acc) (rankings acc)))
        limit
  end.

(** The entry [r] shows the name of the registered player [pid]. *)
Definition entryOf (ps : list Player) (pid : string) (r : Ranking) : Prop :=
  exists p, findPlayer ps pid = Some p /\ rank_name r = player_name p.

(** The two locals of [getRankings] run in lockstep. *)
Definition lockstep (ps : list Player) (acc : RankAcc) : Prop :=
  NoDup (processedPlayers acc)
  /\ Forall2 (entryOf ps) (processedPlayers acc) (rankings acc).

(** The final (match 2) is a rematch of the semifinal (match 1). *)
Definition rematchBracket : list Match :=
  [ Build_Match 1 (Some "p1") (Some "p2") (Some 2) (Some red) None None
      (Some {| winnerId := "p1"; redScore := 2; whiteScore := 0;
               details := "men" |});
    Build_Match 2 (Some "p1") (Some "p2") None None None None
      (Some {| winnerId := "p1"; redScore := 1; whiteScore := 0;
               details := "kote" |}) ].

(** ** Vocabulary for the depth map *)

(** Depths only go up: every key of [mp] is a key of [mp'] with a depth
    at least as large. *)
Definition grows (mp mp' : gmap Z Z) : Prop :=
  forall k v, mp !! k = Some v -> exists v', mp' !! k = Some v' /\ v <= v'.

(** Below the cap, every match feeding [b] sits strictly deeper than
    [v]. *)
Definition settled (ms : list Match) (mp : gmap Z Z) (b v : Z) : Prop :=
  v < BracketTree.maxDepth ->
  forall a, In a ms -> feeds a b ->
            exists da, mp !! match_id a = Some da /\ v < da.

(** All recorded depths lie between 0 and the cap. *)
Definition bounded (mp : gmap Z Z) : Prop :=
  forall k v, mp !! k = Some v -> 0 <= v <= BracketTree.maxDepth.

(** What one call of [calculateDepth] guarantees about the map it
    returns. *)
Definition callSpec (ms : list Match) (matchId d : Z) (mp mp' : gmap Z Z) : Prop :=
  grows mp mp'
  /\ (d <= BracketTree.maxDepth ->
      (exists v, mp' !! matchId = Some v /\ d <= v) /\ settled ms mp' matchId d)
  /\ (forall b v, mp' !! b = Some v -> mp !! b = Some v \/ settled ms mp' b v)
  /\ (bounded mp -> bounded mp').

(** What the orphan pass keeps true of the matches the root traversal
    had reached ([mp0] is the map after that traversal). *)
Definition orphanInv (ms : list Match) (mp0 mp : gmap Z Z) : Prop :=
  grows mp0 mp /\ bounded mp
  /\ forall b v, is_Some (mp0 !! b) -> mp !! b = Some v -> settled ms mp b v.

(** A single-elimination chain: match [i] feeds match [i + 1], the last
    match is the root. *)
Definition chainMatch (n i : nat) : Match :=
  Build_Match (Z.of_nat i) None None
    (if (i <? n)%nat then Some (Z.of_nat i + 1) else None) None None None None.

Definition chainBracket (n : nat) : list Match := map (chainMatch n) (seq 1 n).

(** Two matches whose winner edges point at each other. *)
Definition cyclicBracket : list Match :=
  [ Build_Match 1 None None (Some 2) None None None None;
    Build_Match 2 None None (Some 1) None None None None ].

(** Match 1 feeds match 2, which the root (match 3) does not reach. *)
Definition sideBracket : list Match :=
  [ Build_Match 1 None None (Some 2) None None None None;
    Build_Match 2 None None None None None None None;
    Build_Match 3 None None None None None None None ].

(** Two semifinals feeding a final. *)
Definition fourPlayerBracket : list Match :=
  [ Build_Match 1 None None (Some 3) (Some red) None None None;
    Build_Match 2 None None (Some 3) (Some white) None None None;
    Build_Match 3 None None None None None None None ].

(** ** Vocabulary for the handlers and the tournament list *)

(** Same id and edges; a result, once there, stays. *)
Definition sameShape (m m' : Match) : Prop :=
  match_id m' = match_id m
  /\ winnerToMatchId m' = winnerToMatchId m
  /\ winnerToSlot m' = winnerToSlot m
  /\ loserToMatchId m' = loserToMatchId m
  /\ loserToSlot m' = loserToSlot m
  /\ (is_Some (result m) -> is_Some (result m')).

Definition decidedWinner (r w : Z) (redP whiteP : string) : string :=
  if r >? w then redP else whiteP.
Definition decidedLoser (r w : Z) (redP whiteP : string) : string :=
  if r >? w then whiteP else redP.

(** The matches [submitScore] persists for a decided score. *)
Definition scoredMatches (ms : list Match) (m : Match) (redP whiteP : string)
    (f : ScoreForm) : list Match :=
  routeTo
    (routeTo
       (setResult ms (match_id m)
          {| winnerId := decidedWinner (form_red f) (form_white f) redP whiteP;
             redScore := form_red f; whiteScore := form_white f;
             details := form_details f |})
       (winnerToMatchId m)
       (decidedWinner (form_red f) (form_white f) redP whiteP)
       (winnerToSlot m) [redP; whiteP])
    (loserToMatchId m)
    (decidedLoser (form_red f) (form_white f) redP whiteP)
    (loserToSlot m) [redP; whiteP].

(** Same tournament apart from the matches' slots and results and the
    time stamp. *)
Definition sameBracket (ed ed' : TournamentData) : Prop :=
  tournament_id ed' = tournament_id ed
  /\ title ed' = title ed
  /\ players ed' = players ed
  /\ totalMatches ed' = totalMatches ed
  /\ status ed' = status ed
  /\ Forall2 sameShape (matches ed) (matches ed').

(** The list [persistTournament] stores: the entry with the same id is
    replaced, a new id is appended. *)
Definition upsert (updated : TournamentData) (ts : list TournamentData)
    : list TournamentData :=
  match JS.findIndex
          (fun t => String.eqb (tournament_id t) (tournament_id updated)) ts with
  | Some i => <[i := updated]> ts
  | None => (ts ++ [updated])%list
  end.

Definition hasId (tid : string) (t : TournamentData) : bool :=
  String.eqb (tournament_id t) tid.

(** [routeTo] and [setResult] one match at a time. *)
Definition targets (toMatchId : option Z) (x : Match) : bool :=
  JS.truthyNum toMatchId && JS.eqNum toMatchId (match_id x).

Definition routeOne (toMatchId : option Z) (playerId : string)
    (toSlot : option Slot) (sp : list string) (x : Match) : Match :=
  if targets toMatchId x then placeInTarget x playerId toSlot sp else x.

Definition setOne (matchId : Z) (r : MatchResult) (x : Match) : Match :=
  if match_id x =? matchId then set_result x (Some r) else x.

(** The counter of one slot. *)
Definition incomingOf (i : Incoming) (slot : Slot) : Z :=
  match slot with
  | red => incoming_red i
  | white => incoming_white i
  end.

(** The order of the match list: unfinished matches first, ascending
    ids within each group. *)
Definition listedBefore (a b : Match) : Prop :=
  (hasResult a = false /\ hasResult b = true)
  \/ (hasResult a = hasResult b /\ match_id a <= match_id b).

(** The (title, rank) pairs [getRankings] can hand out for a given
    bracket and limit. *)
Definition titlesInUse (ms : list Match) (limit : Z) : list (string * Z) :=
  ([(championTitle, 1); (secondTitle, 2); (thirdTitle, 3); (fourthTitle, 4)]
   ++ (if (length (consolationRootsOf ms) =? 0)%nat
       then [(jointThirdTitle, 3)] else [])
   ++ (if limit >? 4 then [(fifthTitle, 5)] else [])
   ++ (if limit >? 8 then [(ninthTitle, 9)] else []))%list.

Definition titled (allowed : list (string * Z)) (acc : RankAcc) : Prop :=
  Forall (fun r => In (rank_title r, rankOrder r) allowed) (rankings acc).

(** No winner edge and no loser edge. *)
Definition unlinked (m : Match) : Prop :=
  winnerToMatchId m = None /\ loserToMatchId m = None.

(** The four-player scenario played to the end through the score
    dialog: p1 beats p2 2:1, p4 beats p3 1:0, p1 beats p4 2:0 in the
    final. *)
Definition finishedScenario : AppState :=
  submitWith 30 3 2 0 "M"
    (submitWith 20 2 0 1 "K"
       (submitWith 10 1 2 1 "MK"
          (demoState (scenarioMatches "p1" "p2" "p3" "p4")))).

Definition finishedMatches : list Match :=
  [ Build_Match 1 (Some "p1") (Some "p2") (Some 3) (Some red) None None
      (Some {| winnerId := "p1"; redScore := 2; whiteScore := 1;
               details := "MK" |});
    Build_Match 2 (Some "p3") (Some "p4") (Some 3) (Some white) None None
      (Some {| winnerId := "p4"; redScore := 0; whiteScore := 1;
               details := "K" |});
    Build_Match 3 (Some "p1") (Some "p4") None None None None
      (Some {| winnerId := "p1"; redScore := 2; whiteScore := 0;
               details := "M" |}) ].

Definition finishedTournament : TournamentData :=
  set_lastUpdated
    (set_matches (demoTournament (scenarioMatches "p1" "p2" "p3" "p4"))
                 finishedMatches)
    30.

(** ** Placement: facts *)

Section Placement.

Variables (playerId : string) (sourceParticipants : list string).

Lemma includes_In (arr : list string) (x : string) :
  JS.includes arr x = true <-> In x arr.
Proof.
  unfold JS.includes. rewrite existsb_exists. split.
  - intros (y & Hy & He). apply String.eqb_eq in He. now subst.
  - intros Hx. exists x. split; [assumption | apply String.eqb_refl].
Qed.

Lemma holdsParticipant_spec (slot : option string) :
  JS.truthyStr slot && JS.includesOpt sourceParticipants slot = true
  <-> holdsParticipant sourceParticipants slot.
Proof.
  unfold holdsParticipant, occupied. rewrite andb_true_iff.
  destruct slot as [p|]; simpl.
  - rewrite includes_In. split.
    + intros [Ht Hi]. split; [assumption | exists p; auto].
    + intros [Ht (q & Hq & Hi)]. injection Hq as ->. auto.
  - split; [intros [? ?]; discriminate | intros [? _]; discriminate].
Qed.

Lemma holdsParticipant_false (slot : option string) :
  JS.truthyStr slot && JS.includesOpt sourceParticipants slot = false
  <-> ~ holdsParticipant sourceParticipants slot.
Proof.
  rewrite <- holdsParticipant_spec. now rewrite not_true_iff_false.
Qed.

Lemma placeInTarget_auto (m : Match) :
  AutoPolicy sourceParticipants playerId m
    (placeInTarget m playerId None sourceParticipants).
Proof.
  unfold placeInTarget.
  destruct (JS.truthyStr (redPlayerId m)
            && JS.includesOpt sourceParticipants (redPlayerId m)) eqn:Hr.
  { apply auto_correct_red. now apply holdsParticipant_spec. }
  apply holdsParticipant_false in Hr.
  destruct (JS.truthyStr (whitePlayerId m)
            && JS.includesOpt sourceParticipants (whitePlayerId m)) eqn:Hw.
  { apply auto_correct_white; [assumption | now apply holdsParticipant_spec]. }
  apply holdsParticipant_false in Hw.
  destruct (JS.truthyStr (redPlayerId m)) eqn:Hred; simpl.
  - destruct (JS.truthyStr (whitePlayerId m)) eqn:Hwhite; simpl.
    + now apply auto_noop.
    + now apply auto_fill_white.
  - now apply auto_fill_red.
Qed.

Lemma placePlayerInMatch_length ms tid slot :
  length (placePlayerInMatch ms tid playerId slot sourceParticipants)
  = length ms.
Proof. unfold placePlayerInMatch. apply length_map. Qed.

Lemma placeInTarget_id m slot :
  match_id (placeInTarget m playerId slot sourceParticipants) = match_id m.
Proof.
  unfold placeInTarget.
  destruct slot as [[|]|]; try reflexivity.
  repeat (match goal with |- context [if ?c then _ else _] => destruct c end);
    reflexivity.
Qed.

Lemma placeInTarget_result m slot :
  result (placeInTarget m playerId slot sourceParticipants) = result m.
Proof.
  unfold placeInTarget.
  destruct slot as [[|]|]; try reflexivity.
  repeat (match goal with |- context [if ?c then _ else _] => destruct c end);
    reflexivity.
Qed.

Lemma placePlayerInMatch_other ms tid slot other :
  other <> tid ->
  matchesWithId (placePlayerInMatch ms tid playerId slot sourceParticipants) other
  = matchesWithId ms other.
Proof.
  intros Hne. unfold matchesWithId, placePlayerInMatch.
  induction ms as [|m ms IH]; simpl; [reflexivity|].
  destruct (match_id m =? tid) eqn:Ht.
  - rewrite placeInTarget_id.
    apply Z.eqb_eq in Ht.
    destruct (match_id m =? other) eqn:Ho.
    + apply Z.eqb_eq in Ho. congruence.
    + exact IH.
  - destruct (match_id m =? other); [f_equal|]; exact IH.
Qed.

End Placement.

(** C2. For every match collection and every placement with an Auto
    target slot, each match carrying the target id is rewritten by the
    policy, in this order: Red is overwritten when it holds a source
    participant; else White when it holds one; else Red is set when
    empty; else White is set when empty; else the match is unchanged.
    Matches with another id are returned as they are. *)
Theorem place_auto_policy :
  forall (ms : list Match) (targetMatchId : Z) (playerId : string)
         (sourceParticipants : list string),
    Forall2 (fun m m' =>
               (match_id m = targetMatchId ->
                AutoPolicy sourceParticipants playerId m m')
               /\ (match_id m <> targetMatchId -> m' = m))
            ms
            (placePlayerInMatch ms targetMatchId playerId None
                                sourceParticipants).
Proof.
  intros ms tid pid sp. unfold placePlayerInMatch.
  induction ms as [|m ms IH]; simpl; constructor; try exact IH.
  destruct (match_id m =? tid) eqn:Ht.
  - apply Z.eqb_eq in Ht. split; [|congruence].
    intros _. apply placeInTarget_auto.
  - apply Z.eqb_neq in Ht. split; [congruence | reflexivity].
Qed.

(** C8. Placement with an explicit Red or White target slot always
    overwrites that slot of the target match: every input match with
    the target id comes out with the player in that slot and everything
    else as it was, every other match comes out unchanged; and applying
    the placement twice in succession gives the same collection as
    applying it once. *)
Theorem place_explicit_idempotent :
  forall (ms : list Match) (targetMatchId : Z) (playerId : string)
         (slot : Slot) (sourceParticipants : list string),
    let once := placePlayerInMatch ms targetMatchId playerId (Some slot)
                                   sourceParticipants in
    placePlayerInMatch once targetMatchId playerId (Some slot)
                       sourceParticipants = once
    /\ Forall2 (fun m m' =>
                  (match_id m = targetMatchId ->
                   slotOf slot m' = Some playerId
                   /\ match slot with
                      | red => whitePlayerId m' = whitePlayerId m
                      | white => redPlayerId m' = redPlayerId m
                      end
                   /\ match_id m' = match_id m
                   /\ result m' = result m
                   /\ winnerToMatchId m' = winnerToMatchId m
                   /\ winnerToSlot m' = winnerToSlot m
                   /\ loserToMatchId m' = loserToMatchId m
                   /\ loserToSlot m' = loserToSlot m)
                  /\ (match_id m <> targetMatchId -> m' = m))
               ms once
    /\ Forall (fun m' => slotOf slot m' = Some playerId)
              (matchesWithId once targetMatchId).
Proof.
  intros ms tid pid slot sp once. subst once. unfold placePlayerInMatch.
  split; [|split].
  - rewrite map_map. apply map_ext. intros m.
    destruct (match_id m =? tid) eqn:Ht; cbv beta iota.
    + rewrite placeInTarget_id, Ht. destruct slot; reflexivity.
    + now rewrite Ht.
  - induction ms as [|m ms IH]; cbn [map]; constructor; [|exact IH].
    destruct (match_id m =? tid) eqn:Ht.
    + split; [|apply Z.eqb_eq in Ht; congruence].
      intros _. destruct slot; cbn; repeat split.
    + apply Z.eqb_neq in Ht. split; [congruence | reflexivity].
  - unfold matchesWithId.
    induction ms as [|m ms IH]; [constructor|].
    cbn [map List.filter].
    destruct (match_id m =? tid) eqn:Ht.
    + rewrite placeInTarget_id, Ht. constructor; [|exact IH].
      destruct slot; reflexivity.
    + rewrite Ht. exact IH.
Qed.

(** ** Result submission and walkover: facts *)

Lemma findMatch_id ms matchId m :
  findMatch ms matchId = Some m -> match_id m = matchId.
Proof.
  unfold findMatch. intros H. apply find_some in H as [_ H].
  now apply Z.eqb_eq.
Qed.

Lemma setResult_other ms matchId r other :
  other <> matchId ->
  matchesWithId (setResult ms matchId r) other = matchesWithId ms other.
Proof.
  intros Hne. unfold matchesWithId, setResult.
  induction ms as [|m ms IH]; [reflexivity|]. cbn [map List.filter].
  destruct (match_id m =? matchId) eqn:Ht.
  - apply Z.eqb_eq in Ht. cbn [set_result match_id].
    destruct (match_id m =? other) eqn:Ho.
    + apply Z.eqb_eq in Ho. congruence.
    + exact IH.
  - destruct (match_id m =? other); [f_equal|]; exact IH.
Qed.

Lemma setResult_at ms matchId r :
  Forall (fun m' => result m' = Some r)
         (matchesWithId (setResult ms matchId r) matchId).
Proof.
  unfold matchesWithId, setResult.
  induction ms as [|m ms IH]; [constructor|]. cbn [map List.filter].
  destruct (match_id m =? matchId) eqn:Ht.
  - cbn [set_result match_id]. rewrite Ht. constructor; [reflexivity | exact IH].
  - rewrite Ht. exact IH.
Qed.

Lemma routeTo_other ms toMatchId playerId toSlot sp other :
  toMatchId <> Some other ->
  matchesWithId (routeTo ms toMatchId playerId toSlot sp) other
  = matchesWithId ms other.
Proof.
  intros Hne. unfold routeTo.
  destruct (JS.truthyNum toMatchId); [|reflexivity].
  destruct toMatchId as [t|]; [|reflexivity].
  apply placePlayerInMatch_other. congruence.
Qed.

Lemma routeTo_result ms toMatchId playerId toSlot sp :
  map result (routeTo ms toMatchId playerId toSlot sp) = map result ms.
Proof.
  unfold routeTo.
  destruct (JS.truthyNum toMatchId); [|reflexivity].
  destruct toMatchId as [t|]; [|reflexivity].
  unfold placePlayerInMatch. rewrite map_map. apply map_ext. intros m.
  destruct (match_id m =? t); [apply placeInTarget_result | reflexivity].
Qed.

Lemma routeTo_ids ms toMatchId playerId toSlot sp :
  map match_id (routeTo ms toMatchId playerId toSlot sp) = map match_id ms.
Proof.
  unfold routeTo.
  destruct (JS.truthyNum toMatchId); [|reflexivity].
  destruct toMatchId as [t|]; [|reflexivity].
  unfold placePlayerInMatch. rewrite map_map. apply map_ext. intros m.
  destruct (match_id m =? t); [apply placeInTarget_id | reflexivity].
Qed.

(** Routing leaves ids and results alone, so the matches with a given
    id keep the results they had. *)
Lemma routeTo_keeps_results ms toMatchId playerId toSlot sp matchId r :
  Forall (fun m' => result m' = Some r) (matchesWithId ms matchId) ->
  Forall (fun m' => result m' = Some r)
         (matchesWithId (routeTo ms toMatchId playerId toSlot sp) matchId).
Proof.
  unfold routeTo.
  destruct (JS.truthyNum toMatchId); [|auto].
  destruct toMatchId as [t|]; [|auto].
  unfold matchesWithId, placePlayerInMatch.
  induction ms as [|m ms IH]; [constructor|]. cbn [map List.filter].
  intros H.
  destruct (match_id m =? t) eqn:Ht.
  - rewrite placeInTarget_id.
    destruct (match_id m =? matchId) eqn:Hm.
    + inversion H; subst. constructor; [|auto].
      now rewrite placeInTarget_result.
    + auto.
  - destruct (match_id m =? matchId) eqn:Hm.
    + inversion H; subst. constructor; auto.
    + auto.
Qed.

(** C3. When the active match has both slots occupied and the two
    scores of the form are equal, [submitScore] only shows the
    "a winner is required" alert: the whole state, and so every match,
    is what it was. *)
Theorem submitScore_tied_rejected :
  forall (now : Z) (st : AppState) (ed : TournamentData) (active : Z)
         (m : Match),
    editorData st = Some ed ->
    activeMatchId st = Some active ->
    findMatch (matches ed) active = Some m ->
    occupied (redPlayerId m) ->
    occupied (whitePlayerId m) ->
    form_red (scoreForm st) = form_white (scoreForm st) ->
    submitScore now st = {| next := st; alerts := [tiedAlert] |}.
Proof.
  intros now st ed active m Hed Hact Hfind Hr Hw Heq.
  unfold submitScore. rewrite Hact, Hed, Hfind.
  unfold occupied in Hr, Hw. rewrite Hr, Hw. cbn [negb orb].
  destruct (redPlayerId m) as [redP|]; [|discriminate].
  destruct (whitePlayerId m) as [whiteP|]; [|discriminate].
  rewrite Heq.
  assert (Hgt : (form_white (scoreForm st) >? form_white (scoreForm st)) = false)
    by (rewrite Z.gtb_ltb; apply Z.ltb_irrefl).
  now rewrite Hgt.
Qed.

Lemma submitScore_tied_rejected_witness :
  submitScore 7 (setScoreForm {| form_red := 2; form_white := 2;
                                 form_details := "men" |}
                   (onScore 1 (demoState readyBracket)))
  = {| next := setScoreForm {| form_red := 2; form_white := 2;
                               form_details := "men" |}
                 (onScore 1 (demoState readyBracket));
       alerts := [tiedAlert] |}.
Proof.
  apply (submitScore_tied_rejected 7 _ (demoTournament readyBracket) 1
           (Build_Match 1 (Some "p1") (Some "p2") (Some 2) None None None None));
    reflexivity.
Defined.

(** C5. A confirmed walkover on an existing match with no occupied
    slot only shows the "player not in place" alert: the state is
    unchanged, no result is written and nobody is placed. *)
Theorem walkover_no_player_rejected :
  forall (now : Z) (st : AppState) (ed : TournamentData) (matchId : Z)
         (m : Match),
    editorData st = Some ed ->
    findMatch (matches ed) matchId = Some m ->
    vacant (redPlayerId m) ->
    vacant (whitePlayerId m) ->
    handleWalkover true now matchId st
    = {| next := st; alerts := [walkoverAlert] |}.
Proof.
  intros now st ed matchId m Hed Hfind Hr Hw.
  unfold handleWalkover. rewrite Hed, Hfind. cbn [negb].
  unfold vacant in Hr, Hw. rewrite Hr, Hw. reflexivity.
Qed.

Lemma walkover_no_player_rejected_witness :
  handleWalkover true 7 1 (demoState emptyBracket)
  = {| next := demoState emptyBracket; alerts := [walkoverAlert] |}.
Proof.
  apply (walkover_no_player_rejected 7 _ (demoTournament emptyBracket) 1
           (Build_Match 1 None None (Some 2) None None None None));
    reflexivity.
Defined.

(** What [handleWalkover] computes once a winner is known. *)
Lemma handleWalkover_advances now st ed matchId m winner :
  editorData st = Some ed ->
  findMatch (matches ed) matchId = Some m ->
  (if JS.truthyStr (redPlayerId m) then redPlayerId m else whitePlayerId m)
  = Some winner ->
  winner <> "" ->
  handleWalkover true now matchId st
  = {| next := persistTournament now
                 (set_matches ed
                    (routeTo (setResult (matches ed) matchId
                                        (walkoverResult winner))
                             (winnerToMatchId m) winner (winnerToSlot m)
                             (JS.filterBoolean [redPlayerId m; whitePlayerId m])))
                 st;
       alerts := [] |}.
Proof.
  intros Hed Hfind Hwin Hne.
  unfold handleWalkover. rewrite Hed, Hfind. cbn [negb].
  rewrite Hwin.
  assert (Ht : JS.truthyStr (Some winner) = true).
  { unfold JS.truthyStr. apply String.eqb_neq in Hne. now rewrite Hne. }
  rewrite Ht. reflexivity.
Qed.

Lemma truthyStr_Some (s : string) :
  JS.truthyStr (Some s) = true <-> s <> "".
Proof.
  unfold JS.truthyStr. rewrite negb_true_iff. apply String.eqb_neq.
Qed.

(** C4, as stated, fails when the winner edge and the loser edge lead
    to the same match: the bye in match 1 of [sharedTargetBracket] meets
    the walkover precondition and has a loser edge to match 2, yet the
    walkover changes match 2 (the winner lands in its red slot). *)
Lemma walkover_loser_target_changed :
  findMatch sharedTargetBracket 1 = Some sharedTargetBye
  /\ result sharedTargetBye = None
  /\ occupied (redPlayerId sharedTargetBye)
  /\ vacant (whitePlayerId sharedTargetBye)
  /\ loserToMatchId sharedTargetBye = Some 2
  /\ exists ed',
       editorData (next (handleWalkover true 7 1
                           (demoState sharedTargetBracket))) = Some ed'
       /\ matchesWithId (matches ed') 2
          = [Build_Match 2 (Some "p1") None None None None None None]
       /\ matchesWithId sharedTargetBracket 2
          = [Build_Match 2 None None None None None None None]
       /\ matchesWithId (matches ed') 2 <> matchesWithId sharedTargetBracket 2.
Proof.
  repeat split.
  eexists. repeat split.
  discriminate.
Qed.

(** C4 (amended). On a match that meets the walkover precondition
    (unfinished, exactly one slot occupied) and has a configured loser
    edge, a confirmed walkover records the result and routes the sole
    occupant along the winner edge only; the loser-edge target match is
    unchanged whenever it is neither the walked-over match itself nor
    the target of the winner edge. *)
Theorem walkover_skips_loser_routing :
  forall (now : Z) (st : AppState) (ed : TournamentData) (matchId : Z)
         (m : Match) (target : Z),
    editorData st = Some ed ->
    findMatch (matches ed) matchId = Some m ->
    result m = None ->
    (occupied (redPlayerId m) /\ vacant (whitePlayerId m)
     \/ vacant (redPlayerId m) /\ occupied (whitePlayerId m)) ->
    loserToMatchId m = Some target ->
    target <> 0 ->
    target <> matchId ->
    winnerToMatchId m <> Some target ->
    exists (winner : string) (ed' : TournamentData),
      (redPlayerId m = Some winner \/ whitePlayerId m = Some winner)
      /\ editorData (next (handleWalkover true now matchId st)) = Some ed'
      /\ matches ed'
         = routeTo (setResult (matches ed) matchId (walkoverResult winner))
                   (winnerToMatchId m) winner (winnerToSlot m) [winner]
      /\ matchesWithId (matches ed') target
         = matchesWithId (matches ed) target.
Proof.
  intros now st ed matchId m target Hed Hfind _ Hbye _ _ Hself Hwin.
  assert (Hw : exists winner,
             (redPlayerId m = Some winner \/ whitePlayerId m = Some winner)
             /\ (if JS.truthyStr (redPlayerId m) then redPlayerId m
                 else whitePlayerId m) = Some winner
             /\ winner <> ""
             /\ JS.filterBoolean [redPlayerId m; whitePlayerId m] = [winner]).
  { unfold occupied, vacant in Hbye. unfold JS.filterBoolean. cbn [flat_map].
    destruct Hbye as [[Hr Hv] | [Hv Hw]].
    - rewrite Hr, Hv. destruct (redPlayerId m) as [w|] eqn:Er; [|discriminate].
      exists w. repeat split; auto. now apply truthyStr_Some.
    - rewrite Hv, Hw. destruct (whitePlayerId m) as [w|] eqn:Ew; [|discriminate].
      exists w. repeat split; auto. now apply truthyStr_Some. }
  destruct Hw as (winner & Hslot & Hsel & Hne & Hsp).
  exists winner.
  rewrite (handleWalkover_advances now st ed matchId m winner Hed Hfind Hsel Hne).
  rewrite Hsp. cbn [next persistTournament editorData].
  eexists. split; [exact Hslot|]. split; [reflexivity|].
  cbn [set_lastUpdated set_matches matches]. split; [reflexivity|].
  rewrite routeTo_other by exact Hwin.
  now apply setResult_other.
Qed.

Lemma walkover_skips_loser_routing_witness :
  exists (winner : string) (ed' : TournamentData),
    (Some "p1" = Some winner \/ None = Some winner)
    /\ editorData (next (handleWalkover true 7 1 (demoState byeBracket)))
       = Some ed'
    /\ matches ed'
       = routeTo (setResult byeBracket 1 (walkoverResult winner))
                 (Some 3) winner None [winner]
    /\ matchesWithId (matches ed') 2 = matchesWithId byeBracket 2.
Proof.
  apply (walkover_skips_loser_routing 7 (demoState byeBracket)
           (demoTournament byeBracket) 1
           (Build_Match 1 (Some "p1") None (Some 3) None (Some 2) None None) 2);
    try reflexivity; try discriminate.
  left. split; reflexivity.
Defined.

(** What a decided score leaves in [editorData]: the result is recorded
    on the match, the winner is routed along the winner edge and then
    the loser along the loser edge. *)
Lemma submitWith_decided now matchId r w det st ed m redP whiteP :
  editorData st = Some ed ->
  findMatch (matches ed) matchId = Some m ->
  redPlayerId m = Some redP -> redP <> "" ->
  whitePlayerId m = Some whiteP -> whiteP <> "" ->
  r <> w ->
  let winner := if r >? w then redP else whiteP in
  let loser := if r >? w then whiteP else redP in
  let recorded := {| winnerId := winner; redScore := r; whiteScore := w;
                     details := det |} in
  submitWith now matchId r w det st
  = clearActive
      (persistTournament now
         (set_matches ed
            (routeTo
               (routeTo (setResult (matches ed) matchId recorded)
                        (winnerToMatchId m) winner (winnerToSlot m)
                        [redP; whiteP])
               (loserToMatchId m) loser (loserToSlot m) [redP; whiteP]))
         (setScoreForm {| form_red := r; form_white := w;
                          form_details := det |} (onScore matchId st))).
Proof.
  intros Hed Hfind Hr Hrne Hw Hwne Hrw. cbv zeta.
  unfold submitWith, submitScore.
  cbn [setScoreForm onScore activeMatchId editorData scoreForm].
  rewrite Hed, Hfind, Hr, Hw.
  apply truthyStr_Some in Hrne, Hwne. rewrite Hrne, Hwne.
  cbn [negb orb form_red form_white form_details].
  destruct (r >? w) eqn:Hgt; [reflexivity|].
  assert (Hlt : (w >? r) = true) by lia.
  rewrite Hlt. reflexivity.
Qed.

(** ** Ranking derivation: the scenario *)

Lemma addRanking_new ps pid title order acc p :
  pid <> "" ->
  JS.includes (processedPlayers acc) pid = false ->
  findPlayer ps pid = Some p ->
  addRanking ps (Some pid) title order acc
  = {| rankings := (rankings acc ++
          [{| rank_title := title; rank_name := player_name p;
              rankOrder := order |}])%list;
       processedPlayers := (processedPlayers acc ++ [pid])%list |}.
Proof.
  intros Hne Hinc Hf. unfold addRanking.
  apply truthyStr_Some in Hne. rewrite Hne, Hinc, Hf. reflexivity.
Qed.

Lemma submitWith_editorData now matchId r w det st ed m redP whiteP :
  editorData st = Some ed ->
  findMatch (matches ed) matchId = Some m ->
  redPlayerId m = Some redP -> redP <> "" ->
  whitePlayerId m = Some whiteP -> whiteP <> "" ->
  r <> w ->
  let winner := if r >? w then redP else whiteP in
  let loser := if r >? w then whiteP else redP in
  let recorded := {| winnerId := winner; redScore := r; whiteScore := w;
                     details := det |} in
  editorData (submitWith now matchId r w det st)
  = Some (set_lastUpdated
            (set_matches ed
               (routeTo
                  (routeTo (setResult (matches ed) matchId recorded)
                           (winnerToMatchId m) winner (winnerToSlot m)
                           [redP; whiteP])
                  (loserToMatchId m) loser (loserToSlot m) [redP; whiteP]))
            now)
  /\ activeMatchId (submitWith now matchId r w det st) = None.
Proof.
  intros Hed Hfind Hr Hrne Hw Hwne Hrw. cbv zeta.
  rewrite (submitWith_decided now matchId r w det st ed m redP whiteP)
    by assumption.
  split; reflexivity.
Qed.

Ltac str_eqb :=
  repeat match goal with
         | |- context [String.eqb ?x ?x] => rewrite (String.eqb_refl x)
         | H : ?x <> ?y |- context [String.eqb ?x ?y] =>
             rewrite (proj2 (String.eqb_neq x y) H)
         | H : ?y <> ?x |- context [String.eqb ?x ?y] =>
             rewrite (proj2 (String.eqb_neq x y) (not_eq_sym H))
         end.

(** C1. In the three-match bracket (winner of match 1 to the red slot
    of match 3, winner of match 2 to its white slot, match 3 a root) with
    four distinct registered players, submitting match 1 with 3:1 and
    match 2 with 0:2 puts match 1's red player in match 3's red slot and
    match 2's white player in its white slot; after match 3 is submitted
    with 2:1, the rankings with limit 4 are exactly: Champion = match 3's
    red player, 2nd place = match 3's white player, joint 3rd = match 1's
    white player, joint 3rd = match 2's red player, in that order. *)
Theorem scenario_three_matches :
  forall (t0 : TournamentData) (ts : list TournamentData)
         (a b c d : string) (pa pb pc pd : Player)
         (now1 now2 now3 : Z) (det1 det2 det3 : string),
    matches t0 = scenarioMatches a b c d ->
    NoDup [a; b; c; d] ->
    a <> "" -> b <> "" -> c <> "" -> d <> "" ->
    findPlayer (players t0) a = Some pa ->
    findPlayer (players t0) b = Some pb ->
    findPlayer (players t0) c = Some pc ->
    findPlayer (players t0) d = Some pd ->
    let st0 := {| tournaments := ts; editorData := Some t0;
                  activeMatchId := None; scoreForm := blankForm |} in
    let st2 := submitWith now2 2 0 2 det2 (submitWith now1 1 3 1 det1 st0) in
    let st3 := submitWith now3 3 2 1 det3 st2 in
    (exists t2, editorData st2 = Some t2
                /\ exists m3, matchesWithId (matches t2) 3 = [m3]
                   /\ redPlayerId m3 = Some a /\ whitePlayerId m3 = Some d)
    /\ getRankings st3 4
       = [ {| rank_title := "冠軍 (Champion)"; rank_name := player_name pa;
              rankOrder := 1 |};
           {| rank_title := "亞軍 (2nd Place)"; rank_name := player_name pd;
              rankOrder := 2 |};
           {| rank_title := "季軍 (3rd Place - Joint)";
              rank_name := player_name pb; rankOrder := 3 |};
           {| rank_title := "季軍 (3rd Place - Joint)";
              rank_name := player_name pc; rankOrder := 3 |} ].
Proof.
  intros t0 ts a b c d pa pb pc pd now1 now2 now3 det1 det2 det3
         Hms Hnd Ha Hb Hc Hd Hpa Hpb Hpc Hpd st0 st2 st3.
  assert (Hdist : a <> b /\ a <> c /\ a <> d /\ b <> c /\ b <> d /\ c <> d).
  { rewrite !NoDup_cons, !not_elem_of_cons in Hnd. intuition congruence. }
  destruct Hdist as (Hab & Hac & Had & Hbc & Hbd & Hcd).
  (* first score *)
  set (st1 := submitWith now1 1 3 1 det1 st0) in *.
  destruct (submitWith_editorData now1 1 3 1 det1 st0 t0
              (Build_Match 1 (Some a) (Some b) (Some 3) (Some red) None None None)
              a b eq_refl) as [E1 _];
    [rewrite Hms; reflexivity | reflexivity | exact Ha | reflexivity
     | exact Hb | lia |].
  rewrite Hms in E1. cbn in E1.
  (* second score *)
  destruct (submitWith_editorData now2 2 0 2 det2 st1 _
              (Build_Match 2 (Some c) (Some d) (Some 3) (Some white) None None None)
              c d E1) as [E2 _];
    [reflexivity | reflexivity | exact Hc | reflexivity | exact Hd | lia |].
  fold st2 in E2. cbn in E2.
  split.
  { eexists. split; [exact E2|]. eexists. split; [reflexivity|]. split; reflexivity. }
  (* third score *)
  destruct (submitWith_editorData now3 3 2 1 det3 st2 _
              (Build_Match 3 (Some a) (Some d) None None None None None)
              a d E2) as [E3 _];
    [reflexivity | reflexivity | exact Ha | reflexivity | exact Hd | lia |].
  fold st3 in E3. cbn in E3.
  unfold getRankings. rewrite E3.
  match goal with
  | |- context [collectRankings ?ed _] => set (ed3 := ed)
  end.
  unfold collectRankings.
  set (ms3 := matches ed3).
  set (m1' := set_result (Build_Match 1 (Some a) (Some b) (Some 3) (Some red) None None None)
                (Some {| winnerId := a; redScore := 3; whiteScore := 1; details := det1 |})).
  set (m2' := set_result (Build_Match 2 (Some c) (Some d) (Some 3) (Some white) None None None)
                (Some {| winnerId := d; redScore := 0; whiteScore := 2; details := det2 |})).
  set (m3' := Build_Match 3 (Some a) (Some d) None None None None
                (Some {| winnerId := a; redScore := 2; whiteScore := 1; details := det3 |})).
  assert (Hmain : mainRootsOf ms3 = [m3']) by reflexivity.
  assert (Hcons : consolationRootsOf ms3 = []) by reflexivity.
  assert (Hsemi : getLosersOfFeeders ms3 (map match_id [m3']) = [m1'; m2']) by reflexivity.
  assert (Hps : players ed3 = players t0) by reflexivity.
  rewrite Hmain, Hcons, Hsemi, Hps.
  cbn [fold_left length Nat.eqb]. 
  replace (4 >? 4) with false by reflexivity.
  unfold rankLoser, rankRoot. cbn [result m1' m2' m3' set_result].
  unfold otherOccupant.
  cbn [winnerId redPlayerId whitePlayerId m1' m2' m3' set_result JS.eqStr].
  str_eqb.
  rewrite (addRanking_new _ a _ _ _ pa Ha) by (try exact Hpa; reflexivity).
  cbn [rankings processedPlayers app].
  rewrite (addRanking_new _ d _ _ _ pd Hd) by (try exact Hpd; cbn; now str_eqb).
  cbn [rankings processedPlayers app].
  rewrite (addRanking_new _ b _ _ _ pb Hb) by (try exact Hpb; cbn; now str_eqb).
  cbn [rankings processedPlayers app].
  rewrite (addRanking_new _ c _ _ _ pc Hc) by (try exact Hpc; cbn; now str_eqb).
  reflexivity.
Qed.

Lemma scenario_three_matches_witness :
  getRankings
    (submitWith 30 3 2 1 "men"
       (submitWith 20 2 0 2 "kote"
          (submitWith 10 1 3 1 "men, do"
             (demoState (scenarioMatches "p1" "p2" "p3" "p4"))))) 4
  = [ {| rank_title := "冠軍 (Champion)"; rank_name := "Sato"; rankOrder := 1 |};
      {| rank_title := "亞軍 (2nd Place)"; rank_name := "Tanaka"; rankOrder := 2 |};
      {| rank_title := "季軍 (3rd Place - Joint)"; rank_name := "Suzuki";
         rankOrder := 3 |};
      {| rank_title := "季軍 (3rd Place - Joint)"; rank_name := "Takahashi";
         rankOrder := 3 |} ].
Proof.
  apply (scenario_three_matches
           (demoTournament (scenarioMatches "p1" "p2" "p3" "p4"))
           [demoTournament (scenarioMatches "p1" "p2" "p3" "p4")]
           "p1" "p2" "p3" "p4"
           {| player_id := "p1"; player_name := "Sato" |}
           {| player_id := "p2"; player_name := "Suzuki" |}
           {| player_id := "p3"; player_name := "Takahashi" |}
           {| player_id := "p4"; player_name := "Tanaka" |}
           10 20 30 "men, do" "kote" "men");
    try reflexivity; try discriminate.
  compute_done.
Defined.

(** ** Ranking derivation: no player is listed twice *)

Section Sorting.
Context {A : Type} (cmp : A -> A -> Z).


Lemma insertBy_perm x l : JS.insertBy cmp x l ≡ₚ x :: l.
Proof.
  induction l as [|y l IH]; cbn [JS.insertBy]; [reflexivity|].
  destruct (cmp x y <=? 0); [reflexivity|].
  rewrite IH. apply perm_swap.
Qed.

Lemma sort_perm l : JS.sort cmp l ≡ₚ l.
Proof.
  unfold JS.sort. induction l as [|x l IH]; cbn [fold_right]; [reflexivity|].
  rewrite insertBy_perm. now rewrite IH.
Qed.

Lemma slice0_sublist (l : list A) n : JS.slice0 l n `sublist_of` l.
Proof. unfold JS.slice0. destruct (n <? 0); apply sublist_take. Qed.

Lemma slice0_Forall (P : A -> Prop) (l : list A) n :
  Forall P l -> Forall P (JS.slice0 l n).
Proof. unfold JS.slice0. destruct (n <? 0); apply Forall_take. Qed.

End Sorting.

Lemma insertBy_map {A B} (f : A -> B) (cmp : B -> B -> Z) x l :
  map f (JS.insertBy (fun a b => cmp (f a) (f b)) x l)
  = JS.insertBy cmp (f x) (map f l).
Proof.
  induction l as [|y l IH]; cbn [JS.insertBy map]; [reflexivity|].
  destruct (cmp (f x) (f y) <=? 0); cbn [map]; [reflexivity|].
  now rewrite IH.
Qed.

Lemma sort_map {A B} (f : A -> B) (cmp : B -> B -> Z) l :
  map f (JS.sort (fun a b => cmp (f a) (f b)) l) = JS.sort cmp (map f l).
Proof.
  unfold JS.sort. induction l as [|x l IH]; cbn [fold_right map]; [reflexivity|].
  now rewrite insertBy_map, IH.
Qed.

Lemma slice0_map {A B} (f : A -> B) l n :
  map f (JS.slice0 l n) = JS.slice0 (map f l) n.
Proof.
  unfold JS.slice0. rewrite length_map.
  destruct (n <? 0); symmetry; apply firstn_map.
Qed.

Lemma includes_elem_of arr x : JS.includes arr x = true <-> x ∈ arr.
Proof. rewrite includes_In. symmetry. apply list_elem_of_In. Qed.

Lemma addRanking_seen ps pid title order acc :
  pid ∈ processedPlayers acc ->
  addRanking ps (Some pid) title order acc = acc.
Proof.
  intros Hin. unfold addRanking.
  destruct (JS.truthyStr (Some pid)); [|reflexivity]. cbn [negb].
  apply includes_elem_of in Hin. now rewrite Hin.
Qed.

Lemma addRanking_lockstep ps pid title order acc :
  lockstep ps acc -> lockstep ps (addRanking ps pid title order acc).
Proof.
  intros [Hnd Hf]. unfold addRanking.
  destruct (JS.truthyStr pid); [|now split]. cbn [negb].
  destruct pid as [pid|]; [|now split].
  destruct (JS.includes (processedPlayers acc) pid) eqn:Hinc; [now split|].
  cbn [negb].
  destruct (findPlayer ps pid) as [p|] eqn:Hp; [|now split].
  split; cbn [processedPlayers rankings].
  - apply NoDup_app. split; [assumption|]. split; [|apply NoDup_singleton].
    intros x Hx Hx'. apply list_elem_of_singleton in Hx'. subst x.
    apply includes_elem_of in Hx. congruence.
  - apply Forall2_app; [assumption|]. constructor; [|constructor].
    exists p. split; [assumption | reflexivity].
Qed.

Lemma rankRoot_lockstep ps t1 o1 t2 o2 acc root :
  lockstep ps acc -> lockstep ps (rankRoot ps t1 o1 t2 o2 acc root).
Proof.
  intros H. unfold rankRoot. destruct (result root); [|assumption].
  now apply addRanking_lockstep, addRanking_lockstep.
Qed.

Lemma rankLoser_lockstep ps t o acc m :
  lockstep ps acc -> lockstep ps (rankLoser ps t o acc m).
Proof.
  intros H. unfold rankLoser. destruct (result m); [|assumption].
  now apply addRanking_lockstep.
Qed.

Lemma fold_left_invariant {S X} (P : S -> Prop) (f : S -> X -> S) l s :
  (forall s x, P s -> P (f s x)) -> P s -> P (fold_left f l s).
Proof.
  intros Hstep. revert s. induction l as [|x l IH]; intros s Hs; cbn; auto.
Qed.

Lemma collectRankings_lockstep ed limit :
  lockstep (players ed) (collectRankings ed limit).
Proof.
  unfold collectRankings. cbv zeta.
  assert (H0 : lockstep (players ed) {| rankings := []; processedPlayers := [] |}).
  { split; cbn; constructor. }
  repeat match goal with
         | |- lockstep _ (if ?c then _ else _) => destruct c
         | |- lockstep _ (fold_left _ _ _) =>
             apply fold_left_invariant;
             [intros; first [now apply rankRoot_lockstep
                            | now apply rankLoser_lockstep] |]
         end; exact H0.
Qed.

(** C6. For every state and every limit the list returned by
    [getRankings] holds each player at most once: it is the entry
    column of [rankedWithPlayer], whose player column has no duplicate
    and whose entries show the name of the player they are paired with;
    and once a player is in [processedPlayers], a later [addRanking] for
    that player, whatever the title, changes nothing. *)
Theorem rankings_each_player_once :
  forall (st : AppState) (limit : Z),
    map snd (rankedWithPlayer st limit) = getRankings st limit
    /\ NoDup (map fst (rankedWithPlayer st limit))
    /\ Forall (fun '(pid, r) =>
                 exists ed, editorData st = Some ed
                            /\ entryOf (players ed) pid r)
              (rankedWithPlayer st limit)
    /\ (forall ps pid title order acc,
           pid ∈ processedPlayers acc ->
           addRanking ps (Some pid) title order acc = acc).
Proof.
  intros st limit. unfold rankedWithPlayer, getRankings.
  destruct (editorData st) as [ed|];
    [|repeat split; try constructor; apply addRanking_seen].
  cbv zeta.
  destruct (collectRankings_lockstep ed limit) as [Hnd Hf].
  set (acc := collectRankings ed limit) in *.
  assert (Hlen : length (processedPlayers acc) = length (rankings acc))
    by (eapply Forall2_length; eassumption).
  split; [|split; [|split]].
  - rewrite slice0_map, (sort_map snd byRankOrder).
    do 2 f_equal. apply snd_zip. lia.
  - rewrite slice0_map.
    eapply sublist_NoDup; [|apply slice0_sublist].
    rewrite sort_perm.
    replace (map fst (combine (processedPlayers acc) (rankings acc)))
      with (processedPlayers acc) by (symmetry; apply fst_zip; lia).
    exact Hnd.
  - apply slice0_Forall. rewrite sort_perm.
    clear Hlen Hnd. induction Hf as [|pid r P R Hpr _ IH]; constructor; [|exact IH].
    exists ed. split; [reflexivity | exact Hpr].
  - apply addRanking_seen.
Qed.

(** A rematch: the runner-up of the final also lost the semifinal that
    feeds it, and is listed once, at the higher title. *)
Example rematch_ranked_once :
  getRankings (demoState rematchBracket) 4
  = [ {| rank_title := championTitle; rank_name := "Sato"; rankOrder := 1 |};
      {| rank_title := secondTitle; rank_name := "Suzuki"; rankOrder := 2 |} ].
Proof. reflexivity. Qed.

Lemma rankings_each_player_once_witness :
  NoDup (map fst (rankedWithPlayer (demoState rematchBracket) 4))
  /\ addRanking demoPlayers (Some "p2") jointThirdTitle 3
       (collectRankings (demoTournament rematchBracket) 4)
     = collectRankings (demoTournament rematchBracket) 4.
Proof.
  destruct (rankings_each_player_once (demoState rematchBracket) 4)
    as (_ & Hnd & _ & Hseen).
  split; [exact Hnd|].
  apply Hseen. compute_done.
Defined.

(** ** Round layout: depth invariants *)

Import BracketTree.

Lemma eqNum_Some o n : JS.eqNum o n = true <-> o = Some n.
Proof.
  destruct o as [k|]; cbn; [|split; discriminate].
  rewrite Z.eqb_eq. split; congruence.
Qed.

Lemma feedersOf_In ms b a : In a (feedersOf ms b) <-> In a ms /\ feeds a b.
Proof.
  unfold feedersOf, feeds. rewrite filter_In, orb_true_iff, !eqNum_Some.
  reflexivity.
Qed.

Lemma grows_refl mp : grows mp mp.
Proof. intros k v H. exists v. split; [assumption | lia]. Qed.

Lemma grows_trans mp1 mp2 mp3 : grows mp1 mp2 -> grows mp2 mp3 -> grows mp1 mp3.
Proof.
  intros H12 H23 k v H. destruct (H12 k v H) as (v2 & H2 & Hle).
  destruct (H23 k v2 H2) as (v3 & H3 & Hle'). exists v3. split; [assumption | lia].
Qed.

Lemma settled_grows ms mp mp' b v :
  grows mp mp' -> settled ms mp b v -> settled ms mp' b v.
Proof.
  intros Hg Hs Hv a Ha Hf. destruct (Hs Hv a Ha Hf) as (da & Hda & Hlt).
  destruct (Hg _ _ Hda) as (da' & Hda' & Hle). exists da'. split; [assumption | lia].
Qed.

Lemma recordDepth_grows matchId d mp : 0 <= d -> grows mp (recordDepth matchId d mp).
Proof.
  intros Hd k v Hk. unfold recordDepth, existingDepth.
  destruct (decide (k = matchId)) as [->|Hne].
  - rewrite Hk. destruct (v =? 0) eqn:Hv0.
    + apply Z.eqb_eq in Hv0. subst v.
      replace (d >? -1) with true by lia.
      exists d. rewrite lookup_insert_eq. split; [reflexivity | lia].
    + destruct (d >? v) eqn:Hgt.
      * exists d. rewrite lookup_insert_eq. split; [reflexivity | lia].
      * exists v. split; [assumption | lia].
  - destruct (d >? _).
    + exists v. rewrite lookup_insert_ne by congruence. split; [assumption | lia].
    + exists v. split; [assumption | lia].
Qed.

Lemma recordDepth_at matchId d mp :
  0 <= d -> exists v, recordDepth matchId d mp !! matchId = Some v /\ d <= v.
Proof.
  intros Hd. unfold recordDepth, existingDepth.
  destruct (mp !! matchId) as [v|] eqn:Hk.
  - destruct (v =? 0) eqn:Hv0.
    + replace (d >? -1) with true by lia.
      exists d. rewrite lookup_insert_eq. split; [reflexivity | lia].
    + destruct (d >? v) eqn:Hgt.
      * exists d. rewrite lookup_insert_eq. split; [reflexivity | lia].
      * exists v. split; [assumption | lia].
  - replace (d >? -1) with true by lia.
    exists d. rewrite lookup_insert_eq. split; [reflexivity | lia].
Qed.

Lemma recordDepth_lookup matchId d mp b v :
  recordDepth matchId d mp !! b = Some v ->
  mp !! b = Some v \/ (b = matchId /\ v = d).
Proof.
  unfold recordDepth. destruct (d >? _); [|auto].
  destruct (decide (matchId = b)) as [->|Hne].
  - rewrite lookup_insert_eq. intros [= <-]. auto.
  - rewrite lookup_insert_ne by assumption. auto.
Qed.

Lemma calculateDepth_unfold fuel ms matchId d mp :
  calculateDepth (S fuel) ms matchId d mp
  = if d >? maxDepth then Some mp
    else forEachM (fun acc f => calculateDepth fuel ms (match_id f) (d + 1) acc)
                  (feedersOf ms matchId) (recordDepth matchId d mp).
Proof. reflexivity. Qed.

Section Traversal.

Variable ms : list Match.

Lemma forEach_calls (call : Z -> gmap Z Z -> option (gmap Z Z)) (d : Z) :
  (forall matchId mp mp', call matchId mp = Some mp' -> callSpec ms matchId d mp mp') ->
  forall (l : list Match) (mp mp' : gmap Z Z),
    forEachM (fun acc f => call (match_id f) acc) l mp = Some mp' ->
    grows mp mp'
    /\ (d <= maxDepth ->
        forall f, In f l -> exists v, mp' !! match_id f = Some v /\ d <= v)
    /\ (forall b v, mp' !! b = Some v -> mp !! b = Some v \/ settled ms mp' b v)
    /\ (bounded mp -> bounded mp').
Proof.
  intros Hcall. induction l as [|f l IH]; intros mp mp' Hrun; cbn in Hrun.
  - injection Hrun as <-. split; [apply grows_refl|].
    split; [intros _ ? []|]. split; auto.
  - destruct (call (match_id f) mp) as [mp1|] eqn:Hc; [|discriminate].
    destruct (Hcall _ _ _ Hc) as (Hg1 & Hat1 & Hch1 & Hb1).
    destruct (IH _ _ Hrun) as (Hg2 & Hat2 & Hch2 & Hb2).
    split; [eapply grows_trans; eassumption|].
    split; [|split].
    + intros Hd g [<-|Hg].
      * destruct (Hat1 Hd) as [(v & Hv & Hle) _].
        destruct (Hg2 _ _ Hv) as (v' & Hv' & Hle'). exists v'. split; [assumption | lia].
      * now apply Hat2.
    + intros b v Hv. destruct (Hch2 b v Hv) as [Hv1|Hs]; [|now right].
      destruct (Hch1 b v Hv1) as [Hv0|Hs]; [now left | right].
      eapply settled_grows; eassumption.
    + auto.
Qed.

Lemma recordDepth_bounded matchId d mp :
  0 <= d <= maxDepth -> bounded mp -> bounded (recordDepth matchId d mp).
Proof.
  intros Hd Hb k v Hk. apply recordDepth_lookup in Hk as [Hk|[-> ->]]; [|assumption].
  eapply Hb; eassumption.
Qed.

Lemma calculateDepth_spec fuel : forall matchId d mp mp',
  0 <= d ->
  calculateDepth fuel ms matchId d mp = Some mp' ->
  callSpec ms matchId d mp mp'.
Proof.
  induction fuel as [|fuel IH]; intros matchId d mp mp' Hd Hrun; [discriminate|].
  rewrite calculateDepth_unfold in Hrun.
  destruct (d >? maxDepth) eqn:Hcap.
  - injection Hrun as <-. split; [apply grows_refl|].
    split; [intros; lia|]. split; auto.
  - assert (Hle : d <= maxDepth) by lia.
    apply (forEach_calls (fun i acc => calculateDepth fuel ms i (d + 1) acc) (d + 1))
      in Hrun; [|intros; apply IH; [lia | assumption]].
    destruct Hrun as (Hg & Hat & Hch & Hb).
    pose proof (recordDepth_grows matchId d mp Hd) as Hg0.
    assert (Hset : settled ms mp' matchId d).
    { intros Hlt a Ha Hf.
      destruct (Hat ltac:(lia) a) as (v & Hv & Hv'); [now apply feedersOf_In|].
      exists v. split; [assumption | lia]. }
    split; [eapply grows_trans; eassumption|].
    split; [|split].
    + intros _. split; [|exact Hset].
      destruct (recordDepth_at matchId d mp Hd) as (v & Hv & Hv').
      destruct (Hg _ _ Hv) as (v' & Hv2 & Hv3). exists v'. split; [assumption | lia].
    + intros b v Hv. destruct (Hch b v Hv) as [Hv1|Hs]; [|now right].
      apply recordDepth_lookup in Hv1 as [Hv0|[-> ->]]; [now left | now right].
    + intros Hbd. apply Hb, recordDepth_bounded; [lia | assumption].
Qed.

End Traversal.

Section Layout.

Variable ms : list Match.

Lemma rootDepths_settled fuel root mp0 :
  rootDepths fuel ms root = Some mp0 ->
  bounded mp0 /\ forall b v, mp0 !! b = Some v -> settled ms mp0 b v.
Proof.
  unfold rootDepths. intros Hrun.
  apply calculateDepth_spec in Hrun as (_ & _ & Hch & Hb); [|lia].
  split.
  - apply Hb. intros k v Hk. rewrite lookup_empty in Hk. discriminate.
  - intros b v Hv. destruct (Hch b v Hv) as [He|Hs]; [|assumption].
    rewrite lookup_empty in He. discriminate.
Qed.

Lemma insert_fresh_grows (mp : gmap Z Z) k v :
  mp !! k = None -> grows mp (<[k := v]> mp).
Proof.
  intros Hk j w Hj. exists w. split; [|lia].
  rewrite lookup_insert_ne; [assumption | congruence].
Qed.

Lemma placeOrphan_inv fuel mp0 mp mp' m :
  orphanInv ms mp0 mp ->
  placeOrphan fuel ms mp m = Some mp' ->
  orphanInv ms mp0 mp'.
Proof.
  intros (Hg & Hb & Hs) Hrun. unfold placeOrphan in Hrun.
  destruct (mp !! match_id m) as [dm|] eqn:Hm.
  { injection Hrun as <-. exact (conj Hg (conj Hb Hs)). }
  assert (Hfresh : orphanInv ms mp0 (<[match_id m := 0]> mp)).
  { pose proof (insert_fresh_grows mp (match_id m) 0 Hm) as Hg'.
    split; [eapply grows_trans; eassumption|]. split.
    - intros k v Hk. destruct (decide (match_id m = k)) as [<-|Hne].
      + rewrite lookup_insert_eq in Hk. injection Hk as <-. unfold maxDepth. lia.
      + rewrite lookup_insert_ne in Hk by assumption. eapply Hb; eassumption.
    - intros b v Hb0 Hv. destruct (decide (match_id m = b)) as [<-|Hne].
      + destruct Hb0 as [v0 Hv0]. destruct (Hg _ _ Hv0) as (v1 & Hv1 & _). congruence.
      + rewrite lookup_insert_ne in Hv by assumption.
        eapply settled_grows; [exact Hg' | now apply Hs]. }
  destruct (List.find _ ms) as [p|]; [|injection Hrun as <-; exact Hfresh].
  destruct (mp !! match_id p) as [parentDepth|] eqn:Hp;
    [|injection Hrun as <-; exact Hfresh].
  clear Hfresh.
  apply calculateDepth_spec in Hrun as (Hg' & _ & Hch & Hb');
    [|destruct (Hb _ _ Hp); lia].
  split; [eapply grows_trans; eassumption|]. split; [auto|].
  intros b v Hb0 Hv. destruct (Hch b v Hv) as [Hv0|Hs']; [|assumption].
  eapply settled_grows; [exact Hg' | now apply Hs].
Qed.

Lemma forEachM_invariant {S X} (P : S -> Prop) (body : S -> X -> option S) :
  (forall s x s', P s -> body s x = Some s' -> P s') ->
  forall l s s', P s -> forEachM body l s = Some s' -> P s'.
Proof.
  intros Hstep. induction l as [|x l IH]; intros s s' Hs Hrun; cbn in Hrun.
  - now injection Hrun as <-.
  - destruct (body s x) as [s1|] eqn:Hb; [|discriminate]. eauto.
Qed.

Lemma depthMap_inv fuel root mp0 mp :
  rootDepths fuel ms root = Some mp0 ->
  depthMap fuel ms root = Some mp ->
  orphanInv ms mp0 mp.
Proof.
  intros H0 Hrun. unfold depthMap in Hrun. rewrite H0 in Hrun.
  destruct (rootDepths_settled _ _ _ H0) as [Hb Hs].
  eapply (forEachM_invariant (orphanInv ms mp0)); [|
    | exact Hrun].
  - intros s x s' Hinv Hstep. eapply placeOrphan_inv; eassumption.
  - split; [apply grows_refl|]. split; [assumption|]. intros b v _. apply Hs.
Qed.

End Layout.

(** C7 (amended). In the depth assignment of the layout, for every
    edge [a -> b] (winner or loser) whose target [b] was reached by the
    traversal from the root and sits strictly below the depth cap, [a]
    has a depth and [depth a > depth b]. *)
Theorem layout_depth_decreases_below_cap :
  forall (fuel : nat) (ms : list Match) (rootMatchId : Z)
         (mp0 mp : gmap Z Z) (a : Match) (b db : Z),
    rootDepths fuel ms rootMatchId = Some mp0 ->
    depthMap fuel ms rootMatchId = Some mp ->
    In a ms ->
    feeds a b ->
    is_Some (mp0 !! b) ->
    mp !! b = Some db ->
    db < maxDepth ->
    exists da, mp !! match_id a = Some da /\ da > db.
Proof.
  intros fuel ms root mp0 mp a b db H0 Hrun Ha Hf Hb0 Hb Hlt.
  destruct (depthMap_inv ms fuel root mp0 mp H0 Hrun) as (_ & _ & Hs).
  destruct (Hs b db Hb0 Hb Hlt a Ha Hf) as (da & Hda & Hgt).
  exists da. split; [assumption | lia].
Qed.

(** ** Termination of the traversal *)

Lemma forEachM_total {S X} (P : S -> Prop) (body : S -> X -> option S) :
  (forall s x, P s -> exists s', body s x = Some s' /\ P s') ->
  forall l s, P s -> exists s', forEachM body l s = Some s' /\ P s'.
Proof.
  intros Hstep. induction l as [|x l IH]; intros s Hs; cbn.
  - eauto.
  - destruct (Hstep s x Hs) as (s1 & -> & Hs1). eauto.
Qed.

(** A call at depth [d] returns as soon as the fuel exceeds the number
    of levels left below the cap, whatever the edges look like. *)
Lemma calculateDepth_total ms (n : nat) :
  forall (fuel : nat) (matchId d : Z) (mp : gmap Z Z),
    maxDepth + 1 - d <= Z.of_nat n ->
    (n < fuel)%nat ->
    is_Some (calculateDepth fuel ms matchId d mp).
Proof.
  induction n as [|n IH]; intros fuel matchId d mp Hn Hfuel;
    (destruct fuel as [|fuel]; [lia|]); rewrite calculateDepth_unfold.
  - replace (d >? maxDepth) with true by lia. eauto.
  - destruct (d >? maxDepth) eqn:Hcap; [eauto|].
    destruct (forEachM_total (fun _ => True)
                (fun acc f => calculateDepth fuel ms (match_id f) (d + 1) acc))
      with (l := feedersOf ms matchId) (s := recordDepth matchId d mp)
      as (mp' & Hrun & _); [|exact I|eauto].
    intros s x _. destruct (IH fuel (match_id x) (d + 1) s) as [s' Hs']; [lia|lia|].
    eauto.
Qed.

Lemma forEachM_ext_some {S X} (body body' : S -> X -> option S) :
  (forall s x s', body s x = Some s' -> body' s x = Some s') ->
  forall l s s', forEachM body l s = Some s' -> forEachM body' l s = Some s'.
Proof.
  intros Hext. induction l as [|x l IH]; intros s s' Hrun; cbn in *; [assumption|].
  destruct (body s x) as [s1|] eqn:Hb; [|discriminate].
  rewrite (Hext _ _ _ Hb). auto.
Qed.

(** More fuel never changes a result. *)
Lemma calculateDepth_more_fuel ms (fuel : nat) :
  forall (fuel' : nat) (matchId d : Z) (mp mp' : gmap Z Z),
    (fuel <= fuel')%nat ->
    calculateDepth fuel ms matchId d mp = Some mp' ->
    calculateDepth fuel' ms matchId d mp = Some mp'.
Proof.
  induction fuel as [|fuel IH]; intros fuel' matchId d mp mp' Hle Hrun;
    [discriminate|].
  destruct fuel' as [|fuel']; [lia|].
  rewrite calculateDepth_unfold in *.
  destruct (d >? maxDepth); [assumption|].
  revert Hrun. apply forEachM_ext_some.
  intros s x s'. apply IH. lia.
Qed.

Lemma placeOrphan_more_fuel ms fuel fuel' mp m mp' :
  (fuel <= fuel')%nat ->
  placeOrphan fuel ms mp m = Some mp' ->
  placeOrphan fuel' ms mp m = Some mp'.
Proof.
  intros Hle. unfold placeOrphan.
  destruct (mp !! match_id m); [auto|].
  destruct (List.find _ ms) as [p|]; [|auto].
  destruct (mp !! match_id p); [|auto].
  now apply calculateDepth_more_fuel.
Qed.

Lemma depthMap_more_fuel ms fuel fuel' root mp :
  (fuel <= fuel')%nat ->
  depthMap fuel ms root = Some mp ->
  depthMap fuel' ms root = Some mp.
Proof.
  intros Hle. unfold depthMap, rootDepths.
  destruct (calculateDepth fuel ms root 0 ∅) as [mp0|] eqn:H0; [|discriminate].
  rewrite (calculateDepth_more_fuel ms fuel fuel' _ _ _ _ Hle H0).
  apply forEachM_ext_some. intros s x s'. now apply placeOrphan_more_fuel.
Qed.

Lemma depthMap_total ms fuel root :
  (12 <= fuel)%nat ->
  exists mp0 mp, rootDepths fuel ms root = Some mp0
                 /\ depthMap fuel ms root = Some mp.
Proof.
  intros Hfuel.
  destruct (calculateDepth_total ms 11 fuel root 0 ∅) as [mp0 H0];
    [unfold maxDepth; lia | lia |].
  exists mp0. unfold depthMap. fold (rootDepths fuel ms root) in H0. rewrite H0.
  destruct (rootDepths_settled ms fuel root mp0 H0) as [Hb Hs].
  destruct (forEachM_total (orphanInv ms mp0) (placeOrphan fuel ms))
    with (l := ms) (s := mp0) as (mp & Hrun & _).
  - intros s x Hinv.
    assert (Hsome : is_Some (placeOrphan fuel ms s x)).
    { unfold placeOrphan.
      destruct (s !! match_id x); [eauto|].
      destruct (List.find _ ms) as [p|]; [|eauto].
      destruct (s !! match_id p) as [pd|] eqn:Hp; [|eauto].
      destruct Hinv as (_ & Hbs & _). destruct (Hbs _ _ Hp).
      apply (calculateDepth_total ms 10); [unfold maxDepth in *; lia | lia]. }
    destruct Hsome as [s' Hs']. exists s'. split; [assumption|].
    eapply placeOrphan_inv; eassumption.
  - split; [apply grows_refl|]. split; [assumption|]. intros b v _. apply Hs.
  - eauto.
Qed.

(** ** Which matches the root traversal reaches *)

Lemma walkLevel_step ms root (k : nat) (b : Z) :
  In b (walkLevel ms root (S k))
  <-> exists f, In f (feedersOf ms root) /\ In b (walkLevel ms (match_id f) k).
Proof.
  revert b. induction k as [|k IH]; intros b.
  - cbn [walkLevel flat_map]. rewrite app_nil_r, in_map_iff. split.
    + intros (f & <- & Hf). exists f. split; [assumption | now left].
    + intros (f & Hf & [<-|[]]). eauto.
  - change (walkLevel ms root (S (S k)))
      with (flat_map (fun c => map match_id (feedersOf ms c))
                     (walkLevel ms root (S k))).
    rewrite in_flat_map. split.
    + intros (c & Hc & Hb). apply IH in Hc as (f & Hf & Hc).
      exists f. split; [assumption|].
      cbn [walkLevel]. apply in_flat_map. eauto.
    + intros (f & Hf & Hb). cbn [walkLevel] in Hb.
      apply in_flat_map in Hb as (c & Hc & Hb).
      exists c. split; [|assumption]. apply IH. eauto.
Qed.

(** Every depth a call writes is the length of a walk to the match the
    call started from. *)
Lemma calculateDepth_reach ms fuel :
  forall (matchId d : Z) (mp mp' : gmap Z Z),
    calculateDepth fuel ms matchId d mp = Some mp' ->
    forall b v, mp' !! b = Some v ->
      mp !! b = Some v
      \/ exists k : nat, v = d + Z.of_nat k /\ v <= maxDepth
                         /\ In b (walkLevel ms matchId k).
Proof.
  induction fuel as [|fuel IH]; intros matchId d mp mp' Hrun; [discriminate|].
  rewrite calculateDepth_unfold in Hrun.
  destruct (d >? maxDepth) eqn:Hcap; [injection Hrun as <-; auto|].
  assert (Hfold : forall l mp1 mp2,
             (forall f, In f l -> In f (feedersOf ms matchId)) ->
             forEachM (fun acc f => calculateDepth fuel ms (match_id f) (d + 1) acc)
                      l mp1 = Some mp2 ->
             forall b v, mp2 !! b = Some v ->
               mp1 !! b = Some v
               \/ exists k : nat, v = d + Z.of_nat k /\ v <= maxDepth
                                  /\ In b (walkLevel ms matchId k)).
  { induction l as [|f l IHl]; intros mp1 mp2 Hsub Hfe b v Hv; cbn in Hfe.
    - injection Hfe as <-. auto.
    - destruct (calculateDepth fuel ms (match_id f) (d + 1) mp1) as [mpf|] eqn:Hc;
        [|discriminate].
      destruct (IHl mpf mp2 (fun g Hg => Hsub g (or_intror Hg)) Hfe b v Hv)
        as [Hvf|?]; [|now right].
      destruct (IH _ _ _ _ Hc b v Hvf) as [?|(k & -> & Hle & Hw)]; [now left|].
      right. exists (S k). split; [lia|]. split; [lia|].
      apply walkLevel_step. exists f. split; [|assumption].
      apply Hsub. now left. }
  intros b v Hv.
  destruct (Hfold _ _ _ (fun f Hf => Hf) Hrun b v Hv) as [Hv1|?]; [|now right].
  apply recordDepth_lookup in Hv1 as [?|[-> ->]]; [now left|].
  right. exists O. split; [lia|]. split; [lia|]. now left.
Qed.

Lemma rootDepths_reach ms fuel root mp0 b v :
  rootDepths fuel ms root = Some mp0 ->
  mp0 !! b = Some v ->
  exists k : nat, v = Z.of_nat k /\ (k <= 10)%nat /\ In b (walkLevel ms root k).
Proof.
  intros Hrun Hv.
  destruct (calculateDepth_reach ms fuel root 0 ∅ mp0 Hrun b v Hv)
    as [He|(k & -> & Hle & Hw)].
  - rewrite lookup_empty in He. discriminate.
  - exists k. unfold maxDepth in Hle. split; [lia|]. split; [lia | assumption].
Qed.

(** ** Matches without a depth are left out of the rounds *)

Lemma sort_In {A} (cmp : A -> A -> Z) (l : list A) x :
  In x (JS.sort cmp l) <-> In x l.
Proof.
  split; apply Permutation_in; [|symmetry]; apply sort_perm.
Qed.

Lemma levelAt_In ms mp d m :
  In m (levelAt ms mp d) <-> In m ms /\ mp !! match_id m = Some d.
Proof.
  unfold levelAt. rewrite sort_In, filter_In, eqNum_Some. reflexivity.
Qed.

Lemma levelsFrom_In ms mp (n : nat) l m :
  In l (levelsFrom ms mp n) -> In m l ->
  In m ms /\ exists d, mp !! match_id m = Some d /\ 0 <= d <= Z.of_nat n.
Proof.
  induction n as [|n IH]; cbn [levelsFrom].
  - intros [<-|[]] Hm. apply levelAt_In in Hm as [? ?]. split; [assumption|].
    eexists. split; [eassumption | lia].
  - intros [<-|Hl] Hm.
    + apply levelAt_In in Hm as [? ?]. split; [assumption|].
      eexists. split; [eassumption | lia].
    + destruct (IH Hl Hm) as (? & d & ? & ?). split; [assumption|].
      exists d. split; [assumption | lia].
Qed.

(** ** Round layout: termination, the cap and the rounds *)

Lemma maxFoundDepth_bound (mp : gmap Z Z) :
  0 <= maxFoundDepth mp
  /\ forall k v, mp !! k = Some v -> v <= maxFoundDepth mp.
Proof.
  unfold maxFoundDepth.
  apply (map_fold_weak_ind
           (fun r (m : gmap Z Z) => 0 <= r /\ forall k v, m !! k = Some v -> v <= r)).
  - split; [lia|]. intros k v Hk. rewrite lookup_empty in Hk. discriminate.
  - intros i x m r Hi [Hr Hm]. split; [lia|].
    intros k v Hk. destruct (decide (i = k)) as [<-|Hne].
    + rewrite lookup_insert_eq in Hk. injection Hk as <-. lia.
    + rewrite lookup_insert_ne in Hk by assumption.
      specialize (Hm _ _ Hk). lia.
Qed.

Lemma levelsFrom_has ms mp (n d : nat) :
  (d <= n)%nat -> In (levelAt ms mp (Z.of_nat d)) (levelsFrom ms mp n).
Proof.
  induction n as [|n IH]; intros Hd; cbn [levelsFrom].
  - left. f_equal. lia.
  - destruct (decide (d = S n)) as [->|Hne]; [now left|].
    right. apply IH. lia.
Qed.

(** A match is shown in some round exactly when it has a depth. *)
Lemma levels_membership ms mp m :
  bounded mp ->
  (exists l, In l (levelsFrom ms mp (Z.to_nat (maxFoundDepth mp))) /\ In m l)
  <-> In m ms /\ is_Some (mp !! match_id m).
Proof.
  intros Hb. split.
  - intros (l & Hl & Hm). destruct (levelsFrom_In _ _ _ _ _ Hl Hm) as (? & d & ? & _).
    split; [assumption | eauto].
  - intros [Hm [d Hd]]. destruct (Hb _ _ Hd) as [Hd0 _].
    destruct (maxFoundDepth_bound mp) as [_ Hmax]. specialize (Hmax _ _ Hd).
    exists (levelAt ms mp d). split.
    + rewrite <- (Z2Nat.id d) by assumption. apply levelsFrom_has. lia.
    + now apply levelAt_In.
Qed.

(** C9 (amended). The depth traversal of the layout terminates on
    every finite match collection, cyclic ones included, because the
    recursion never goes past the cap: twelve levels of recursion are
    enough for any input, more fuel gives the same rounds, and every
    recorded depth lies between 0 and 10. A match whose every path from
    the root is longer than the cap gets no depth from the root
    traversal. No error is raised: a match is shown in some round
    exactly when the final depth map has an entry for it, so it is left
    out only when the orphan pass gives it no depth either. *)
Theorem layout_terminates_with_cap :
  forall (ms : list Match) (rootMatchId : Z) (fuel : nat),
    (12 <= fuel)%nat ->
    exists (mp0 mp : gmap Z Z) (rounds : list (list Match)),
      rootDepths fuel ms rootMatchId = Some mp0
      /\ depthMap fuel ms rootMatchId = Some mp
      /\ levels fuel ms rootMatchId = Some rounds
      /\ levels 12 ms rootMatchId = Some rounds
      /\ bounded mp
      /\ (forall m : Match,
             (forall k : nat, (k <= 10)%nat ->
                              ~ In (match_id m) (walkLevel ms rootMatchId k)) ->
             mp0 !! match_id m = None)
      /\ (forall m : Match,
             (exists l, In l rounds /\ In m l)
             <-> In m ms /\ is_Some (mp !! match_id m)).
Proof.
  intros ms root fuel Hfuel.
  destruct (depthMap_total ms 12 root) as (mp0 & mp & H0 & Hmp); [lia|].
  pose proof (calculateDepth_more_fuel ms 12 fuel _ _ _ _ Hfuel H0) as H0'.
  pose proof (depthMap_more_fuel ms 12 fuel _ _ Hfuel Hmp) as Hmp'.
  destruct (depthMap_inv ms 12 root mp0 mp H0 Hmp) as (_ & Hb & _).
  exists mp0, mp, (levelsFrom ms mp (Z.to_nat (maxFoundDepth mp))).
  split; [exact H0'|]. split; [exact Hmp'|].
  split; [unfold levels; now rewrite Hmp'|].
  split; [unfold levels; now rewrite Hmp|].
  split; [exact Hb|]. split.
  - intros m Hfar. destruct (mp0 !! match_id m) as [v|] eqn:Hv; [|reflexivity].
    destruct (rootDepths_reach ms 12 root mp0 _ _ H0 Hv) as (k & _ & Hk & Hw).
    destruct (Hfar k Hk Hw).
  - intros m. now apply levels_membership.
Qed.

Lemma layout_terminates_with_cap_witness :
  exists (mp0 mp : gmap Z Z) (rounds : list (list Match)),
    rootDepths 20 cyclicBracket 2 = Some mp0
    /\ depthMap 20 cyclicBracket 2 = Some mp
    /\ levels 20 cyclicBracket 2 = Some rounds
    /\ levels 12 cyclicBracket 2 = Some rounds
    /\ bounded mp
    /\ (forall m : Match,
           (forall k : nat, (k <= 10)%nat ->
                            ~ In (match_id m) (walkLevel cyclicBracket 2 k)) ->
           mp0 !! match_id m = None)
    /\ (forall m : Match,
           (exists l, In l rounds /\ In m l)
           <-> In m cyclicBracket /\ is_Some (mp !! match_id m)).
Proof.
  apply (layout_terminates_with_cap cyclicBracket 2 20). lia.
Defined.

Ltac not_in_level :=
  vm_compute; intros H;
  repeat match type of H with
         | _ \/ _ => destruct H as [H|H]
         end; try discriminate H; try exact H.

(** C9, as stated, fails on a chain of 13 matches rooted at the last
    one: the only path from the root to match 1 has 12 edges, beyond the
    cap, yet match 1 is not dropped; the orphan pass gives it depth 0
    and it is shown in the last round, next to the root. *)
Lemma chain13_far_match_not_dropped :
  In (chainMatch 13 1) (chainBracket 13)
  /\ (forall k : nat, (k <= 10)%nat ->
                      ~ In (match_id (chainMatch 13 1))
                           (walkLevel (chainBracket 13) 13 k))
  /\ exists rounds,
       levels 12 (chainBracket 13) 13 = Some rounds
       /\ exists l, In l rounds /\ In (chainMatch 13 1) l.
Proof.
  split; [now left|]. split.
  - intros k Hk.
    do 11 (destruct k as [|k]; [not_in_level|]). lia.
  - eexists. split; [vm_compute; reflexivity|].
    exists [chainMatch 13 1; chainMatch 13 13]. split; [|now left].
    vm_compute. do 10 right. now left.
Qed.

(** The chain of 12: match 1 is one edge beyond the cap and is left
    without a depth by both passes, so no round shows it. *)
Example chain12_far_match_dropped :
  exists mp rounds,
    depthMap 12 (chainBracket 12) 12 = Some mp
    /\ levels 12 (chainBracket 12) 12 = Some rounds
    /\ mp !! 1 = None
    /\ Forall (fun l => ~ In (chainMatch 12 1) l) rounds.
Proof.
  eexists. eexists. split; [vm_compute; reflexivity|].
  split; [vm_compute; reflexivity|]. split; [reflexivity|].
  repeat constructor; not_in_level.
Qed.

(** C7, as stated, fails at the cap: in the chain of 12 matches match 1
    feeds match 2, match 2 has depth 10, and match 1 has no depth at
    all. *)
Lemma chain12_edge_not_decreasing :
  In (chainMatch 12 1) (chainBracket 12)
  /\ feeds (chainMatch 12 1) 2
  /\ exists mp,
       depthMap 12 (chainBracket 12) 12 = Some mp
       /\ mp !! 2 = Some 10
       /\ mp !! match_id (chainMatch 12 1) = None
       /\ ~ (exists da db, mp !! match_id (chainMatch 12 1) = Some da
                           /\ mp !! 2 = Some db /\ da > db).
Proof.
  split; [now left|]. split; [now left|].
  eexists. split; [vm_compute; reflexivity|].
  split; [reflexivity|]. split; [reflexivity|].
  intros (da & db & Ha & _). vm_compute in Ha. discriminate.
Qed.

(** Other ways an edge fails to decrease: a cycle runs both ends into
    the cap, and a match the root does not reach is put at depth 0
    before its own target is. *)
Example cyclic_edge_not_decreasing :
  exists mp, depthMap 12 cyclicBracket 2 = Some mp
             /\ mp !! 1 = Some 9 /\ mp !! 2 = Some 10.
Proof. eexists. split; [vm_compute; reflexivity|]. split; reflexivity. Qed.

Example side_edge_not_decreasing :
  exists mp, depthMap 12 sideBracket 3 = Some mp
             /\ mp !! 1 = Some 0 /\ mp !! 2 = Some 0.
Proof. eexists. split; [vm_compute; reflexivity|]. split; reflexivity. Qed.

Lemma layout_depth_decreases_below_cap_witness :
  exists da, default ∅ (depthMap 12 fourPlayerBracket 3) !! 1 = Some da
             /\ da > 0.
Proof.
  apply (layout_depth_decreases_below_cap 12 fourPlayerBracket 3
           (default ∅ (rootDepths 12 fourPlayerBracket 3))
           (default ∅ (depthMap 12 fourPlayerBracket 3))
           (Build_Match 1 None None (Some 3) (Some red) None None None) 3 0).
  - vm_compute. reflexivity.
  - vm_compute. reflexivity.
  - now left.
  - now left.
  - vm_compute. eauto.
  - vm_compute. reflexivity.
  - reflexivity.
Defined.

(** ** The tournament list *)

Lemma persistTournament_tournaments now data st :
  tournaments (persistTournament now data st)
  = upsert (set_lastUpdated data now) (tournaments st).
Proof. reflexivity. Qed.

Lemma upsert_nil u : upsert u [] = [u].
Proof. reflexivity. Qed.

Lemma upsert_cons u x ts :
  upsert u (x :: ts)
  = if String.eqb (tournament_id x) (tournament_id u) then u :: ts
    else x :: upsert u ts.
Proof.
  unfold upsert. cbn [JS.findIndex].
  destruct (String.eqb (tournament_id x) (tournament_id u)); [reflexivity|].
  destruct (JS.findIndex _ ts); reflexivity.
Qed.

Lemma upsert_find u ts :
  List.find (hasId (tournament_id u)) (upsert u ts) = Some u.
Proof.
  unfold hasId. induction ts as [|x ts IH].
  - cbn. now rewrite String.eqb_refl.
  - rewrite upsert_cons.
    destruct (String.eqb (tournament_id x) (tournament_id u)) eqn:Hx;
      cbn [List.find].
    + now rewrite String.eqb_refl.
    + now rewrite Hx.
Qed.

Lemma upsert_others u ts :
  List.filter (fun t => negb (hasId (tournament_id u) t)) (upsert u ts)
  = List.filter (fun t => negb (hasId (tournament_id u) t)) ts.
Proof.
  unfold hasId. induction ts as [|x ts IH].
  - cbn. now rewrite String.eqb_refl.
  - rewrite upsert_cons.
    destruct (String.eqb (tournament_id x) (tournament_id u)) eqn:Hx;
      cbn [List.filter].
    + now rewrite String.eqb_refl, Hx.
    + rewrite Hx. cbn [negb]. now rewrite IH.
Qed.

Lemma upsert_ids u ts :
  map tournament_id (upsert u ts)
  = if existsb (hasId (tournament_id u)) ts then map tournament_id ts
    else (map tournament_id ts ++ [tournament_id u])%list.
Proof.
  unfold hasId. induction ts as [|x ts IH]; [reflexivity|].
  rewrite upsert_cons. cbn [existsb map].
  destruct (String.eqb (tournament_id x) (tournament_id u)) eqn:Hx.
  - cbn. apply String.eqb_eq in Hx. now rewrite Hx.
  - cbn [orb map]. rewrite IH.
    destruct (existsb _ ts); reflexivity.
Qed.

Lemma upsert_upsert u1 u2 ts :
  tournament_id u1 = tournament_id u2 ->
  upsert u2 (upsert u1 ts) = upsert u2 ts.
Proof.
  intros Hid. induction ts as [|x ts IH].
  - rewrite !upsert_nil, upsert_cons. rewrite Hid. now rewrite String.eqb_refl.
  - rewrite (upsert_cons u1), (upsert_cons u2 x). rewrite Hid.
    destruct (String.eqb (tournament_id x) (tournament_id u2)) eqn:Hx.
    + rewrite upsert_cons. rewrite Hid. now rewrite String.eqb_refl.
    + rewrite upsert_cons, Hx. now rewrite IH.
Qed.

(** X10. After [persistTournament] the editor holds the time-stamped
    snapshot, looking its id up in the tournament list finds that
    snapshot, tournaments with other ids are untouched, and the list
    of ids is the old one, extended by the id only if it was new. *)
Theorem persistTournament_stores_snapshot :
  forall (now : Z) (data : TournamentData) (st : AppState),
    let st' := persistTournament now data st in
    editorData st' = Some (set_lastUpdated data now)
    /\ List.find (hasId (tournament_id data)) (tournaments st')
       = Some (set_lastUpdated data now)
    /\ List.filter (fun t => negb (hasId (tournament_id data) t)) (tournaments st')
       = List.filter (fun t => negb (hasId (tournament_id data) t))
                     (tournaments st)
    /\ map tournament_id (tournaments st')
       = (if existsb (hasId (tournament_id data)) (tournaments st)
          then map tournament_id (tournaments st)
          else (map tournament_id (tournaments st) ++ [tournament_id data])%list).
Proof.
  intros now data st st'. subst st'. rewrite persistTournament_tournaments.
  split; [reflexivity|].
  split; [apply (upsert_find (set_lastUpdated data now))|].
  split; [apply (upsert_others (set_lastUpdated data now))|].
  apply (upsert_ids (set_lastUpdated data now)).
Qed.

Lemma existsb_hasId tid ts :
  existsb (hasId tid) ts = false -> tid ∉ map tournament_id ts.
Proof.
  intros H Hin. apply list_elem_of_In, in_map_iff in Hin as (t & Ht & Hin).
  assert (existsb (hasId tid) ts = true); [|congruence].
  apply existsb_exists. exists t. split; [assumption|].
  unfold hasId. rewrite Ht. apply String.eqb_refl.
Qed.

(** X11. [persistTournament] keeps the ids of the tournament list free
    of duplicates. *)
Theorem persistTournament_keeps_ids_unique :
  forall (now : Z) (data : TournamentData) (st : AppState),
    NoDup (map tournament_id (tournaments st)) ->
    NoDup (map tournament_id (tournaments (persistTournament now data st))).
Proof.
  intros now data st Hnd. rewrite persistTournament_tournaments, upsert_ids.
  cbn [tournament_id set_lastUpdated].
  destruct (existsb (hasId (tournament_id data)) (tournaments st)) eqn:He;
    [assumption|].
  apply NoDup_app. split; [assumption|]. split; [|apply NoDup_singleton].
  intros x Hx Hx'. apply list_elem_of_singleton in Hx'. subst x.
  now apply existsb_hasId in He.
Qed.

Lemma persistTournament_twice :
  forall (now1 now2 : Z) (data1 data2 : TournamentData) (st : AppState),
    tournament_id data1 = tournament_id data2 ->
    persistTournament now2 data2 (persistTournament now1 data1 st)
    = persistTournament now2 data2 st.
Proof.
  intros now1 now2 data1 data2 st Hid.
  pose proof (upsert_upsert (set_lastUpdated data1 now1)
                (set_lastUpdated data2 now2) (tournaments st) Hid) as H.
  unfold persistTournament at 1 3.
  rewrite persistTournament_tournaments.
  unfold upsert in H. cbn [tournament_id set_lastUpdated] in *.
  cbn [activeMatchId scoreForm persistTournament].
  f_equal. exact H.
Qed.

(** X12. Persisting two snapshots with the same id one after the other
    gives the state that persisting the second alone gives. *)
Theorem persistTournament_last_write_wins :
  forall (now1 now2 : Z) (data1 data2 : TournamentData) (st : AppState),
    tournament_id data1 = tournament_id data2 ->
    persistTournament now2 data2 (persistTournament now1 data1 st)
    = persistTournament now2 data2 st.
Proof.
  intros now1 now2 data1 data2 st Hid.
  pose proof (upsert_upsert (set_lastUpdated data1 now1)
                (set_lastUpdated data2 now2) (tournaments st) Hid) as H.
  unfold persistTournament at 1 3.
  rewrite persistTournament_tournaments.
  unfold upsert in H. cbn [tournament_id set_lastUpdated] in *.
  cbn [activeMatchId scoreForm persistTournament].
  f_equal. exact H.
Qed.

(** X13. A confirmed [deleteTournament] leaves no tournament with the
    given id, undoes a preceding [persistTournament] of that id as far
    as the list goes, and a declined one changes nothing. *)
Theorem deleteTournament_removes :
  forall (tid : string) (now : Z) (data : TournamentData) (st : AppState),
    Forall (fun t => tournament_id t <> tid)
           (tournaments (deleteTournament true tid st))
    /\ tournaments (deleteTournament true (tournament_id data)
                                     (persistTournament now data st))
       = tournaments (deleteTournament true (tournament_id data) st)
    /\ deleteTournament false tid st = st.
Proof.
  intros tid now data st. split; [|split; [|reflexivity]].
  - unfold deleteTournament. cbn [negb tournaments].
    apply List.Forall_forall. intros t Ht. apply filter_In in Ht as [_ Ht].
    apply negb_true_iff, String.eqb_neq in Ht. exact Ht.
  - unfold deleteTournament. cbn [negb tournaments].
    rewrite persistTournament_tournaments.
    apply (upsert_others (set_lastUpdated data now)).
Qed.

(** ** Placement and the handlers: further facts *)

Lemma includes_app_true sp a : In a sp -> JS.includes sp a = true.
Proof. apply includes_In. Qed.

(** A later placement for the same source match replaces an earlier one. *)
Lemma placeInTarget_absorbs (x : Match) (a b : string) (slot : option Slot)
    (sp : list string) :
  slot <> None \/ (In a sp /\ a <> "") ->
  placeInTarget (placeInTarget x a slot sp) b slot sp = placeInTarget x b slot sp.
Proof.
  intros H. destruct slot as [[|]|]; [reflexivity | reflexivity |].
  destruct H as [H|[Hin Hne]]; [congruence|].
  apply includes_In in Hin. apply truthyStr_Some in Hne.
  destruct x as [i r w wt ws lt ls res]. unfold placeInTarget.
  cbn [redPlayerId whitePlayerId].
  destruct (JS.truthyStr r) eqn:Htr, (JS.includesOpt sp r) eqn:Hir,
           (JS.truthyStr w) eqn:Htw, (JS.includesOpt sp w) eqn:Hiw;
    cbn [andb negb set_whitePlayerId set_redPlayerId redPlayerId whitePlayerId
         JS.includesOpt match_id winnerToMatchId winnerToSlot loserToMatchId
         loserToSlot result];
    rewrite ?Hne, ?Hin, ?Htr, ?Hir, ?Htw, ?Hiw; reflexivity.
Qed.

(** X1. A later placement replaces an earlier one from the same source
    match: placing [b] after [a] in the same target, with the same
    slot choice, gives the collection that placing [b] alone gives,
    whenever the slot is explicit or [a] is a non-empty source
    participant. *)
Theorem place_later_replaces_earlier :
  forall (ms : list Match) (targetMatchId : Z) (a b : string)
         (slot : option Slot) (sourceParticipants : list string),
    slot <> None \/ (In a sourceParticipants /\ a <> "") ->
    placePlayerInMatch
      (placePlayerInMatch ms targetMatchId a slot sourceParticipants)
      targetMatchId b slot sourceParticipants
    = placePlayerInMatch ms targetMatchId b slot sourceParticipants.
Proof.
  intros ms t a b slot sp H. unfold placePlayerInMatch.
  rewrite map_map. apply map_ext. intros x.
  destruct (match_id x =? t) eqn:Ht; cbv beta iota.
  - rewrite placeInTarget_id, Ht. now apply placeInTarget_absorbs.
  - now rewrite Ht.
Qed.

(** ** The handlers, case by case *)

Lemma submitScore_decided now st ed active m redP whiteP :
  editorData st = Some ed ->
  activeMatchId st = Some active ->
  findMatch (matches ed) active = Some m ->
  redPlayerId m = Some redP -> redP <> "" ->
  whitePlayerId m = Some whiteP -> whiteP <> "" ->
  form_red (scoreForm st) <> form_white (scoreForm st) ->
  submitScore now st
  = {| next := clearActive
                 (persistTournament now
                    (set_matches ed
                       (scoredMatches (matches ed) m redP whiteP (scoreForm st)))
                    st);
       alerts := [] |}.
Proof.
  intros Hed Hact Hfind Hr Hrne Hw Hwne Hrw.
  unfold submitScore, scoredMatches, decidedWinner, decidedLoser.
  rewrite Hact, Hed, Hfind, Hr, Hw.
  rewrite (findMatch_id _ _ _ Hfind).
  apply truthyStr_Some in Hrne, Hwne. rewrite Hrne, Hwne. cbn [negb orb].
  destruct (form_red (scoreForm st) >? form_white (scoreForm st)) eqn:Hgt;
    [reflexivity|].
  assert (Hlt : (form_white (scoreForm st) >? form_red (scoreForm st)) = true)
    by lia.
  rewrite Hlt. reflexivity.
Qed.

Lemma submitScore_level now st ed active m redP whiteP :
  editorData st = Some ed ->
  activeMatchId st = Some active ->
  findMatch (matches ed) active = Some m ->
  redPlayerId m = Some redP -> redP <> "" ->
  whitePlayerId m = Some whiteP -> whiteP <> "" ->
  form_red (scoreForm st) = form_white (scoreForm st) ->
  submitScore now st = {| next := st; alerts := [tiedAlert] |}.
Proof.
  intros Hed Hact Hfind Hr Hrne Hw Hwne Heq.
  unfold submitScore. rewrite Hact, Hed, Hfind, Hr, Hw.
  apply truthyStr_Some in Hrne, Hwne. rewrite Hrne, Hwne. cbn [negb orb].
  rewrite Heq.
  replace (form_white (scoreForm st) >? form_white (scoreForm st)) with false
    by lia.
  reflexivity.
Qed.

Lemma truthyStr_cases (o : option string) :
  JS.truthyStr o = false \/ exists s, o = Some s /\ s <> "".
Proof.
  destruct (JS.truthyStr o) eqn:H; [right | now left].
  destruct o as [s|]; [|discriminate]. exists s. split; [reflexivity|].
  now apply truthyStr_Some.
Qed.

Lemma submitScore_cases now st :
  submitScore now st = silent st
  \/ submitScore now st = {| next := st; alerts := [tiedAlert] |}
  \/ exists ed active m redP whiteP,
       editorData st = Some ed /\ activeMatchId st = Some active
       /\ findMatch (matches ed) active = Some m
       /\ redPlayerId m = Some redP /\ redP <> ""
       /\ whitePlayerId m = Some whiteP /\ whiteP <> ""
       /\ submitScore now st
          = {| next := clearActive
                         (persistTournament now
                            (set_matches ed
                               (scoredMatches (matches ed) m redP whiteP
                                              (scoreForm st)))
                            st);
               alerts := [] |}.
Proof.
  destruct (activeMatchId st) as [active|] eqn:Hact;
    [|left; unfold submitScore; now rewrite Hact].
  destruct (editorData st) as [ed|] eqn:Hed;
    [|left; unfold submitScore; now rewrite Hact, Hed].
  destruct (findMatch (matches ed) active) as [m|] eqn:Hfind;
    [|left; unfold submitScore; now rewrite Hact, Hed, Hfind].
  destruct (truthyStr_cases (redPlayerId m)) as [Hr|(redP & Hr & Hrne)].
  { left. unfold submitScore. now rewrite Hact, Hed, Hfind, Hr. }
  destruct (truthyStr_cases (whitePlayerId m)) as [Hw|(whiteP & Hw & Hwne)].
  { left. unfold submitScore. rewrite Hact, Hed, Hfind, Hw.
    now rewrite orb_true_r. }
  destruct (Z.eq_dec (form_red (scoreForm st)) (form_white (scoreForm st)))
    as [Heq|Hne].
  - right; left. eapply submitScore_level; eassumption.
  - right; right. exists ed, active, m, redP, whiteP.
    repeat (split; [first [assumption | reflexivity]|]).
    eapply submitScore_decided; eassumption.
Qed.

Lemma handleWalkover_cases confirmed now matchId st :
  handleWalkover confirmed now matchId st = silent st
  \/ handleWalkover confirmed now matchId st
     = {| next := st; alerts := [walkoverAlert] |}
  \/ exists ed m w,
       editorData st = Some ed
       /\ findMatch (matches ed) matchId = Some m
       /\ (if JS.truthyStr (redPlayerId m) then redPlayerId m
           else whitePlayerId m) = Some w
       /\ w <> ""
       /\ handleWalkover confirmed now matchId st
          = {| next := persistTournament now
                         (set_matches ed
                            (routeTo (setResult (matches ed) matchId
                                                (walkoverResult w))
                                     (winnerToMatchId m) w (winnerToSlot m)
                                     (JS.filterBoolean
                                        [redPlayerId m; whitePlayerId m])))
                         st;
               alerts := [] |}.
Proof.
  destruct (editorData st) as [ed|] eqn:Hed;
    [|left; unfold handleWalkover; now rewrite Hed].
  destruct confirmed; [|left; unfold handleWalkover; now rewrite Hed].
  destruct (findMatch (matches ed) matchId) as [m|] eqn:Hfind;
    [|left; unfold handleWalkover; now rewrite Hed, Hfind].
  destruct (truthyStr_cases
              (if JS.truthyStr (redPlayerId m) then redPlayerId m
               else whitePlayerId m)) as [Hnone|(w & Hw & Hne)].
  - right; left. unfold handleWalkover. rewrite Hed, Hfind. cbn [negb].
    now rewrite Hnone.
  - right; right. exists ed, m, w. repeat (split; [first [assumption | reflexivity]|]).
    now apply handleWalkover_advances.
Qed.

(** ** Neither handler changes the shape of the bracket *)

Lemma sameShape_refl m : sameShape m m.
Proof. repeat split; auto. Qed.

Lemma sameShape_trans m1 m2 m3 :
  sameShape m1 m2 -> sameShape m2 m3 -> sameShape m1 m3.
Proof.
  intros (a1 & a2 & a3 & a4 & a5 & a6) (b1 & b2 & b3 & b4 & b5 & b6).
  repeat split; try congruence. auto.
Qed.

Lemma Forall2_map_self {A} (R : A -> A -> Prop) (f : A -> A) (l : list A) :
  (forall x, R x (f x)) -> Forall2 R l (map f l).
Proof. intros H. induction l; cbn; constructor; auto. Qed.

Lemma Forall2_sameShape_trans l1 l2 l3 :
  Forall2 sameShape l1 l2 -> Forall2 sameShape l2 l3 -> Forall2 sameShape l1 l3.
Proof.
  intros H. revert l3. induction H; intros l3 H3; inversion H3; subst;
    constructor; eauto using sameShape_trans.
Qed.

Lemma placeInTarget_sameShape x p slot sp :
  sameShape x (placeInTarget x p slot sp).
Proof.
  unfold placeInTarget.
  destruct slot as [[|]|]; try (repeat split; now auto).
  repeat match goal with
         | |- context [if ?c then _ else _] => destruct c
         end; repeat split; auto.
Qed.

Lemma routeTo_sameShape ms to p slot sp :
  Forall2 sameShape ms (routeTo ms to p slot sp).
Proof.
  unfold routeTo.
  destruct (JS.truthyNum to);
    [|apply Forall2_same_length_lookup_2; [reflexivity|];
      intros i x y Hx Hy; rewrite Hx in Hy; injection Hy as <-;
      apply sameShape_refl].
  destruct to as [t|];
    [|apply Forall2_same_length_lookup_2; [reflexivity|];
      intros i x y Hx Hy; rewrite Hx in Hy; injection Hy as <-;
      apply sameShape_refl].
  unfold placePlayerInMatch. apply Forall2_map_self. intros x.
  destruct (match_id x =? t);
    [apply placeInTarget_sameShape | apply sameShape_refl].
Qed.

Lemma setResult_sameShape ms matchId r :
  Forall2 sameShape ms (setResult ms matchId r).
Proof.
  unfold setResult. apply Forall2_map_self. intros x.
  destruct (match_id x =? matchId); [|apply sameShape_refl].
  repeat split; cbn; eauto.
Qed.

Lemma sameBracket_refl ed : sameBracket ed ed.
Proof.
  repeat split. apply Forall2_same_length_lookup_2; [reflexivity|].
  intros i x y Hx Hy. rewrite Hx in Hy. injection Hy as <-. apply sameShape_refl.
Qed.

Lemma submitScore_sameBracket now st ed :
  editorData st = Some ed ->
  exists ed', editorData (next (submitScore now st)) = Some ed'
              /\ sameBracket ed ed'.
Proof.
  intros Hed.
  destruct (submitScore_cases now st)
    as [-> | [-> | (ed0 & active & m & redP & whiteP & Hed0 & _ & _ & _ & _
                    & _ & _ & ->)]].
  - exists ed. split; [assumption | apply sameBracket_refl].
  - exists ed. split; [assumption | apply sameBracket_refl].
  - rewrite Hed in Hed0. injection Hed0 as <-.
    eexists. split; [reflexivity|]. repeat split.
    cbn [matches set_lastUpdated set_matches]. unfold scoredMatches.
    eapply Forall2_sameShape_trans; [|apply routeTo_sameShape].
    eapply Forall2_sameShape_trans; [|apply routeTo_sameShape].
    apply setResult_sameShape.
Qed.

Lemma handleWalkover_sameBracket confirmed now matchId st ed :
  editorData st = Some ed ->
  exists ed', editorData (next (handleWalkover confirmed now matchId st))
              = Some ed'
              /\ sameBracket ed ed'.
Proof.
  intros Hed.
  destruct (handleWalkover_cases confirmed now matchId st)
    as [-> | [-> | (ed0 & m & w & Hed0 & _ & _ & _ & ->)]].
  - exists ed. split; [assumption | apply sameBracket_refl].
  - exists ed. split; [assumption | apply sameBracket_refl].
  - rewrite Hed in Hed0. injection Hed0 as <-.
    eexists. split; [reflexivity|]. repeat split.
    cbn [matches set_lastUpdated set_matches].
    eapply Forall2_sameShape_trans; [|apply routeTo_sameShape].
    apply setResult_sameShape.
Qed.

(** X3. Neither [submitScore] nor [handleWalkover] changes the shape
    of the open tournament: its id, title, players, match count and
    status stay, the matches keep their number, order, ids and edges,
    and no match loses a result. *)
Theorem handlers_keep_bracket_shape :
  forall (now : Z) (st : AppState) (ed : TournamentData)
         (confirmed : bool) (matchId : Z),
    editorData st = Some ed ->
    (exists ed', editorData (next (submitScore now st)) = Some ed'
                 /\ sameBracket ed ed')
    /\ (exists ed', editorData (next (handleWalkover confirmed now matchId st))
                    = Some ed'
                    /\ sameBracket ed ed').
Proof.
  intros now st ed confirmed matchId Hed. split.
  - now apply submitScore_sameBracket.
  - now apply handleWalkover_sameBracket.
Qed.

(** ** Commands that are ignored *)

(** X5. Unless there is an open tournament, an active match id that
    exists in it, and a player in both of its slots, [submitScore]
    does nothing: the state is unchanged and no alert is shown. *)
Theorem submitScore_ignored_without_ready_match :
  forall (now : Z) (st : AppState),
    (forall ed active m,
        editorData st = Some ed -> activeMatchId st = Some active ->
        findMatch (matches ed) active = Some m ->
        vacant (redPlayerId m) \/ vacant (whitePlayerId m)) ->
    submitScore now st = {| next := st; alerts := [] |}.
Proof.
  intros now st H.
  destruct (submitScore_cases now st)
    as [E | [E | (ed & active & m & redP & whiteP & Hed & Hact & Hfind & Hr
                  & Hrne & Hw & Hwne & _)]].
  - exact E.
  - exfalso. unfold submitScore in E.
    destruct (activeMatchId st) as [active|] eqn:Hact; [|discriminate].
    destruct (editorData st) as [ed|] eqn:Hed; [|discriminate].
    destruct (findMatch (matches ed) active) as [m|] eqn:Hfind; [|discriminate].
    destruct (H ed active m eq_refl eq_refl Hfind) as [Hv|Hv];
      unfold vacant in Hv; rewrite Hv in E;
      rewrite ?orb_true_r in E; discriminate.
  - exfalso. apply truthyStr_Some in Hrne, Hwne.
    destruct (H ed active m Hed Hact Hfind) as [Hv|Hv]; unfold vacant in Hv;
      congruence.
Qed.

Lemma submitScore_ignored_without_ready_match_witness :
  submitScore 7 (onScore 9 (demoState readyBracket))
  = {| next := onScore 9 (demoState readyBracket); alerts := [] |}.
Proof.
  apply submitScore_ignored_without_ready_match.
  intros ed active m Hed Hact Hfind.
  injection Hed as <-. injection Hact as <-. discriminate Hfind.
Defined.

(** X6. A walkover that is declined in the confirm dialog, or that
    names a match id the open tournament does not have, does nothing:
    the state is unchanged and no alert is shown. *)
Theorem handleWalkover_ignored :
  forall (confirmed : bool) (now matchId : Z) (st : AppState),
    (confirmed = true ->
     forall ed, editorData st = Some ed ->
                findMatch (matches ed) matchId = None) ->
    handleWalkover confirmed now matchId st = {| next := st; alerts := [] |}.
Proof.
  intros confirmed now matchId st H. unfold handleWalkover.
  destruct (editorData st) as [ed|]; [|reflexivity].
  destruct confirmed; [|reflexivity]. cbn [negb].
  now rewrite (H eq_refl ed eq_refl).
Qed.

Lemma handleWalkover_ignored_witness :
  handleWalkover true 7 9 (demoState byeBracket)
  = {| next := demoState byeBracket; alerts := [] |}.
Proof.
  apply handleWalkover_ignored. intros _ ed Hed. injection Hed as <-.
  reflexivity.
Defined.

(** ** Where the winner and the loser end up *)

Lemma placePlayerInMatch_explicit_at ms t p s sp :
  Forall (fun x => slotOf s x = Some p)
         (matchesWithId (placePlayerInMatch ms t p (Some s) sp) t).
Proof.
  unfold matchesWithId, placePlayerInMatch.
  induction ms as [|m ms IH]; [constructor|]. cbn [map List.filter].
  destruct (match_id m =? t) eqn:Ht.
  - rewrite placeInTarget_id, Ht. constructor; [|exact IH].
    destruct s; reflexivity.
  - rewrite Ht. exact IH.
Qed.

Lemma truthyNum_Some t : t <> 0 -> JS.truthyNum (Some t) = true.
Proof. intros H. cbn. now apply negb_true_iff, Z.eqb_neq. Qed.

(** X7. After a decided [submitScore], a loser edge with an explicit
    slot leaves the loser in that slot of every match with the target
    id; a winner edge with an explicit slot does the same for the
    winner when the loser edge points elsewhere. *)
Theorem submitScore_routes_to_explicit_slots :
  forall (now : Z) (st : AppState) (ed : TournamentData) (active : Z)
         (m : Match) (redP whiteP : string),
    editorData st = Some ed ->
    activeMatchId st = Some active ->
    findMatch (matches ed) active = Some m ->
    redPlayerId m = Some redP -> redP <> "" ->
    whitePlayerId m = Some whiteP -> whiteP <> "" ->
    form_red (scoreForm st) <> form_white (scoreForm st) ->
    exists ed',
      editorData (next (submitScore now st)) = Some ed'
      /\ (forall t s,
             loserToMatchId m = Some t -> t <> 0 -> loserToSlot m = Some s ->
             Forall (fun x => slotOf s x
                              = Some (decidedLoser (form_red (scoreForm st))
                                        (form_white (scoreForm st)) redP whiteP))
                    (matchesWithId (matches ed') t))
      /\ (forall t s,
             winnerToMatchId m = Some t -> t <> 0 -> winnerToSlot m = Some s ->
             loserToMatchId m <> Some t ->
             Forall (fun x => slotOf s x
                              = Some (decidedWinner (form_red (scoreForm st))
                                        (form_white (scoreForm st)) redP whiteP))
                    (matchesWithId (matches ed') t)).
Proof.
  intros now st ed active m redP whiteP Hed Hact Hfind Hr Hrne Hw Hwne Hrw.
  rewrite (submitScore_decided now st ed active m redP whiteP) by assumption.
  eexists. split; [reflexivity|].
  cbn [matches set_lastUpdated set_matches]. unfold scoredMatches. split.
  - intros t s Ht Ht0 Hs. rewrite Ht, Hs. unfold routeTo at 1.
    rewrite truthyNum_Some by assumption.
    apply placePlayerInMatch_explicit_at.
  - intros t s Ht Ht0 Hs Hl.
    rewrite routeTo_other by assumption.
    rewrite Ht, Hs. unfold routeTo.
    rewrite truthyNum_Some by assumption.
    apply placePlayerInMatch_explicit_at.
Qed.

(** ** Correcting a result *)

Lemma routeTo_pointwise ms to p slot sp :
  routeTo ms to p slot sp = map (routeOne to p slot sp) ms.
Proof.
  unfold routeTo, routeOne, targets.
  destruct (JS.truthyNum to) eqn:Ht.
  - destruct to as [t|]; [|discriminate]. unfold placePlayerInMatch.
    apply map_ext. intros x. cbn [andb JS.eqNum]. now rewrite Z.eqb_sym.
  - cbn [andb]. symmetry. apply map_id.
Qed.

Lemma routeOne_id to p slot sp x :
  match_id (routeOne to p slot sp x) = match_id x.
Proof.
  unfold routeOne. destruct (targets to x); [apply placeInTarget_id | reflexivity].
Qed.

Lemma targets_id to x y : match_id x = match_id y -> targets to x = targets to y.
Proof. unfold targets. now intros ->. Qed.

Lemma targets_both to to' x :
  targets to x = true -> targets to' x = true -> to = to'.
Proof.
  unfold targets. rewrite !andb_true_iff, !eqNum_Some. intros [_ ->] [_ ->].
  reflexivity.
Qed.

Lemma targets_self to x : targets to x = true -> to = Some (match_id x).
Proof. unfold targets. rewrite andb_true_iff, eqNum_Some. tauto. Qed.

Lemma routeOne_absorbs to a b slot sp x :
  slot <> None \/ (In a sp /\ a <> "") ->
  routeOne to b slot sp (routeOne to a slot sp x) = routeOne to b slot sp x.
Proof.
  intros H. unfold routeOne at 2.
  destruct (targets to x) eqn:Ht.
  - unfold routeOne. rewrite (targets_id to _ x) by apply placeInTarget_id.
    rewrite Ht. now apply placeInTarget_absorbs.
  - reflexivity.
Qed.

Lemma routeOne_miss to p slot sp x :
  targets to x = false -> routeOne to p slot sp x = x.
Proof. unfold routeOne. now intros ->. Qed.

Lemma scoredMatches_pointwise ms m redP whiteP f :
  scoredMatches ms m redP whiteP f
  = map (fun x =>
           routeOne (loserToMatchId m)
             (decidedLoser (form_red f) (form_white f) redP whiteP)
             (loserToSlot m) [redP; whiteP]
             (routeOne (winnerToMatchId m)
                (decidedWinner (form_red f) (form_white f) redP whiteP)
                (winnerToSlot m) [redP; whiteP]
                (setOne (match_id m)
                   {| winnerId := decidedWinner (form_red f) (form_white f)
                                    redP whiteP;
                      redScore := form_red f; whiteScore := form_white f;
                      details := form_details f |} x))) ms.
Proof.
  unfold scoredMatches. rewrite !routeTo_pointwise. unfold setResult.
  rewrite !map_map. reflexivity.
Qed.

Lemma decidedWinner_participant r w redP whiteP :
  redP <> "" -> whiteP <> "" ->
  In (decidedWinner r w redP whiteP) [redP; whiteP]
  /\ decidedWinner r w redP whiteP <> "".
Proof.
  intros Hr Hw. unfold decidedWinner. destruct (r >? w); cbn; auto.
Qed.

Lemma decidedLoser_participant r w redP whiteP :
  redP <> "" -> whiteP <> "" ->
  In (decidedLoser r w redP whiteP) [redP; whiteP]
  /\ decidedLoser r w redP whiteP <> "".
Proof.
  intros Hr Hw. unfold decidedLoser. destruct (r >? w); cbn; auto.
Qed.

Lemma findMatch_map (g : Match -> Match) ms matchId :
  (forall x, match_id (g x) = match_id x) ->
  findMatch (map g ms) matchId = option_map g (findMatch ms matchId).
Proof.
  intros Hg. unfold findMatch. induction ms as [|x ms IH]; [reflexivity|].
  cbn [map List.find]. rewrite Hg.
  destruct (match_id x =? matchId); [reflexivity | exact IH].
Qed.

Lemma persistTournament_ext now d d' st :
  set_lastUpdated d now = set_lastUpdated d' now ->
  persistTournament now d st = persistTournament now d' st.
Proof. intros H. unfold persistTournament. now rewrite H. Qed.

Section Resubmission.

Variables (m : Match) (redP whiteP : string).
Hypothesis Hred : redP <> "".
Hypothesis Hwhite : whiteP <> "".
Hypothesis Hwself : winnerToMatchId m <> Some (match_id m).
Hypothesis Hlself : loserToMatchId m <> Some (match_id m).
Hypothesis Hapart :
  winnerToMatchId m <> loserToMatchId m \/ loserToMatchId m = None.

Let step (f : ScoreForm) (x : Match) : Match :=
  routeOne (loserToMatchId m)
    (decidedLoser (form_red f) (form_white f) redP whiteP)
    (loserToSlot m) [redP; whiteP]
    (routeOne (winnerToMatchId m)
       (decidedWinner (form_red f) (form_white f) redP whiteP)
       (winnerToSlot m) [redP; whiteP]
       (setOne (match_id m)
          {| winnerId := decidedWinner (form_red f) (form_white f) redP whiteP;
             redScore := form_red f; whiteScore := form_white f;
             details := form_details f |} x)).

Lemma step_id f x : match_id (step f x) = match_id x.
Proof.
  unfold step. rewrite !routeOne_id. unfold setOne.
  destruct (match_id x =? match_id m); reflexivity.
Qed.

Lemma step_at_source f x :
  match_id x = match_id m ->
  step f x = set_result x
               (Some {| winnerId := decidedWinner (form_red f) (form_white f)
                                      redP whiteP;
                        redScore := form_red f; whiteScore := form_white f;
                        details := form_details f |}).
Proof.
  intros Hx. unfold step, setOne. rewrite Hx, Z.eqb_refl.
  assert (Hmiss : forall to y, to <> Some (match_id m) ->
                               match_id y = match_id m -> targets to y = false).
  { intros to y Hto Hy. destruct (targets to y) eqn:Ht; [|reflexivity].
    apply targets_self in Ht. congruence. }
  rewrite (routeOne_miss (winnerToMatchId m)) by (now apply Hmiss).
  rewrite (routeOne_miss (loserToMatchId m)) by (now apply Hmiss).
  reflexivity.
Qed.

Lemma step_step f1 f2 x : step f2 (step f1 x) = step f2 x.
Proof.
  destruct (match_id x =? match_id m) eqn:Hx.
  - apply Z.eqb_eq in Hx. rewrite (step_at_source f1 x Hx).
    rewrite !step_at_source by (cbn; assumption). reflexivity.
  - unfold step, setOne. rewrite Hx.
    rewrite !routeOne_id, Hx.
    destruct (decidedWinner_participant (form_red f1) (form_white f1)
                redP whiteP Hred Hwhite) as [Hw1 Hw1'].
    destruct (decidedLoser_participant (form_red f1) (form_white f1)
                redP whiteP Hred Hwhite) as [Hl1 Hl1'].
    assert (Hmiss : forall to p slot sp y,
               targets to x = false -> match_id y = match_id x ->
               routeOne to p slot sp y = y).
    { intros to p slot sp y Ht Hy. apply routeOne_miss.
      rewrite <- Ht. now apply targets_id. }
    destruct (targets (loserToMatchId m) x) eqn:Hl.
    + assert (Hw : targets (winnerToMatchId m) x = false).
      { destruct (targets (winnerToMatchId m) x) eqn:Hw; [|reflexivity].
        pose proof (targets_both _ _ _ Hw Hl) as Heq.
        apply targets_self in Hl.
        destruct Hapart as [Hne|Hnone]; congruence. }
      rewrite !(Hmiss (winnerToMatchId m)) by
        (first [exact Hw | now rewrite ?routeOne_id]).
      apply routeOne_absorbs. now right.
    + rewrite !(Hmiss (loserToMatchId m)) by
        (first [exact Hl | now rewrite ?routeOne_id]).
      apply routeOne_absorbs. now right.
Qed.

End Resubmission.

Lemma scoredMatches_again ms m redP whiteP f1 f2 r1 :
  redP <> "" -> whiteP <> "" ->
  winnerToMatchId m <> Some (match_id m) ->
  loserToMatchId m <> Some (match_id m) ->
  winnerToMatchId m <> loserToMatchId m \/ loserToMatchId m = None ->
  scoredMatches (scoredMatches ms m redP whiteP f1) (set_result m r1)
                redP whiteP f2
  = scoredMatches ms m redP whiteP f2.
Proof.
  intros Hr Hw Hws Hls Hap.
  rewrite !scoredMatches_pointwise, map_map.
  cbn [match_id winnerToMatchId winnerToSlot loserToMatchId loserToSlot
       set_result].
  apply map_ext. intros x.
  apply (step_step m redP whiteP Hr Hw Hws Hls Hap f1 f2 x).
Qed.

(** X8. Scoring a match a second time leaves the whole state as if
    only the second score had been entered, provided neither edge of
    the match points back at it and the two edges point at different
    matches (or there is no loser edge). *)
Theorem resubmitting_keeps_only_the_last_result :
  forall (now1 now2 matchId r1 w1 r2 w2 : Z) (det1 det2 : string)
         (st : AppState) (ed : TournamentData) (m : Match)
         (redP whiteP : string),
    editorData st = Some ed ->
    findMatch (matches ed) matchId = Some m ->
    redPlayerId m = Some redP -> redP <> "" ->
    whitePlayerId m = Some whiteP -> whiteP <> "" ->
    r1 <> w1 -> r2 <> w2 ->
    winnerToMatchId m <> Some matchId ->
    loserToMatchId m <> Some matchId ->
    winnerToMatchId m <> loserToMatchId m \/ loserToMatchId m = None ->
    submitWith now2 matchId r2 w2 det2 (submitWith now1 matchId r1 w1 det1 st)
    = submitWith now2 matchId r2 w2 det2 st.
Proof.
  intros now1 now2 matchId r1 w1 r2 w2 det1 det2 st ed m redP whiteP
         Hed Hfind Hr Hrne Hw Hwne H1 H2 Hws Hls Hap.
  pose proof (findMatch_id _ _ _ Hfind) as Hid. subst matchId.
  set (f1 := {| form_red := r1; form_white := w1; form_details := det1 |}).
  set (f2 := {| form_red := r2; form_white := w2; form_details := det2 |}).
  assert (E1 : submitWith now1 (match_id m) r1 w1 det1 st
               = clearActive
                   (persistTournament now1
                      (set_matches ed (scoredMatches (matches ed) m redP whiteP f1))
                      (setScoreForm f1 (onScore (match_id m) st)))).
  { unfold submitWith.
    now rewrite (submitScore_decided now1 _ ed (match_id m) m redP whiteP). }
  assert (E2 : submitWith now2 (match_id m) r2 w2 det2 st
               = clearActive
                   (persistTournament now2
                      (set_matches ed (scoredMatches (matches ed) m redP whiteP f2))
                      (setScoreForm f2 (onScore (match_id m) st)))).
  { unfold submitWith.
    now rewrite (submitScore_decided now2 _ ed (match_id m) m redP whiteP). }
  rewrite E2.
  set (st1 := submitWith now1 (match_id m) r1 w1 det1 st) in *.
  set (ms1 := scoredMatches (matches ed) m redP whiteP f1) in *.
  set (ed1 := set_lastUpdated (set_matches ed ms1) now1).
  assert (Hed1 : editorData st1 = Some ed1) by (rewrite E1; reflexivity).
  assert (Hfind1 : findMatch (matches ed1) (match_id m)
                   = Some (set_result m
                             (Some {| winnerId := decidedWinner r1 w1 redP whiteP;
                                      redScore := r1; whiteScore := w1;
                                      details := det1 |}))).
  { cbn [ed1 matches set_lastUpdated set_matches]. unfold ms1.
    rewrite scoredMatches_pointwise.
    rewrite findMatch_map by (intros x; apply (step_id m redP whiteP)).
    rewrite Hfind. cbn [option_map]. f_equal.
    now apply (step_at_source m redP whiteP Hws Hls f1). }
  change (submitWith now2 (match_id m) r2 w2 det2 st1)
    with (next (submitScore now2 (setScoreForm f2 (onScore (match_id m) st1)))).
  rewrite (submitScore_decided now2
             (setScoreForm f2 (onScore (match_id m) st1))
             ed1 (match_id m) _ redP whiteP
             Hed1 eq_refl Hfind1 Hr Hrne Hw Hwne H2).
  cbn [next scoreForm setScoreForm]. fold f2.
  f_equal.
  replace (setScoreForm f2 (onScore (match_id m) st1))
    with (persistTournament now1 (set_matches ed ms1)
            (setScoreForm f2 (onScore (match_id m) st)))
    by (rewrite E1; reflexivity).
  rewrite persistTournament_twice by reflexivity.
  apply persistTournament_ext.
  cbn [ed1 matches set_lastUpdated set_matches]. unfold ms1.
  rewrite scoredMatches_again by assumption. reflexivity.
Qed.

Lemma resubmitting_keeps_only_the_last_result_witness :
  submitWith 20 1 0 2 "kote" (submitWith 10 1 3 1 "men"
                                (demoState (scenarioMatches "p1" "p2" "p3" "p4")))
  = submitWith 20 1 0 2 "kote" (demoState (scenarioMatches "p1" "p2" "p3" "p4")).
Proof.
  apply (resubmitting_keeps_only_the_last_result 10 20 1 3 1 0 2 "men" "kote"
           _ (demoTournament (scenarioMatches "p1" "p2" "p3" "p4"))
           (Build_Match 1 (Some "p1") (Some "p2") (Some 3) (Some red)
                        None None None) "p1" "p2");
    try reflexivity; try discriminate.
  now right.
Defined.


(** ** Slot sources and the waiting labels *)

Lemma countMatch_red matchId acc m :
  incoming_red (countMatch matchId acc m)
  = incoming_red acc + Z.of_nat (length (slotSourcesOf matchId red m)).
Proof.
  unfold countMatch, slotSourcesOf, countEdge.
  destruct (JS.eqNum (winnerToMatchId m) matchId),
           (JS.eqNum (loserToMatchId m) matchId),
           (winnerToSlot m) as [[|]|], (loserToSlot m) as [[|]|];
    cbn; lia.
Qed.

Lemma countMatch_white matchId acc m :
  incoming_white (countMatch matchId acc m)
  = incoming_white acc + Z.of_nat (length (slotSourcesOf matchId white m)).
Proof.
  unfold countMatch, slotSourcesOf, countEdge.
  destruct (JS.eqNum (winnerToMatchId m) matchId),
           (JS.eqNum (loserToMatchId m) matchId),
           (winnerToSlot m) as [[|]|], (loserToSlot m) as [[|]|];
    cbn; lia.
Qed.

Lemma count_fold matchId ms acc :
  incoming_red (fold_left (countMatch matchId) ms acc)
  = incoming_red acc
    + Z.of_nat (length (flat_map (slotSourcesOf matchId red) ms))
  /\ incoming_white (fold_left (countMatch matchId) ms acc)
     = incoming_white acc
       + Z.of_nat (length (flat_map (slotSourcesOf matchId white) ms)).
Proof.
  revert acc. induction ms as [|m ms IH]; intros acc; cbn [fold_left flat_map].
  - cbn. lia.
  - destruct (IH (countMatch matchId acc m)) as [-> ->].
    rewrite countMatch_red, countMatch_white, !length_app. lia.
Qed.

Lemma incomingOf_length (st : AppState) (matchId : Z) (slot : Slot) :
  incomingOf (getIncomingSources st matchId) slot
  = Z.of_nat (length (getSlotSource st matchId slot)).
Proof.
  unfold getIncomingSources, getSlotSource.
  destruct (editorData st) as [ed|]; [|destruct slot; reflexivity].
  destruct (count_fold matchId (matches ed)
              {| incoming_red := 0; incoming_white := 0 |}) as [Hr Hw].
  destruct slot; cbn [incomingOf]; [rewrite Hr | rewrite Hw]; cbn; lia.
Qed.

Lemma slotSourcesOf_nil matchId slot m :
  slotSourcesOf matchId slot m = []
  <-> feedsSlotAsWinner matchId slot m = false
      /\ feedsSlotAsLoser matchId slot m = false.
Proof.
  unfold slotSourcesOf, feedsSlotAsWinner, feedsSlotAsLoser.
  destruct (JS.eqNum (winnerToMatchId m) matchId),
           (JS.eqNum (loserToMatchId m) matchId),
           (winnerToSlot m) as [[|]|], (loserToSlot m) as [[|]|], slot;
    cbn; split; intros H; try discriminate H; try (destruct H; discriminate);
    auto.
Qed.

Lemma find_none_iff {A} (p : A -> bool) l :
  List.find p l = None <-> Forall (fun x => p x = false) l.
Proof.
  induction l as [|x l IH]; cbn.
  - split; constructor.
  - destruct (p x) eqn:Hx.
    + split; [discriminate | intros H; inversion H; congruence].
    + rewrite IH. split; [now constructor | intros H; now inversion H].
Qed.

Lemma flat_map_nil_iff {A B} (f : A -> list B) l :
  flat_map f l = [] <-> Forall (fun x => f x = []) l.
Proof.
  induction l as [|x l IH]; cbn.
  - split; constructor.
  - split.
    + intros H. apply app_eq_nil in H as [H1 H2]. constructor; [assumption|].
      now apply IH.
    + intros H. inversion H as [|? ? H1 H2]; subst. rewrite H1. now apply IH.
Qed.

Lemma waiting_label_never_plain (prefix : string) (n : Z) :
  prefix = "Wait W-#" \/ prefix = "Wait L-#" ->
  prefix +:+ pretty n <> waitingText.
Proof. intros [-> | ->]; cbn; discriminate. Qed.

(** X15. The tree labels an empty slot with the plain "Waiting..."
    text exactly when [getSlotSource] finds no source for it, which is
    exactly when the slot's [getIncomingSources] counter is 0. *)
Theorem waiting_label_plain_iff_no_source :
  forall (st : AppState) (ed : TournamentData) (matchId : Z) (slot : Slot),
    editorData st = Some ed ->
    (getWaitingLabel (matches ed) matchId slot = "Waiting..."
     <-> getSlotSource st matchId slot = [])
    /\ (getSlotSource st matchId slot = []
        <-> incomingOf (getIncomingSources st matchId) slot = 0).
Proof.
  intros st ed matchId slot Hed. split.
  - unfold getSlotSource, getWaitingLabel. rewrite Hed.
    rewrite flat_map_nil_iff.
    destruct (List.find (feedsSlotAsWinner matchId slot) (matches ed))
      as [w|] eqn:Hw.
    + split.
      * intros H. now apply waiting_label_never_plain in H; [|left].
      * intros H. apply find_some in Hw as [Hin Hw].
        rewrite List.Forall_forall in H. apply H, slotSourcesOf_nil in Hin.
        destruct Hin. congruence.
    + destruct (List.find (feedsSlotAsLoser matchId slot) (matches ed))
        as [l|] eqn:Hl.
      * split.
        -- intros H. now apply waiting_label_never_plain in H; [|right].
        -- intros H. apply find_some in Hl as [Hin Hl].
           rewrite List.Forall_forall in H. apply H, slotSourcesOf_nil in Hin.
           destruct Hin. congruence.
      * split; [|reflexivity]. intros _.
        apply find_none_iff in Hw, Hl.
        rewrite List.Forall_forall in *. intros x Hx.
        apply slotSourcesOf_nil. auto.
  - rewrite incomingOf_length.
    destruct (getSlotSource st matchId slot); cbn; split; intros H;
      try reflexivity; try discriminate H; lia.
Qed.

Lemma waiting_label_plain_iff_no_source_witness :
  (getWaitingLabel byeBracket 3 red = "Waiting..."
   <-> getSlotSource (demoState byeBracket) 3 red = [])
  /\ (getSlotSource (demoState byeBracket) 3 red = []
      <-> incomingOf (getIncomingSources (demoState byeBracket) 3) red = 0).
Proof.
  apply (waiting_label_plain_iff_no_source (demoState byeBracket)
           (demoTournament byeBracket) 3 red).
  reflexivity.
Defined.

(** X14. For either slot, the counter [getIncomingSources] returns is
    the number of entries [getSlotSource] returns (an Auto edge counts
    for both slots in both). *)
Theorem incoming_counts_the_sources :
  forall (st : AppState) (matchId : Z) (slot : Slot),
    incomingOf (getIncomingSources st matchId) slot
    = Z.of_nat (length (getSlotSource st matchId slot)).
Proof.
  intros st matchId slot.
  unfold getIncomingSources, getSlotSource.
  destruct (editorData st) as [ed|]; [|destruct slot; reflexivity].
  destruct (count_fold matchId (matches ed)
              {| incoming_red := 0; incoming_white := 0 |}) as [Hr Hw].
  destruct slot; cbn [incomingOf]; [rewrite Hr | rewrite Hw]; cbn; lia.
Qed.

(** ** What a walkover leaves in the state *)

Lemma setResult_pointwise ms matchId r :
  setResult ms matchId r = map (setOne matchId r) ms.
Proof. reflexivity. Qed.

Lemma routeOne_result to p slot sp x :
  result (routeOne to p slot sp x) = result x.
Proof.
  unfold routeOne. destruct (targets to x);
    [apply placeInTarget_result | reflexivity].
Qed.

Lemma setOne_id matchId r x : match_id (setOne matchId r x) = match_id x.
Proof. unfold setOne. destruct (match_id x =? matchId); reflexivity. Qed.

Lemma findMatch_routed ms matchId r to p slot sp i :
  findMatch (routeTo (setResult ms matchId r) to p slot sp) i
  = option_map (fun x => routeOne to p slot sp (setOne matchId r x))
               (findMatch ms i).
Proof.
  rewrite routeTo_pointwise, setResult_pointwise, map_map.
  apply findMatch_map. intros x. now rewrite routeOne_id, setOne_id.
Qed.

(** The state after a walkover that found a winner, read field by
    field: no alert; the editor and the stored list hold the new
    snapshot; the match carries the walkover result; the winner-edge
    target, when it is another match, holds the winner. *)
Lemma handleWalkover_recorded now st ed matchId m w :
  editorData st = Some ed ->
  findMatch (matches ed) matchId = Some m ->
  (if JS.truthyStr (redPlayerId m) then redPlayerId m else whitePlayerId m)
  = Some w ->
  w <> "" ->
  exists ed',
    alerts (handleWalkover true now matchId st) = []
    /\ editorData (next (handleWalkover true now matchId st)) = Some ed'
    /\ List.find (hasId (tournament_id ed))
                 (tournaments (next (handleWalkover true now matchId st)))
       = Some ed'
    /\ matches ed'
       = routeTo (setResult (matches ed) matchId (walkoverResult w))
                 (winnerToMatchId m) w (winnerToSlot m)
                 (JS.filterBoolean [redPlayerId m; whitePlayerId m])
    /\ (exists m', findMatch (matches ed') matchId = Some m'
                   /\ result m' = Some (walkoverResult w))
    /\ (forall t x,
           winnerToMatchId m = Some t -> t <> 0 -> t <> matchId ->
           findMatch (matches ed) t = Some x ->
           exists x',
             findMatch (matches ed') t = Some x'
             /\ match winnerToSlot m with
                | Some s => slotOf s x' = Some w
                | None =>
                    AutoPolicy
                      (JS.filterBoolean [redPlayerId m; whitePlayerId m])
                      w x x'
                end).
Proof.
  intros Hed Hfind Hsel Hne.
  rewrite (handleWalkover_advances now st ed matchId m w Hed Hfind Hsel Hne).
  cbn [next alerts]. eexists.
  split; [reflexivity|]. split; [reflexivity|]. split.
  { rewrite persistTournament_tournaments.
    apply (upsert_find (set_lastUpdated (set_matches ed _) now)). }
  cbn [matches set_lastUpdated set_matches].
  split; [reflexivity|]. split.
  - rewrite findMatch_routed, Hfind. cbn [option_map].
    eexists. split; [reflexivity|].
    rewrite routeOne_result. unfold setOne.
    rewrite (findMatch_id _ _ _ Hfind), Z.eqb_refl. reflexivity.
  - intros t x Ht Ht0 Hself Hx.
    rewrite findMatch_routed, Hx. cbn [option_map].
    eexists. split; [reflexivity|].
    pose proof (findMatch_id _ _ _ Hx) as Hxid.
    assert (Hset : setOne matchId (walkoverResult w) x = x).
    { unfold setOne. rewrite Hxid.
      replace (t =? matchId) with false by lia. reflexivity. }
    rewrite Hset.
    assert (Htar : targets (winnerToMatchId m) x = true).
    { unfold targets. rewrite Ht, Hxid. cbn [JS.truthyNum JS.eqNum].
      rewrite Z.eqb_refl. replace (t =? 0) with false by lia. reflexivity. }
    unfold routeOne. rewrite Htar.
    destruct (winnerToSlot m) as [[|]|];
      [reflexivity | reflexivity | apply placeInTarget_auto].
Qed.

(** C10. On an unfinished match with both slots occupied a confirmed
    walkover does not fail. No alert is shown; the state it returns
    holds, in the editor and in the stored list, a snapshot in which
    the match carries a result with the red-slot occupant as winner,
    scores 0:0 and the walkover details string; and that player has
    been routed along the winner edge: the target match, when it is
    another match, has the player in the edge's slot (or, for an Auto
    edge, in the slot the Auto policy picks). *)
Theorem walkover_both_occupied_red_wins :
  forall (now : Z) (st : AppState) (ed : TournamentData) (matchId : Z)
         (m : Match) (redP whiteP : string),
    editorData st = Some ed ->
    findMatch (matches ed) matchId = Some m ->
    result m = None ->
    redPlayerId m = Some redP -> occupied (redPlayerId m) ->
    whitePlayerId m = Some whiteP -> occupied (whitePlayerId m) ->
    let recorded := {| winnerId := redP; redScore := 0; whiteScore := 0;
                       details := "輪空晉級 (Walkover)" |} in
    exists ed',
      alerts (handleWalkover true now matchId st) = []
      /\ editorData (next (handleWalkover true now matchId st)) = Some ed'
      /\ List.find (hasId (tournament_id ed))
                   (tournaments (next (handleWalkover true now matchId st)))
         = Some ed'
      /\ matches ed'
         = routeTo (setResult (matches ed) matchId recorded)
                   (winnerToMatchId m) redP (winnerToSlot m) [redP; whiteP]
      /\ (exists m', findMatch (matches ed') matchId = Some m'
                     /\ result m' = Some recorded
                     /\ result m' <> result m)
      /\ (forall t x,
             winnerToMatchId m = Some t -> t <> 0 -> t <> matchId ->
             findMatch (matches ed) t = Some x ->
             exists x',
               findMatch (matches ed') t = Some x'
               /\ match winnerToSlot m with
                  | Some s => slotOf s x' = Some redP
                  | None => AutoPolicy [redP; whiteP] redP x x'
                  end)
      /\ handleWalkover true now matchId st
         = {| next := persistTournament now (set_matches ed (matches ed')) st;
              alerts := [] |}.
Proof.
  intros now st ed matchId m redP whiteP Hed Hfind Hnone Hr Hro Hw Hwo.
  cbv zeta.
  assert (Hsel : (if JS.truthyStr (redPlayerId m) then redPlayerId m
                  else whitePlayerId m) = Some redP).
  { unfold occupied in Hro. now rewrite Hro. }
  assert (Hne : redP <> "") by (apply truthyStr_Some; now rewrite <- Hr).
  assert (Hsp : JS.filterBoolean [redPlayerId m; whitePlayerId m]
                = [redP; whiteP]).
  { unfold JS.filterBoolean. cbn [flat_map].
    unfold occupied in Hro, Hwo. rewrite Hro, Hwo, Hr, Hw. reflexivity. }
  destruct (handleWalkover_recorded now st ed matchId m redP Hed Hfind Hsel Hne)
    as (ed' & Halert & Hed' & Hlist & Hms & (m' & Hm' & Hres) & Hroute).
  rewrite Hsp in Hms, Hroute.
  exists ed'. split; [exact Halert|]. split; [exact Hed'|].
  split; [exact Hlist|]. split; [exact Hms|]. split; [|split].
  - exists m'. split; [exact Hm'|]. split; [exact Hres|].
    rewrite Hres, Hnone. discriminate.
  - exact Hroute.
  - rewrite (handleWalkover_advances now st ed matchId m redP Hed Hfind Hsel Hne).
    rewrite Hsp, Hms. reflexivity.
Qed.

Lemma walkover_both_occupied_red_wins_witness :
  exists ed',
    editorData (next (handleWalkover true 7 1 (demoState readyBracket)))
    = Some ed'
    /\ matches ed'
       = [ Build_Match 1 (Some "p1") (Some "p2") (Some 2) None None None
             (Some {| winnerId := "p1"; redScore := 0; whiteScore := 0;
                      details := "輪空晉級 (Walkover)" |});
           Build_Match 2 (Some "p1") None None None None None None ].
Proof.
  destruct (walkover_both_occupied_red_wins 7 (demoState readyBracket)
              (demoTournament readyBracket) 1
              (Build_Match 1 (Some "p1") (Some "p2") (Some 2) None None None None)
              "p1" "p2")
    as (ed' & _ & Hed' & _ & Hms & _); try reflexivity.
  exists ed'. split; [exact Hed'|]. rewrite Hms. reflexivity.
Defined.

(** ** The walkover button *)

Lemma isReady_excludes_bye m redSourceExist whiteSourceExist :
  isReady m = true -> isBye m redSourceExist whiteSourceExist = false.
Proof.
  unfold isReady, isBye. rewrite !andb_true_iff. intros [[Hr Hw] Hres].
  rewrite Hr, Hw, Hres. destruct redSourceExist, whiteSourceExist; reflexivity.
Qed.




(** ** The stable sort really sorts *)

Section SortSorted.

Context {A : Type} (cmp : A -> A -> Z).
Hypothesis cmp_total : forall a b, cmp a b <= 0 \/ cmp b a <= 0.
Hypothesis cmp_trans : forall a b c, cmp a b <= 0 -> cmp b c <= 0 -> cmp a c <= 0.

Lemma insertBy_sorted x l :
  StronglySorted (fun a b => cmp a b <= 0) l ->
  StronglySorted (fun a b => cmp a b <= 0) (JS.insertBy cmp x l).
Proof.
  induction l as [|y l IH]; intros Hs; cbn [JS.insertBy].
  - constructor; constructor.
  - inversion Hs as [|? ? Hl Hy]; subst.
    destruct (cmp x y <=? 0) eqn:Hxy.
    + constructor; [assumption|]. constructor; [lia|].
      eapply List.Forall_impl; [|exact Hy]. intros z Hz. cbn in Hz.
      eapply cmp_trans; [|exact Hz]. lia.
    + constructor; [auto|].
      rewrite (insertBy_perm cmp x l). constructor; [|assumption].
      destruct (cmp_total x y); lia.
Qed.

Lemma sort_sorted l : StronglySorted (fun a b => cmp a b <= 0) (JS.sort cmp l).
Proof.
  unfold JS.sort. induction l as [|x l IH]; cbn [fold_right].
  - constructor.
  - now apply insertBy_sorted.
Qed.

End SortSorted.

Lemma StronglySorted_weaken {A} (R R' : A -> A -> Prop) l :
  (forall a b, R a b -> R' a b) -> StronglySorted R l -> StronglySorted R' l.
Proof.
  intros H. induction 1 as [|x l Hs IH Hx]; constructor; [assumption|].
  eapply List.Forall_impl; [|exact Hx]. auto.
Qed.

Lemma StronglySorted_firstn {A} (R : A -> A -> Prop) n l :
  StronglySorted R l -> StronglySorted R (firstn n l).
Proof.
  revert l. induction n as [|n IH]; intros l Hs; [constructor|].
  destruct l as [|x l]; [constructor|]. cbn [firstn].
  inversion Hs; subst. constructor; [auto|].
  now apply Forall_take.
Qed.

Lemma slice0_sorted {A} (R : A -> A -> Prop) l n :
  StronglySorted R l -> StronglySorted R (JS.slice0 l n).
Proof. unfold JS.slice0. destruct (n <? 0); apply StronglySorted_firstn. Qed.

Lemma slice0_length {A} (l : list A) n :
  0 <= n -> Z.of_nat (length (JS.slice0 l n)) <= n.
Proof.
  intros Hn. unfold JS.slice0. replace (n <? 0) with false by lia.
  rewrite length_firstn. lia.
Qed.

(** ** The match list *)

Lemma byProgress_le a b : byProgress a b <= 0 <-> listedBefore a b.
Proof.
  unfold byProgress, listedBefore.
  destruct (hasResult a), (hasResult b); cbn; split; intros H;
    try lia; intuition (try discriminate; try lia).
Qed.

Lemma filter_all_length {A} (f : A -> bool) l :
  length (List.filter f l) = length l <-> Forall (fun x => f x = true) l.
Proof.
  induction l as [|x l IH]; cbn.
  - split; constructor.
  - pose proof (filter_length_le f l) as Hle.
    destruct (f x) eqn:Hx; cbn.
    + split.
      * intros H. constructor; [assumption|]. apply IH. lia.
      * intros H. inversion H; subst. f_equal. now apply IH.
    + split; [lia | intros H; inversion H; congruence].
Qed.

(** X17. The match list of the active tournament is a permutation of
    the matches with unfinished matches first and ascending ids within
    each group; the tournament counts as complete exactly when it has
    at least one match and every match has a result. *)
Theorem match_list_order_and_completion :
  forall (st : AppState) (ed : TournamentData),
    editorData st = Some ed ->
    Permutation (sortedMatches st) (matches ed)
    /\ StronglySorted listedBefore (sortedMatches st)
    /\ (isComplete st = true
        <-> matches ed <> [] /\ Forall (fun m => hasResult m = true) (matches ed)).
Proof.
  intros st ed Hed. unfold sortedMatches, isComplete, finishedCount, totalCount.
  rewrite Hed. split; [apply sort_perm|]. split.
  - eapply StronglySorted_weaken; [intros a b; apply byProgress_le|].
    apply sort_sorted.
    + intros a b. unfold byProgress.
      destruct (hasResult a), (hasResult b); cbn; lia.
    + intros a b c. unfold byProgress.
      destruct (hasResult a), (hasResult b), (hasResult c); cbn; lia.
  - rewrite andb_true_iff, Nat.eqb_eq, Nat.ltb_lt, filter_all_length.
    destruct (matches ed); cbn; split; intros [H1 H2]; split; auto;
      try lia; try congruence.
Qed.

Lemma match_list_order_and_completion_witness :
  Permutation (sortedMatches (demoState rematchBracket)) rematchBracket
  /\ isComplete (demoState rematchBracket) = true.
Proof.
  destruct (match_list_order_and_completion (demoState rematchBracket)
              (demoTournament rematchBracket) eq_refl) as (Hp & _ & Hc).
  split; [exact Hp|]. apply Hc. split; [discriminate|].
  repeat constructor.
Defined.

Lemma sameShape_count l l' :
  Forall2 sameShape l l' ->
  (length (List.filter hasResult l) <= length (List.filter hasResult l'))%nat
  /\ length l = length l'.
Proof.
  induction 1 as [|x y l l' Hxy _ [IH1 IH2]]; cbn; [lia|].
  destruct Hxy as (_ & _ & _ & _ & _ & Hres).
  destruct (hasResult x) eqn:Hx, (hasResult y) eqn:Hy; cbn; try lia.
  exfalso. unfold hasResult in Hx, Hy.
  destruct (result x) as [r|]; [|discriminate].
  destruct (Hres ltac:(eauto)) as [r' Hr']. rewrite Hr' in Hy. discriminate.
Qed.

(** X4. After [submitScore] or [handleWalkover] the number of finished
    matches is at least what it was and the number of matches is the
    same, whatever the state. *)
Theorem handlers_never_unfinish :
  forall (now : Z) (st : AppState) (confirmed : bool) (matchId : Z),
    (finishedCount st <= finishedCount (next (submitScore now st)))%nat
    /\ totalCount (next (submitScore now st)) = totalCount st
    /\ (finishedCount st
        <= finishedCount (next (handleWalkover confirmed now matchId st)))%nat
    /\ totalCount (next (handleWalkover confirmed now matchId st))
       = totalCount st.
Proof.
  intros now st confirmed matchId.
  destruct (editorData st) as [ed|] eqn:Hed.
  - destruct (submitScore_sameBracket now st ed Hed)
      as (ed1 & Hed1 & (_ & _ & _ & _ & _ & Hs1)).
    destruct (handleWalkover_sameBracket confirmed now matchId st ed Hed)
      as (ed2 & Hed2 & (_ & _ & _ & _ & _ & Hs2)).
    unfold finishedCount, totalCount. rewrite Hed, Hed1, Hed2.
    destruct (sameShape_count _ _ Hs1), (sameShape_count _ _ Hs2).
    repeat split; lia || (symmetry; assumption).
  - assert (E1 : submitScore now st = silent st).
    { unfold submitScore. rewrite Hed. now destruct (activeMatchId st). }
    assert (E2 : handleWalkover confirmed now matchId st = silent st).
    { unfold handleWalkover. now rewrite Hed. }
    rewrite E1, E2. cbn [next silent]. repeat split; lia.
Qed.

(** ** Rankings: order, length and titles *)

Lemma addRanking_titled allowed ps pid t o acc :
  In (t, o) allowed -> titled allowed acc ->
  titled allowed (addRanking ps pid t o acc).
Proof.
  intros Hin Hacc. unfold addRanking.
  destruct (JS.truthyStr pid); [|assumption]. cbn [negb].
  destruct pid as [pid|]; [|assumption].
  destruct (JS.includes (processedPlayers acc) pid); [assumption|]. cbn [negb].
  destruct (findPlayer ps pid); [|assumption].
  unfold titled. cbn [rankings]. apply Forall_app. split; [assumption|].
  constructor; [assumption | constructor].
Qed.

Lemma rankRoot_titled allowed ps t1 o1 t2 o2 acc root :
  In (t1, o1) allowed -> In (t2, o2) allowed -> titled allowed acc ->
  titled allowed (rankRoot ps t1 o1 t2 o2 acc root).
Proof.
  intros H1 H2 Hacc. unfold rankRoot. destruct (result root); [|assumption].
  now apply addRanking_titled, addRanking_titled.
Qed.

Lemma rankLoser_titled allowed ps t o acc m :
  In (t, o) allowed -> titled allowed acc ->
  titled allowed (rankLoser ps t o acc m).
Proof.
  intros H Hacc. unfold rankLoser. destruct (result m); [|assumption].
  now apply addRanking_titled.
Qed.

Lemma collectRankings_titled ed limit :
  titled (titlesInUse (matches ed) limit) (collectRankings ed limit).
Proof.
  unfold collectRankings, titlesInUse. cbv zeta.
  set (noConsolation := (length (consolationRootsOf (matches ed)) =? 0)%nat).
  set (allowed := (_ ++ _)%list).
  assert (H1 : In (championTitle, 1) allowed)
    by (apply in_or_app; left; cbn; auto).
  assert (H2 : In (secondTitle, 2) allowed)
    by (apply in_or_app; left; cbn; auto).
  assert (H3 : In (thirdTitle, 3) allowed)
    by (apply in_or_app; left; cbn; auto).
  assert (H4 : In (fourthTitle, 4) allowed)
    by (apply in_or_app; left; cbn; auto 6).
  assert (Hj : noConsolation = true -> In (jointThirdTitle, 3) allowed).
  { intros E. apply in_or_app; right. apply in_or_app; left.
    rewrite E. now left. }
  assert (H5 : (limit >? 4) = true -> In (fifthTitle, 5) allowed).
  { intros E. apply in_or_app; right. apply in_or_app; right.
    apply in_or_app; left. rewrite E. now left. }
  assert (H9 : (limit >? 8) = true -> In (ninthTitle, 9) allowed).
  { intros E. apply in_or_app; right. apply in_or_app; right.
    apply in_or_app; right. rewrite E. now left. }
  clearbody allowed.
  assert (H0 : titled allowed {| rankings := []; processedPlayers := [] |})
    by constructor.
  assert (Hroots :
            titled allowed
              (fold_left (rankRoot (players ed) thirdTitle 3 fourthTitle 4)
                 (consolationRootsOf (matches ed))
                 (fold_left (rankRoot (players ed) championTitle 1 secondTitle 2)
                    (mainRootsOf (matches ed))
                    {| rankings := []; processedPlayers := [] |}))).
  { apply fold_left_invariant; [intros; now apply rankRoot_titled|].
    apply fold_left_invariant; [intros; now apply rankRoot_titled|].
    exact H0. }
  assert (Hsemi :
            titled allowed
              (if noConsolation
               then fold_left (rankLoser (players ed) jointThirdTitle 3)
                      (getLosersOfFeeders (matches ed)
                         (map match_id (mainRootsOf (matches ed))))
                      (fold_left (rankRoot (players ed) thirdTitle 3 fourthTitle 4)
                         (consolationRootsOf (matches ed))
                         (fold_left
                            (rankRoot (players ed) championTitle 1 secondTitle 2)
                            (mainRootsOf (matches ed))
                            {| rankings := []; processedPlayers := [] |}))
               else fold_left (rankRoot (players ed) thirdTitle 3 fourthTitle 4)
                      (consolationRootsOf (matches ed))
                      (fold_left
                         (rankRoot (players ed) championTitle 1 secondTitle 2)
                         (mainRootsOf (matches ed))
                         {| rankings := []; processedPlayers := [] |}))).
  { destruct noConsolation; [|exact Hroots].
    apply fold_left_invariant; [intros; now apply rankLoser_titled; auto|].
    exact Hroots. }
  destruct (limit >? 4); [|exact Hsemi].
  destruct (limit >? 8).
  - apply fold_left_invariant; [intros; now apply rankLoser_titled; auto|].
    apply fold_left_invariant; [intros; now apply rankLoser_titled; auto|].
    exact Hsemi.
  - apply fold_left_invariant; [intros; now apply rankLoser_titled; auto|].
    exact Hsemi.
Qed.

(** X18. The list [getRankings] returns is in ascending rank order,
    has at most [limit] entries for a non-negative limit, and uses
    only the titles in force: the four root titles, joint 3rd only
    without a consolation root, 5th only above limit 4, 9th only above
    limit 8. *)
Theorem rankings_sorted_capped_and_titled :
  forall (st : AppState) (ed : TournamentData) (limit : Z),
    editorData st = Some ed ->
    StronglySorted (fun a b => rankOrder a <= rankOrder b) (getRankings st limit)
    /\ (0 <= limit -> Z.of_nat (length (getRankings st limit)) <= limit)
    /\ Forall (fun r => In (rank_title r, rankOrder r)
                           (titlesInUse (matches ed) limit))
              (getRankings st limit).
Proof.
  intros st ed limit Hed. unfold getRankings. rewrite Hed.
  split; [|split].
  - apply slice0_sorted.
    eapply StronglySorted_weaken;
      [|apply (sort_sorted byRankOrder); unfold byRankOrder; intros; lia].
    unfold byRankOrder. intros a b. cbn. lia.
  - apply slice0_length.
  - apply slice0_Forall. rewrite sort_perm. apply collectRankings_titled.
Qed.

Lemma rankings_sorted_capped_and_titled_witness :
  editorData finishedScenario = Some finishedTournament
  /\ map (fun r => (rank_title r, rank_name r, rankOrder r))
         (getRankings finishedScenario 4)
     = [ (championTitle, "Sato", 1); (secondTitle, "Tanaka", 2);
         (jointThirdTitle, "Suzuki", 3); (jointThirdTitle, "Takahashi", 3) ]
  /\ StronglySorted (fun a b => rankOrder a <= rankOrder b)
                    (getRankings finishedScenario 4)
  /\ Z.of_nat (length (getRankings finishedScenario 4)) <= 4
  /\ Forall (fun r => In (rank_title r, rankOrder r)
                         (titlesInUse finishedMatches 4))
            (getRankings finishedScenario 4).
Proof.
  split; [reflexivity|]. split; [reflexivity|].
  destruct (rankings_sorted_capped_and_titled
              finishedScenario finishedTournament 4 eq_refl)
    as (Hsorted & Hcap & Htitled).
  split; [exact Hsorted|]. split; [apply Hcap; lia | exact Htitled].
Defined.

(** ** No result, no ranking *)

Lemma fold_left_unchanged {S X} (f : S -> X -> S) (P : X -> Prop) l s :
  (forall s x, P x -> f s x = s) -> Forall P l -> fold_left f l s = s.
Proof.
  intros Hf Hl. revert s. induction Hl as [|x l Hx _ IH]; intros s; cbn;
    [reflexivity|]. now rewrite Hf, IH.
Qed.

Lemma rankRoot_pending ps t1 o1 t2 o2 acc root :
  result root = None -> rankRoot ps t1 o1 t2 o2 acc root = acc.
Proof. unfold rankRoot. now intros ->. Qed.

Lemma rankLoser_pending ps t o acc m :
  result m = None -> rankLoser ps t o acc m = acc.
Proof. unfold rankLoser. now intros ->. Qed.

Lemma Forall_filter_keep {A} (P : A -> Prop) (f : A -> bool) l :
  Forall P l -> Forall P (List.filter f l).
Proof.
  intros H. rewrite List.Forall_forall in *. intros x Hx.
  apply filter_In in Hx as [Hx _]. auto.
Qed.

Lemma Forall_sort_keep {A} (P : A -> Prop) (cmp : A -> A -> Z) l :
  Forall P l -> Forall P (JS.sort cmp l).
Proof. intros H. now rewrite sort_perm. Qed.

Lemma collectRankings_pending (ed : TournamentData) (limit : Z) :
  Forall (fun m => result m = None) (matches ed) ->
  collectRankings ed limit = {| rankings := []; processedPlayers := [] |}.
Proof.
  intros Hnone. unfold collectRankings. cbv zeta.
  assert (Hmain : Forall (fun m => result m = None) (mainRootsOf (matches ed)))
    by (unfold mainRootsOf; now apply Forall_sort_keep, Forall_filter_keep,
                                       Forall_filter_keep).
  assert (Hcons : Forall (fun m => result m = None)
                         (consolationRootsOf (matches ed)))
    by (unfold consolationRootsOf;
        now apply Forall_sort_keep, Forall_filter_keep, Forall_filter_keep).
  assert (Hfeed : forall ids, Forall (fun m => result m = None)
                                     (getLosersOfFeeders (matches ed) ids))
    by (intros ids; unfold getLosersOfFeeders; now apply Forall_filter_keep).
  rewrite (fold_left_unchanged _ (fun m => result m = None)
             (mainRootsOf (matches ed)))
    by (auto using rankRoot_pending).
  rewrite (fold_left_unchanged _ (fun m => result m = None)
             (consolationRootsOf (matches ed)))
    by (auto using rankRoot_pending).
  repeat match goal with
         | |- context [fold_left (rankLoser ?ps ?t ?o) ?l ?s] =>
             rewrite (fold_left_unchanged (rankLoser ps t o)
                        (fun m => result m = None) l s)
               by (auto using rankLoser_pending)
         end.
  now destruct (length _ =? 0)%nat, (limit >? 4), (limit >? 8).
Qed.

(** X19. A tournament in which no match has a result has an empty
    ranking list, for every limit. *)
Theorem no_result_no_ranking :
  forall (st : AppState) (ed : TournamentData) (limit : Z),
    editorData st = Some ed ->
    Forall (fun m => result m = None) (matches ed) ->
    getRankings st limit = [].
Proof.
  intros st ed limit Hed Hnone. unfold getRankings. rewrite Hed.
  rewrite (collectRankings_pending ed limit Hnone).
  cbn [rankings JS.sort fold_right].
  unfold JS.slice0. destruct (limit <? 0); apply firstn_nil.
Qed.

Lemma no_result_no_ranking_witness :
  getRankings (demoState byeBracket) 8 = [].
Proof.
  apply (no_result_no_ranking (demoState byeBracket) (demoTournament byeBracket));
    [reflexivity | repeat constructor].
Defined.

(** ** The root traversal records the longest walk below the cap *)

Section Walks.

Variable ms : list Match.

Lemma forEach_calls_mid (d : Z) (fuel : nat) :
  0 <= d ->
  forall (l : list Match) (mp mp' : gmap Z Z) (f : Match),
    forEachM (fun acc g => calculateDepth fuel ms (match_id g) d acc) l mp
    = Some mp' ->
    In f l ->
    exists mp1 mp2,
      calculateDepth fuel ms (match_id f) d mp1 = Some mp2 /\ grows mp2 mp'.
Proof.
  intros Hd. induction l as [|g l IH]; intros mp mp' f Hrun Hf; [destruct Hf|].
  cbn [forEachM] in Hrun.
  destruct (calculateDepth fuel ms (match_id g) d mp) as [mpg|] eqn:Hc;
    [|discriminate].
  destruct Hf as [->|Hf].
  - exists mp, mpg. split; [assumption|].
    apply (forEach_calls ms (fun i acc => calculateDepth fuel ms i d acc) d)
      in Hrun as [Hg _]; [assumption|].
    intros i a a' Hc'. now apply (calculateDepth_spec ms fuel).
  - eapply IH; eassumption.
Qed.

Lemma calculateDepth_covers_walks (k : nat) :
  forall (fuel : nat) (matchId d : Z) (mp mp' : gmap Z Z) (b : Z),
    0 <= d ->
    calculateDepth fuel ms matchId d mp = Some mp' ->
    d + Z.of_nat k <= maxDepth ->
    In b (walkLevel ms matchId k) ->
    exists v, mp' !! b = Some v /\ d + Z.of_nat k <= v.
Proof.
  induction k as [|k IH]; intros fuel matchId d mp mp' b Hd Hrun Hcap Hb.
  - destruct Hb as [<-|[]].
    apply calculateDepth_spec in Hrun as (_ & Hat & _); [|assumption].
    destruct Hat as [(v & Hv & Hle) _]; [lia|]. exists v. split; [assumption|lia].
  - apply walkLevel_step in Hb as (f & Hf & Hb).
    destruct fuel as [|fuel]; [discriminate|].
    rewrite calculateDepth_unfold in Hrun.
    replace (d >? maxDepth) with false in Hrun by lia.
    destruct (forEach_calls_mid (d + 1) fuel ltac:(lia) _ _ _ f Hrun Hf)
      as (mp1 & mp2 & Hcall & Hg).
    destruct (IH fuel (match_id f) (d + 1) mp1 mp2 b ltac:(lia) Hcall
                ltac:(lia) Hb) as (v & Hv & Hle).
    destruct (Hg _ _ Hv) as (v' & Hv' & Hle').
    exists v'. split; [assumption | lia].
Qed.

End Walks.

(** X20. The depth the root traversal records for a match id is the
    length of the longest walk of at most 10 edges from it to the
    root; an id has no depth exactly when no walk of at most 10 edges
    reaches the root. *)
Theorem root_depth_is_longest_walk :
  forall (fuel : nat) (ms : list Match) (rootMatchId : Z) (mp0 : gmap Z Z)
         (b : Z),
    rootDepths fuel ms rootMatchId = Some mp0 ->
    (mp0 !! b = None
     <-> forall k : nat, (k <= 10)%nat -> ~ In b (walkLevel ms rootMatchId k))
    /\ (forall v, mp0 !! b = Some v ->
          (exists k : nat, v = Z.of_nat k /\ (k <= 10)%nat
                           /\ In b (walkLevel ms rootMatchId k))
          /\ (forall k : nat, (k <= 10)%nat ->
                In b (walkLevel ms rootMatchId k) -> Z.of_nat k <= v)).
Proof.
  intros fuel ms root mp0 b Hrun.
  assert (Hcover : forall k : nat, (k <= 10)%nat ->
                     In b (walkLevel ms root k) ->
                     exists v, mp0 !! b = Some v /\ Z.of_nat k <= v).
  { intros k Hk Hb.
    destruct (calculateDepth_covers_walks ms k fuel root 0 ∅ mp0 b
                ltac:(lia) Hrun ltac:(unfold maxDepth; lia) Hb) as (v & Hv & Hle).
    exists v. split; [assumption | lia]. }
  split.
  - split.
    + intros Hnone k Hk Hb. destruct (Hcover k Hk Hb) as (v & Hv & _). congruence.
    + intros Hfar. destruct (mp0 !! b) as [v|] eqn:Hv; [|reflexivity].
      destruct (rootDepths_reach ms fuel root mp0 b v Hrun Hv) as (k & _ & Hk & Hw).
      destruct (Hfar k Hk Hw).
  - intros v Hv. split.
    + exact (rootDepths_reach ms fuel root mp0 b v Hrun Hv).
    + intros k Hk Hb. destruct (Hcover k Hk Hb) as (v' & Hv' & Hle). congruence.
Qed.

Lemma root_depth_is_longest_walk_witness :
  default ∅ (rootDepths 12 fourPlayerBracket 3) !! 1 = None
  <-> forall k : nat, (k <= 10)%nat -> ~ In 1 (walkLevel fourPlayerBracket 3 k).
Proof.
  apply (root_depth_is_longest_walk 12 fourPlayerBracket 3
           (default ∅ (rootDepths 12 fourPlayerBracket 3)) 1).
  vm_compute. reflexivity.
Defined.

(** ** The rounds *)

Lemma maxFoundDepth_le (mp : gmap Z Z) (c : Z) :
  0 <= c -> (forall k v, mp !! k = Some v -> v <= c) -> maxFoundDepth mp <= c.
Proof.
  intros Hc. unfold maxFoundDepth.
  apply (map_fold_weak_ind
           (fun r (m : gmap Z Z) => (forall k v, m !! k = Some v -> v <= c) -> r <= c)).
  - intros _. lia.
  - intros i x m r Hi IH Hall.
    assert (x <= c) by (apply (Hall i); apply lookup_insert_eq).
    assert (r <= c); [|lia].
    apply IH. intros k v Hk. apply (Hall k).
    rewrite lookup_insert_ne; [assumption | congruence].
Qed.

Lemma levelsFrom_length ms mp n : length (levelsFrom ms mp n) = S n.
Proof. induction n as [|n IH]; cbn [levelsFrom length]; [reflexivity | now rewrite IH]. Qed.

Lemma levelsFrom_lookup ms mp n i l :
  levelsFrom ms mp n !! i = Some l ->
  (i <= n)%nat /\ l = levelAt ms mp (Z.of_nat (n - i)).
Proof.
  revert i. induction n as [|n IH]; intros i; cbn [levelsFrom].
  - destruct i as [|i]; cbn; [|discriminate]. intros [= <-]. split; [lia | reflexivity].
  - destruct i as [|i]; cbn [lookup list_lookup].
    + intros [= <-]. split; [lia|]. f_equal.
    + intros H. apply IH in H as [Hle ->]. split; [lia | reflexivity].
Qed.

(** X21. The layout has between 1 and 11 rounds, one per depth from
    the largest recorded depth down to 0; the round at index [i] holds
    matches of the collection whose depth is the largest depth minus
    [i], in ascending id order. *)
Theorem rounds_follow_depth :
  forall (fuel : nat) (ms : list Match) (rootMatchId : Z)
         (rounds : list (list Match)),
    levels fuel ms rootMatchId = Some rounds ->
    exists mp,
      depthMap fuel ms rootMatchId = Some mp
      /\ Z.of_nat (length rounds) = maxFoundDepth mp + 1
      /\ (1 <= length rounds <= 11)%nat
      /\ (forall i l m,
             rounds !! i = Some l -> In m l ->
             In m ms /\ mp !! match_id m = Some (maxFoundDepth mp - Z.of_nat i))
      /\ Forall (StronglySorted (fun a b => match_id a <= match_id b)) rounds.
Proof.
  intros fuel ms root rounds Hrun. unfold levels in Hrun.
  destruct (depthMap fuel ms root) as [mp|] eqn:Hmp; [|discriminate].
  injection Hrun as <-. exists mp. split; [reflexivity|].
  assert (Hb : bounded mp).
  { unfold depthMap in Hmp.
    destruct (rootDepths fuel ms root) as [mp0|] eqn:H0; [|discriminate].
    eapply (depthMap_inv ms fuel root mp0 mp H0).
    unfold depthMap. now rewrite H0. }
  destruct (maxFoundDepth_bound mp) as [Hmin _].
  assert (Hmax : maxFoundDepth mp <= 10).
  { apply maxFoundDepth_le; [lia|]. intros k v Hk.
    destruct (Hb _ _ Hk). unfold maxDepth in *. lia. }
  rewrite levelsFrom_length. split; [lia|]. split; [lia|]. split.
  - intros i l m Hl Hm. apply levelsFrom_lookup in Hl as [Hle ->].
    apply levelAt_In in Hm as [Hin Hd]. split; [assumption|].
    rewrite Hd. f_equal. lia.
  - apply List.Forall_forall. intros l Hl.
    apply list_elem_of_In, list_elem_of_lookup in Hl as [i Hl].
    apply levelsFrom_lookup in Hl as [_ ->]. unfold levelAt.
    eapply StronglySorted_weaken;
      [|apply (sort_sorted byIdAsc); unfold byIdAsc; intros; lia].
    unfold byIdAsc. intros a b. cbn. lia.
Qed.

Lemma rounds_follow_depth_witness :
  exists mp,
    depthMap 12 fourPlayerBracket 3 = Some mp
    /\ Z.of_nat (length (default [] (levels 12 fourPlayerBracket 3)))
       = maxFoundDepth mp + 1.
Proof.
  destruct (rounds_follow_depth 12 fourPlayerBracket 3
              (default [] (levels 12 fourPlayerBracket 3)))
    as (mp & Hmp & Hlen & _); [vm_compute; reflexivity|].
  exists mp. split; assumption.
Defined.

(** ** Matches are left out only at the cap *)

Lemma placeOrphan_step fuel ms mp mp' m :
  bounded mp ->
  placeOrphan fuel ms mp m = Some mp' ->
  grows mp mp' /\ bounded mp'
  /\ (is_Some (mp' !! match_id m) \/ exists k, mp !! k = Some maxDepth).
Proof.
  intros Hb Hrun. unfold placeOrphan in Hrun.
  destruct (mp !! match_id m) as [dm|] eqn:Hm.
  { injection Hrun as <-. split; [apply grows_refl|]. split; [assumption|].
    left. eauto. }
  assert (Hfresh : grows mp (<[match_id m := 0]> mp)
                   /\ bounded (<[match_id m := 0]> mp)
                   /\ (is_Some (<[match_id m := 0]> mp !! match_id m)
                       \/ exists k, mp !! k = Some maxDepth)).
  { split; [now apply insert_fresh_grows|]. split.
    - intros k v Hk. destruct (decide (match_id m = k)) as [<-|Hne].
      + rewrite lookup_insert_eq in Hk. injection Hk as <-. unfold maxDepth. lia.
      + rewrite lookup_insert_ne in Hk by assumption. eapply Hb; eassumption.
    - left. rewrite lookup_insert_eq. eauto. }
  destruct (List.find _ ms) as [p|]; [|injection Hrun as <-; exact Hfresh].
  destruct (mp !! match_id p) as [parentDepth|] eqn:Hp;
    [|injection Hrun as <-; exact Hfresh].
  clear Hfresh. destruct (Hb _ _ Hp) as [Hp0 Hp10].
  apply calculateDepth_spec in Hrun as (Hg & Hat & _ & Hb'); [|lia].
  split; [assumption|]. split; [auto|].
  destruct (decide (parentDepth = maxDepth)) as [->|Hne]; [right; eauto|].
  left. destruct Hat as [(v & Hv & _) _]; [lia | eauto].
Qed.

Lemma orphans_placed fuel ms :
  forall (l : list Match) (mp mp' : gmap Z Z),
    bounded mp ->
    forEachM (placeOrphan fuel ms) l mp = Some mp' ->
    grows mp mp' /\ bounded mp'
    /\ forall m, In m l ->
                 is_Some (mp' !! match_id m) \/ exists k, mp' !! k = Some maxDepth.
Proof.
  induction l as [|x l IH]; intros mp mp' Hb Hrun; cbn [forEachM] in Hrun.
  - injection Hrun as <-. split; [apply grows_refl|]. split; [assumption|].
    intros m [].
  - destruct (placeOrphan fuel ms mp x) as [mp1|] eqn:Hx; [|discriminate].
    destruct (placeOrphan_step _ _ _ _ _ Hb Hx) as (Hg1 & Hb1 & Hx1).
    destruct (IH _ _ Hb1 Hrun) as (Hg2 & Hb2 & Hrest).
    split; [eapply grows_trans; eassumption|]. split; [assumption|].
    assert (Hcap : forall mpa, grows mpa mp' ->
                     (exists k, mpa !! k = Some maxDepth) ->
                     exists k, mp' !! k = Some maxDepth).
    { intros mpa Hga (k & Hk). destruct (Hga _ _ Hk) as (v & Hv & Hle).
      destruct (Hb2 _ _ Hv). exists k. rewrite Hv. f_equal. lia. }
    intros m [<-|Hm]; [|now apply Hrest].
    destruct Hx1 as [[v Hv]|Hc].
    + left. destruct (Hg2 _ _ Hv) as (v' & Hv' & _). eauto.
    + right. eapply (Hcap mp); [eapply grows_trans; eassumption | assumption].
Qed.

(** X22. If no recorded depth reaches the cap, every match of the
    collection has a depth (and so is shown in the layout). *)
Theorem nothing_dropped_below_cap :
  forall (fuel : nat) (ms : list Match) (rootMatchId : Z) (mp : gmap Z Z),
    depthMap fuel ms rootMatchId = Some mp ->
    (forall k v, mp !! k = Some v -> v < maxDepth) ->
    forall m, In m ms -> is_Some (mp !! match_id m).
Proof.
  intros fuel ms root mp Hrun Hlow m Hm. unfold depthMap in Hrun.
  destruct (rootDepths fuel ms root) as [mp0|] eqn:H0; [|discriminate].
  destruct (rootDepths_settled ms fuel root mp0 H0) as [Hb0 _].
  destruct (orphans_placed fuel ms ms mp0 mp Hb0 Hrun) as (_ & _ & Hall).
  destruct (Hall m Hm) as [Hs|(k & Hk)]; [assumption|].
  specialize (Hlow _ _ Hk). lia.
Qed.

Lemma nothing_dropped_below_cap_witness :
  is_Some (default ∅ (depthMap 12 fourPlayerBracket 3) !! 2).
Proof.
  apply (nothing_dropped_below_cap 12 fourPlayerBracket 3
           (default ∅ (depthMap 12 fourPlayerBracket 3))
           ltac:(vm_compute; reflexivity))
    with (m := Build_Match 2 None None (Some 3) (Some white) None None None).
  - intros k v Hk.
    assert (Hall : map_Forall (fun (_ : Z) (v : Z) => v < maxDepth)
                     (default ∅ (depthMap 12 fourPlayerBracket 3)))
      by (apply (bool_decide_unpack _); vm_compute; exact I).
    exact (Hall k v Hk).
  - right. now left.
Defined.

(** ** A bracket without edges is a single round *)

Lemma filter_all {A} (f : A -> bool) l :
  Forall (fun x => f x = true) l -> List.filter f l = l.
Proof.
  induction 1 as [|x l Hx _ IH]; cbn; [reflexivity|]. now rewrite Hx, IH.
Qed.

Lemma filter_none {A} (f : A -> bool) l :
  Forall (fun x => f x = false) l -> List.filter f l = [].
Proof.
  induction 1 as [|x l Hx _ IH]; cbn; [reflexivity|]. now rewrite Hx.
Qed.

Lemma unlinked_orphans fuel ms :
  forall (l : list Match) (mp : gmap Z Z),
    Forall unlinked l ->
    (forall k v, mp !! k = Some v -> v = 0) ->
    exists mp',
      forEachM (placeOrphan fuel ms) l mp = Some mp'
      /\ (forall k v, mp' !! k = Some v -> v = 0)
      /\ (forall k, mp !! k = Some 0 -> mp' !! k = Some 0)
      /\ (forall m, In m l -> mp' !! match_id m = Some 0).
Proof.
  induction l as [|x l IH]; intros mp Hl Hz; cbn [forEachM].
  - exists mp. repeat split; auto. intros m [].
  - inversion Hl as [|? ? [Hw Hlo] Hl']; subst.
    assert (Hstep : exists mp1,
               placeOrphan fuel ms mp x = Some mp1
               /\ (forall k v, mp1 !! k = Some v -> v = 0)
               /\ (forall k, mp !! k = Some 0 -> mp1 !! k = Some 0)
               /\ mp1 !! match_id x = Some 0).
    { unfold placeOrphan. rewrite Hw, Hlo. cbn [JS.eqNum orb].
      destruct (mp !! match_id x) as [v|] eqn:Hx.
      - exists mp. repeat split; auto. rewrite Hx. f_equal. eauto.
      - replace (List.find (fun _ : Match => false) ms) with (@None Match)
          by (symmetry; apply find_none_iff, List.Forall_forall; auto).
        exists (<[match_id x := 0]> mp). split; [reflexivity|]. split; [|split].
        + intros k v Hk. destruct (decide (match_id x = k)) as [<-|Hne].
          * rewrite lookup_insert_eq in Hk. congruence.
          * rewrite lookup_insert_ne in Hk by assumption. eauto.
        + intros k Hk. rewrite lookup_insert_ne; [assumption | congruence].
        + apply lookup_insert_eq. }
    destruct Hstep as (mp1 & -> & Hz1 & Hkeep1 & Hx1).
    destruct (IH mp1 Hl' Hz1) as (mp' & Hrun & Hz' & Hkeep' & Hl2).
    exists mp'. split; [assumption|]. split; [assumption|].
    split; [auto|]. intros m [<-|Hm]; auto.
Qed.

(** X23. A collection in which no match has a winner or loser edge is
    laid out as a single round holding all matches in ascending id
    order, for any root id. *)
Theorem unlinked_bracket_is_one_round :
  forall (fuel : nat) (ms : list Match) (rootMatchId : Z),
    (1 <= fuel)%nat ->
    Forall unlinked ms ->
    levels fuel ms rootMatchId = Some [JS.sort byIdAsc ms].
Proof.
  intros fuel ms root Hfuel Hun.
  destruct fuel as [|fuel]; [lia|].
  assert (Hfeed : feedersOf ms root = []).
  { unfold feedersOf. apply filter_none.
    eapply List.Forall_impl; [|exact Hun]. intros m [-> ->]. reflexivity. }
  assert (H0 : rootDepths (S fuel) ms root = Some (<[root := 0]> ∅)).
  { unfold rootDepths. rewrite calculateDepth_unfold, Hfeed. reflexivity. }
  destruct (unlinked_orphans (S fuel) ms ms (<[root := 0]> ∅) Hun)
    as (mp & Hrun & Hz & _ & Hall).
  { intros k v Hk. destruct (decide (root = k)) as [<-|Hne].
    - rewrite lookup_insert_eq in Hk. congruence.
    - rewrite lookup_insert_ne, lookup_empty in Hk by assumption. discriminate. }
  unfold levels, depthMap. rewrite H0, Hrun.
  assert (Hmax : maxFoundDepth mp = 0).
  { destruct (maxFoundDepth_bound mp) as [Hmin _].
    assert (maxFoundDepth mp <= 0); [|lia].
    apply maxFoundDepth_le; [lia|]. intros k v Hk. rewrite (Hz _ _ Hk). lia. }
  rewrite Hmax. change (Z.to_nat 0) with O. cbn [levelsFrom Z.of_nat].
  unfold levelAt. do 3 f_equal. apply filter_all, List.Forall_forall.
  intros m Hm. rewrite (Hall m Hm). reflexivity.
Qed.

Lemma unlinked_bracket_is_one_round_witness :
  levels 1 (newMatches 3) 3 = Some [JS.sort byIdAsc (newMatches 3)].
Proof.
  apply unlinked_bracket_is_one_round; [lia|].
  repeat constructor.
Defined.

(** ** A freshly initialised bracket *)

Lemma newMatches_ids n : map match_id (newMatches n) = seqZ 1 n.
Proof.
  unfold newMatches. rewrite map_map. cbn [match_id blankMatch]. apply map_id.
Qed.

Lemma findMatch_blank (l : list Z) (i : Z) :
  findMatch (map blankMatch l) i
  = if bool_decide (i ∈ l) then Some (blankMatch i) else None.
Proof.
  unfold findMatch. induction l as [|x l IH]; cbn [map List.find]; [reflexivity|].
  cbn [match_id blankMatch]. destruct (x =? i) eqn:Hx.
  - apply Z.eqb_eq in Hx. subst x.
    rewrite bool_decide_eq_true_2 by (now left). reflexivity.
  - apply Z.eqb_neq in Hx. rewrite IH.
    destruct (bool_decide (i ∈ l)) eqn:Hl.
    + apply bool_decide_eq_true_1 in Hl.
      rewrite bool_decide_eq_true_2 by (now right). reflexivity.
    + apply bool_decide_eq_false_1 in Hl.
      rewrite bool_decide_eq_false_2; [reflexivity|].
      intros [->|H]%elem_of_cons; [congruence | contradiction].
Qed.

Lemma count_blank matchId (l : list Z) acc :
  fold_left (countMatch matchId) (map blankMatch l) acc = acc.
Proof. induction l as [|x l IH]; cbn; [reflexivity | exact IH]. Qed.

Lemma filter_hasResult_blank (l : list Z) :
  List.filter hasResult (map blankMatch l) = [].
Proof. induction l as [|x l IH]; cbn; [reflexivity | exact IH]. Qed.

(** X24. [initializeMatches] moves to step 2 and replaces the matches
    by blank ones with ids 1..totalMatches, so a match is found
    exactly for those ids; the fresh bracket has no rankings, is not
    complete, and none of its cards offers scoring or a walkover. *)
Theorem initializeMatches_gives_fresh_bracket :
  forall (st : AppState) (ed : TournamentData) (step limit : Z),
    editorData st = Some ed ->
    let st' := fst (initializeMatches st step) in
    let ed' := set_matches ed (newMatches (totalMatches ed)) in
    initializeMatches st step = (set_editorData st (Some ed'), 2)
    /\ map match_id (matches ed') = seqZ 1 (totalMatches ed)
    /\ NoDup (map match_id (matches ed'))
    /\ (forall i,
           findMatch (matches ed') i
           = if bool_decide (1 <= i <= totalMatches ed)
             then Some (blankMatch i) else None)
    /\ getRankings st' limit = []
    /\ isComplete st' = false
    /\ Forall (fun m => isReady m = false /\ cardShowsWalkover st' m = false)
              (matches ed').
Proof.
  intros st ed step limit Hed st' ed'.
  assert (Hinit : initializeMatches st step = (set_editorData st (Some ed'), 2))
    by (unfold initializeMatches; now rewrite Hed).
  assert (Hed' : editorData st' = Some ed') by (unfold st'; now rewrite Hinit).
  split; [exact Hinit|].
  split; [apply newMatches_ids|].
  split; [cbn [ed' matches set_matches]; rewrite newMatches_ids; apply NoDup_seqZ|].
  split; [|split; [|split]].
  - intros i. cbn [ed' matches set_matches]. unfold newMatches.
    rewrite findMatch_blank.
    destruct (bool_decide (i ∈ seqZ 1 (totalMatches ed))) eqn:Hin.
    + apply bool_decide_eq_true_1, elem_of_seqZ in Hin.
      rewrite bool_decide_eq_true_2 by lia. reflexivity.
    + apply bool_decide_eq_false_1 in Hin.
      rewrite bool_decide_eq_false_2; [reflexivity|].
      intros H. apply Hin, elem_of_seqZ. lia.
  - unfold getRankings. rewrite Hed'.
    rewrite collectRankings_pending.
    + cbn [rankings JS.sort fold_right].
      unfold JS.slice0. destruct (limit <? 0); apply firstn_nil.
    + cbn [ed' matches set_matches]. unfold newMatches.
      apply List.Forall_forall. intros m Hm.
      apply in_map_iff in Hm as (i & <- & _). reflexivity.
  - unfold isComplete, finishedCount, totalCount. rewrite Hed'.
    cbn [ed' matches set_matches]. unfold newMatches.
    rewrite filter_hasResult_blank. cbn [length].
    destruct (length _); reflexivity.
  - apply List.Forall_forall. intros m Hm.
    cbn [ed' matches set_matches] in Hm. unfold newMatches in Hm.
    apply in_map_iff in Hm as (i & <- & _). split; [reflexivity|].
    unfold cardShowsWalkover, getIncomingSources. rewrite Hed'.
    cbn [ed' matches set_matches]. unfold newMatches.
    rewrite count_blank. reflexivity.
Qed.

Lemma initializeMatches_gives_fresh_bracket_witness :
  getRankings (fst (initializeMatches (demoState readyBracket) 1)) 4 = [].
Proof.
  apply (initializeMatches_gives_fresh_bracket (demoState readyBracket)
           (demoTournament readyBracket) 1 4 eq_refl).
Defined.

(** ** Two Auto feeders meet in an empty match *)

Lemma includes_false_iff sp a : JS.includes sp a = false <-> ~ In a sp.
Proof. rewrite <- includes_In. now rewrite not_true_iff_false. Qed.

(** X2. Two Auto placements from different source matches into a match
    with both slots empty fill Red with the first player and White
    with the second, provided the first player is not among the second
    placement's source participants. *)
Theorem auto_fills_red_then_white :
  forall (ms : list Match) (targetMatchId : Z) (a b : string)
         (sp1 sp2 : list string),
    a <> "" -> ~ In a sp2 ->
    Forall2 (fun x x' =>
               match_id x = targetMatchId ->
               vacant (redPlayerId x) -> vacant (whitePlayerId x) ->
               x' = set_whitePlayerId (set_redPlayerId x (Some a)) (Some b))
            ms
            (placePlayerInMatch
               (placePlayerInMatch ms targetMatchId a None sp1)
               targetMatchId b None sp2).
Proof.
  intros ms t a b sp1 sp2 Ha Hnot. unfold placePlayerInMatch. rewrite map_map.
  apply Forall2_map_self. intros x Hid Hr Hw.
  apply Z.eqb_eq in Hid. rewrite Hid. rewrite placeInTarget_id, Hid.
  apply truthyStr_Some in Ha. apply includes_false_iff in Hnot.
  unfold vacant in Hr, Hw.
  destruct x as [i r w wt ws lt ls res]. cbn [redPlayerId whitePlayerId] in *.
  unfold placeInTarget. cbn [redPlayerId whitePlayerId].
  rewrite Hr, Hw. cbn [andb negb].
  cbn [set_redPlayerId set_whitePlayerId redPlayerId whitePlayerId match_id
       winnerToMatchId winnerToSlot loserToMatchId loserToSlot result
       JS.includesOpt].
  rewrite Ha, Hnot, Hw. reflexivity.
Qed.

Lemma auto_fills_red_then_white_witness :
  Forall2 (fun x x' =>
             match_id x = 3 ->
             vacant (redPlayerId x) -> vacant (whitePlayerId x) ->
             x' = set_whitePlayerId (set_redPlayerId x (Some "p1")) (Some "p4"))
          [blankMatch 3]
          (placePlayerInMatch
             (placePlayerInMatch [blankMatch 3] 3 "p1" None ["p1"; "p2"])
             3 "p4" None ["p3"; "p4"]).
Proof.
  apply auto_fills_red_then_white; [discriminate|].
  intros [H|[H|[]]]; discriminate.
Defined.

Lemma place_later_replaces_earlier_witness :
  placePlayerInMatch
    (placePlayerInMatch [blankMatch 3] 3 "p1" None ["p1"; "p2"])
    3 "p2" None ["p1"; "p2"]
  = placePlayerInMatch [blankMatch 3] 3 "p2" None ["p1"; "p2"].
Proof.
  apply place_later_replaces_earlier. right.
  split; [now left | discriminate].
Defined.

Lemma handlers_keep_bracket_shape_witness :
  exists ed',
    editorData (next (handleWalkover true 7 1 (demoState byeBracket))) = Some ed'
    /\ sameBracket (demoTournament byeBracket) ed'.
Proof.
  apply (handlers_keep_bracket_shape 7 (demoState byeBracket)
           (demoTournament byeBracket) true 1 eq_refl).
Defined.

Lemma submitScore_routes_to_explicit_slots_witness :
  exists ed',
    editorData (next (submitScore 7
                        (setScoreForm {| form_red := 3; form_white := 1;
                                         form_details := "men" |}
                           (onScore 1 (demoState
                                         (scenarioMatches "p1" "p2" "p3" "p4"))))))
    = Some ed'
    /\ matchesWithId (matches ed') 3
       = [Build_Match 3 (Some "p1") None None None None None None].
Proof.
  destruct (submitScore_routes_to_explicit_slots 7
              (setScoreForm {| form_red := 3; form_white := 1;
                               form_details := "men" |}
                 (onScore 1 (demoState (scenarioMatches "p1" "p2" "p3" "p4"))))
              (demoTournament (scenarioMatches "p1" "p2" "p3" "p4")) 1
              (Build_Match 1 (Some "p1") (Some "p2") (Some 3) (Some red)
                           None None None) "p1" "p2")
    as (ed' & Hed' & _); try reflexivity; try discriminate.
  exists ed'. split; [exact Hed'|].
  cbn in Hed'. injection Hed' as <-. reflexivity.
Defined.

(** X9. When the winner edge and the loser edge of a match carry the
    same target and the same slot choice, a decided [submitScore]
    leaves the matches that recording the result and routing the loser
    alone would leave: the winner's placement is overwritten. *)
Theorem shared_target_loses_the_winner :
  forall (now : Z) (st : AppState) (ed : TournamentData) (active : Z)
         (m : Match) (redP whiteP : string),
    editorData st = Some ed ->
    activeMatchId st = Some active ->
    findMatch (matches ed) active = Some m ->
    redPlayerId m = Some redP -> redP <> "" ->
    whitePlayerId m = Some whiteP -> whiteP <> "" ->
    form_red (scoreForm st) <> form_white (scoreForm st) ->
    winnerToMatchId m = loserToMatchId m ->
    winnerToSlot m = loserToSlot m ->
    exists ed',
      editorData (next (submitScore now st)) = Some ed'
      /\ matches ed'
         = routeTo
             (setResult (matches ed) active
                {| winnerId := decidedWinner (form_red (scoreForm st))
                                 (form_white (scoreForm st)) redP whiteP;
                   redScore := form_red (scoreForm st);
                   whiteScore := form_white (scoreForm st);
                   details := form_details (scoreForm st) |})
             (loserToMatchId m)
             (decidedLoser (form_red (scoreForm st))
                (form_white (scoreForm st)) redP whiteP)
             (loserToSlot m) [redP; whiteP].
Proof.
  intros now st ed active m redP whiteP Hed Hact Hfind Hr Hrne Hw Hwne Hrw
         Hto Hslot.
  rewrite (submitScore_decided now st ed active m redP whiteP) by assumption.
  eexists. split; [reflexivity|].
  cbn [matches set_lastUpdated set_matches].
  rewrite <- (findMatch_id _ _ _ Hfind).
  unfold scoredMatches. rewrite !routeTo_pointwise, map_map.
  apply map_ext. intros x. rewrite Hto, Hslot.
  apply routeOne_absorbs. right.
  now apply decidedWinner_participant.
Qed.

Lemma shared_target_loses_the_winner_witness :
  exists ed',
    editorData
      (next (submitScore 7
               (setScoreForm {| form_red := 2; form_white := 0;
                                form_details := "men" |}
                  (onScore 1 (demoState
                     [ Build_Match 1 (Some "p1") (Some "p2") (Some 2) None
                                   (Some 2) None None;
                       blankMatch 2 ])))))
    = Some ed'
    /\ matchesWithId (matches ed') 2
       = [Build_Match 2 (Some "p2") None None None None None None].
Proof.
  destruct (shared_target_loses_the_winner 7
              (setScoreForm {| form_red := 2; form_white := 0;
                               form_details := "men" |}
                 (onScore 1 (demoState
                    [ Build_Match 1 (Some "p1") (Some "p2") (Some 2) None
                                  (Some 2) None None;
                      blankMatch 2 ])))
              (demoTournament
                 [ Build_Match 1 (Some "p1") (Some "p2") (Some 2) None
                               (Some 2) None None;
                   blankMatch 2 ]) 1
              (Build_Match 1 (Some "p1") (Some "p2") (Some 2) None
                           (Some 2) None None) "p1" "p2")
    as (ed' & Hed' & Hms); try reflexivity; try discriminate.
  exists ed'. split; [exact Hed'|]. rewrite Hms. reflexivity.
Defined.

Lemma persistTournament_keeps_ids_unique_witness :
  NoDup (map tournament_id
           (tournaments (persistTournament 7 (demoTournament byeBracket)
                           (demoState readyBracket)))).
Proof.
  apply persistTournament_keeps_ids_unique. cbn. apply NoDup_singleton.
Defined.

Lemma persistTournament_last_write_wins_witness :
  persistTournament 9 (demoTournament byeBracket)
    (persistTournament 7 (demoTournament readyBracket) (demoState emptyBracket))
  = persistTournament 9 (demoTournament byeBracket) (demoState emptyBracket).
Proof. apply persistTournament_last_write_wins. reflexivity. Defined.
